(** * Hytopia golf: a shallow embedding of the turn, shot and scoring logic

    The development follows the layout of the repository:

    - [Ball]    : [src/entities/GolfBallEntity.ts]
    - [Golfer]  : [src/entities/GolfPlayerEntity.ts]
    - [Manager] : [src/managers/GolfGameManager.ts]
    - [Course]  : the block-stamping helpers of [index.ts]
    - [Server]  : the event wiring of [index.ts] (joins, chat commands,
                  controller ticks, collision events and timers)

    JavaScript numbers that carry measured quantities (power, force, mass,
    velocity, position) are modelled by exact rationals [Q]; counters that
    the code only ever increments from zero are [nat]; block coordinates of
    the voxel lattice are [Z].  Console output, audio, chat lines and
    camera calls do not feed back into the state and are left out; calls
    into the physics engine, scheduled timers and the messages sent to the
    players' UIs are kept as an explicit trace.

    The rationals stand for the doubles of the program.  What is proved
    over them are bounds, and single applications of the expressions the
    code itself evaluates; where a value depends on how many rounded
    additions were made, as the tick at which the power meter is full
    does, the meter is taken over IEEE binary64 ([Meter64]). *)

From Stdlib Require Import ZArith QArith Qminmax Lqa Lia.
From Stdlib Require Import Sorting.Sorted Sorting.Permutation.
From Stdlib Require Import Floats.
From stdpp Require Import base list strings gmap functions.

Set Default Proof Using "Type".
Open Scope general_if_scope.

(** ** Vectors ([Vector3Like]) *)

Record Vector3 : Type := mkVec { vx : Q; vy : Q; vz : Q }.

Definition zeroVec : Vector3 := mkVec 0 0 0.

(** ** GolfBallEntity *)

Module Ball.

(** Calls the ball makes on the physics engine it extends. *)
Inductive EngineCall : Type :=
| ApplyImpulse (impulse : Vector3)
| SetLinearVelocity (v : Vector3)
| SetAngularVelocity (v : Vector3)
| SetPosition (p : Vector3)
| Spawn (p : Vector3)
| Despawn.

(** The fields of the class together with the engine-owned attributes
    its methods read ([isSpawned], [position], [linearVelocity]). *)
Record GolfBallEntity : Type := mkBall {
  ballRadius : Q;
  ballRestitution : Q;
  ballFriction : Q;
  ballMass : Q;
  _isRolling : bool;
  isSpawned : bool;
  position : Vector3;
  linearVelocity : Vector3;
  angularVelocity : Vector3
}.

(** [new GolfBallEntity()] with the default options. *)
Definition new : GolfBallEntity :=
  {| ballRadius := 21 # 1000;
     ballRestitution := 6 # 10;
     ballFriction := 3 # 10;
     ballMass := 45 # 1000;
     _isRolling := false;
     isSpawned := false;
     position := zeroVec;
     linearVelocity := zeroVec;
     angularVelocity := zeroVec |}.

Definition set_isRolling (r : bool) (b : GolfBallEntity) : GolfBallEntity :=
  {| ballRadius := ballRadius b; ballRestitution := ballRestitution b;
     ballFriction := ballFriction b; ballMass := ballMass b;
     _isRolling := r; isSpawned := isSpawned b; position := position b;
     linearVelocity := linearVelocity b; angularVelocity := angularVelocity b |}.

Definition set_isSpawned (s : bool) (b : GolfBallEntity) : GolfBallEntity :=
  {| ballRadius := ballRadius b; ballRestitution := ballRestitution b;
     ballFriction := ballFriction b; ballMass := ballMass b;
     _isRolling := _isRolling b; isSpawned := s; position := position b;
     linearVelocity := linearVelocity b; angularVelocity := angularVelocity b |}.

Definition setPosition (p : Vector3) (b : GolfBallEntity) : GolfBallEntity :=
  {| ballRadius := ballRadius b; ballRestitution := ballRestitution b;
     ballFriction := ballFriction b; ballMass := ballMass b;
     _isRolling := _isRolling b; isSpawned := isSpawned b; position := p;
     linearVelocity := linearVelocity b; angularVelocity := angularVelocity b |}.

Definition setLinearVelocity (v : Vector3) (b : GolfBallEntity) : GolfBallEntity :=
  {| ballRadius := ballRadius b; ballRestitution := ballRestitution b;
     ballFriction := ballFriction b; ballMass := ballMass b;
     _isRolling := _isRolling b; isSpawned := isSpawned b; position := position b;
     linearVelocity := v; angularVelocity := angularVelocity b |}.

Definition setAngularVelocity (v : Vector3) (b : GolfBallEntity) : GolfBallEntity :=
  {| ballRadius := ballRadius b; ballRestitution := ballRestitution b;
     ballFriction := ballFriction b; ballMass := ballMass b;
     _isRolling := _isRolling b; isSpawned := isSpawned b; position := position b;
     linearVelocity := linearVelocity b; angularVelocity := v |}.

(** [hit(direction, force)]: nothing happens on a ball that is not
    spawned; otherwise one impulse is handed to the engine.  What the
    engine then does to the velocity is the engine's business. *)
Definition hit (direction : Vector3) (force : Q) (b : GolfBallEntity)
  : GolfBallEntity * list EngineCall :=
  if negb (isSpawned b) then (b, [])
  else
    let impulse :=
      {| vx := vx direction * force * ballMass b;
         vy := vy direction * force * ballMass b;
         vz := vz direction * force * ballMass b |} in
    (b, [ApplyImpulse impulse]).

(** [stopBall()] *)
Definition stopBall (b : GolfBallEntity) : GolfBallEntity * list EngineCall :=
  if negb (isSpawned b) then (b, [])
  else
    (set_isRolling false
       (setAngularVelocity zeroVec (setLinearVelocity zeroVec b)),
     [SetLinearVelocity zeroVec; SetAngularVelocity zeroVec]).

(** [resetToPosition(position)] *)
Definition resetToPosition (p : Vector3) (b : GolfBallEntity)
  : GolfBallEntity * list EngineCall :=
  if negb (isSpawned b) then (b, [])
  else
    let '(b1, calls) := stopBall b in
    (setPosition p b1, calls ++ [SetPosition p]).

(** [getBallVelocity()] *)
Definition getBallVelocity (b : GolfBallEntity) : Vector3 := linearVelocity b.

(** [isMoving()]: [sqrt(x^2 + y^2 + z^2) > 0.01].  Over exact numbers the
    square root of a non-negative quantity exceeds [1/100] exactly when
    the quantity exceeds [1/10000], which is what is computed here. *)
Definition isMoving (b : GolfBallEntity) : bool :=
  let v := getBallVelocity b in
  negb (Qle_bool (vx v * vx v + vy v * vy v + vz v * vz v) (1 # 10000)).

(** [spawn(world, position)]: the call is passed on to the engine, after
    which the entity is in the world; it is taken to be at [position]. *)
Definition spawn (p : Vector3) (b : GolfBallEntity)
  : GolfBallEntity * list EngineCall :=
  (setPosition p (set_isSpawned true b), [Spawn p]).

(** [despawn()] *)
Definition despawn (b : GolfBallEntity) : GolfBallEntity * list EngineCall :=
  (set_isSpawned false b, [Despawn]).

(** The collision callback: which game events a collision start emits. *)
Inductive BallEvent : Type := BallInHole | BallInWater.

Record Collider : Type := mkCollider { isGolfHole : bool; isLiquid : bool }.

Definition _handleCollision (other : Collider) (started : bool) : list BallEvent :=
  if negb started then []
  else (if isGolfHole other then [BallInHole] else [])
         ++ (if isLiquid other then [BallInWater] else []).

End Ball.

(** ** GolfPlayerEntity *)

Module Golfer.

(** Messages the entity sends to its player's UI. *)
Inductive UiMessage : Type :=
| GolfInit (maxPower : Q) (isPlayerTurn : bool) (shotCount : nat)
| GolfTurnStart (shotCount : nat)
| GolfTurnEnd (shotCount : nat)
| GolfAiming (isAiming : bool)
| GolfPowerMeter (power maxPower : Q) (isCharging : bool)
| GolfShotExecuted (power force : Q) (direction : Vector3) (shotCount : nat)
| GolfMessageBallReset.

(** What a method of the entity does to its collaborators: calls on the
    ball it holds a reference to, UI messages, and the ['golf-shot']
    event it emits.  Balls are named by their address in the store. *)
Inductive Out : Type :=
| BallHit (ball : nat) (direction : Vector3) (force : Q)
| BallResetToPosition (ball : nat) (p : Vector3)
| Ui (m : UiMessage)
| EmitGolfShot (shotCount : nat).

Record GolfPlayerEntity : Type := mkGolfer {
  player : string;         (* the id of the player the entity belongs to *)
  maxPower : Q;
  _currentPower : Q;
  _isCharging : bool;
  _isAiming : bool;
  _currentBall : option nat;
  _shotCount : nat;
  _isPlayerTurn : bool;
  world : bool;            (* [this.world] is defined: the entity is spawned *)
  position : Vector3
}.

(** [new GolfPlayerEntity({ player, maxPower })] *)
Definition new (player : string) (maxPower : Q) : GolfPlayerEntity :=
  {| player := player; maxPower := maxPower; _currentPower := 0; _isCharging := false;
     _isAiming := false; _currentBall := None; _shotCount := 0%nat;
     _isPlayerTurn := false; world := false; position := zeroVec |}.

Definition set_currentPower (p : Q) (e : GolfPlayerEntity) : GolfPlayerEntity :=
  {| player := player e; maxPower := maxPower e; _currentPower := p; _isCharging := _isCharging e;
     _isAiming := _isAiming e; _currentBall := _currentBall e;
     _shotCount := _shotCount e; _isPlayerTurn := _isPlayerTurn e;
     world := world e; position := position e |}.

Definition set_isCharging (c : bool) (e : GolfPlayerEntity) : GolfPlayerEntity :=
  {| player := player e; maxPower := maxPower e; _currentPower := _currentPower e; _isCharging := c;
     _isAiming := _isAiming e; _currentBall := _currentBall e;
     _shotCount := _shotCount e; _isPlayerTurn := _isPlayerTurn e;
     world := world e; position := position e |}.

Definition set_isAiming (a : bool) (e : GolfPlayerEntity) : GolfPlayerEntity :=
  {| player := player e; maxPower := maxPower e; _currentPower := _currentPower e;
     _isCharging := _isCharging e; _isAiming := a; _currentBall := _currentBall e;
     _shotCount := _shotCount e; _isPlayerTurn := _isPlayerTurn e;
     world := world e; position := position e |}.

Definition set_currentBall (b : option nat) (e : GolfPlayerEntity) : GolfPlayerEntity :=
  {| player := player e; maxPower := maxPower e; _currentPower := _currentPower e;
     _isCharging := _isCharging e; _isAiming := _isAiming e; _currentBall := b;
     _shotCount := _shotCount e; _isPlayerTurn := _isPlayerTurn e;
     world := world e; position := position e |}.

Definition set_shotCount (n : nat) (e : GolfPlayerEntity) : GolfPlayerEntity :=
  {| player := player e; maxPower := maxPower e; _currentPower := _currentPower e;
     _isCharging := _isCharging e; _isAiming := _isAiming e;
     _currentBall := _currentBall e; _shotCount := n;
     _isPlayerTurn := _isPlayerTurn e; world := world e; position := position e |}.

Definition set_isPlayerTurn (t : bool) (e : GolfPlayerEntity) : GolfPlayerEntity :=
  {| player := player e; maxPower := maxPower e; _currentPower := _currentPower e;
     _isCharging := _isCharging e; _isAiming := _isAiming e;
     _currentBall := _currentBall e; _shotCount := _shotCount e;
     _isPlayerTurn := t; world := world e; position := position e |}.

Definition set_world (s : bool) (p : Vector3) (e : GolfPlayerEntity) : GolfPlayerEntity :=
  {| player := player e; maxPower := maxPower e; _currentPower := _currentPower e;
     _isCharging := _isCharging e; _isAiming := _isAiming e;
     _currentBall := _currentBall e; _shotCount := _shotCount e;
     _isPlayerTurn := _isPlayerTurn e; world := s; position := p |}.

(** Methods are state transformers that also say what they sent out. *)
Definition Method : Type := GolfPlayerEntity -> GolfPlayerEntity * list Out.

Definition skip : Method := fun e => (e, []).

Definition andThen (m1 m2 : Method) : Method :=
  fun e => let '(e1, o1) := m1 e in
           let '(e2, o2) := m2 e1 in (e2, o1 ++ o2).

Definition modify (f : GolfPlayerEntity -> GolfPlayerEntity) : Method :=
  fun e => (f e, []).

Definition send (o : GolfPlayerEntity -> Out) : Method :=
  fun e => (e, [o e]).

Definition when (c : GolfPlayerEntity -> bool) (m : Method) : Method :=
  fun e => if c e then m e else skip e.

Declare Scope method_scope.
Delimit Scope method_scope with method.
Bind Scope method_scope with Method.
Notation "m1 ;; m2" := (andThen m1 m2)
  (at level 100, m2 at level 200, right associativity) : method_scope.
Local Open Scope method_scope.

(** [setGolfBall(ball)] *)
Definition setGolfBall (ball : nat) : Method :=
  modify (set_currentBall (Some ball)).

(** [_startAiming()] *)
Definition _startAiming : Method :=
  fun e =>
    match _currentBall e with
    | None => skip e
    | Some _ =>
        (modify (set_isAiming true) ;;
         send (fun _ => Ui (GolfAiming true))) e
    end.

(** [_stopAiming()] *)
Definition _stopAiming : Method :=
  modify (set_isAiming false) ;; send (fun _ => Ui (GolfAiming false)).

(** [_toggleAiming()] *)
Definition _toggleAiming : Method :=
  fun e => if _isAiming e then _stopAiming e else _startAiming e.

(** [startTurn()] *)
Definition startTurn : Method :=
  modify (set_isPlayerTurn true) ;;
  modify (set_shotCount 0) ;;
  send (fun e => Ui (GolfTurnStart (_shotCount e))) ;;
  _startAiming.

(** [endTurn()] *)
Definition endTurn : Method :=
  modify (set_isPlayerTurn false) ;;
  modify (set_isAiming false) ;;
  modify (set_isCharging false) ;;
  modify (set_currentPower 0) ;;
  send (fun e => Ui (GolfTurnEnd (_shotCount e))).

(** [getScore()] and [isPlayerTurn()] *)
Definition getScore (e : GolfPlayerEntity) : nat := _shotCount e.
Definition isPlayerTurn (e : GolfPlayerEntity) : bool := _isPlayerTurn e.

(** [spawn(world, position)]; [_setupGolfUI] sends the initial UI data. *)
Definition spawn (p : Vector3) : Method :=
  modify (set_world true p) ;;
  send (fun e => Ui (GolfInit (maxPower e) (_isPlayerTurn e) (_shotCount e))).

(** [despawn()] *)
Definition despawn : Method :=
  modify (fun e => set_world false (position e) e).

(** [_startCharging()] *)
Definition _startCharging : Method :=
  modify (set_isCharging true) ;; modify (set_currentPower 0).

(** [_updatePower()].  The sum and the quotient are exact here;
    [Meter64._updatePower] is the same step on doubles. *)
Definition powerIncrement (e : GolfPlayerEntity) : Q :=
  maxPower e / ((60 * 2)%Z # 1).

Definition _updatePower : Method :=
  fun e =>
    if negb (_isCharging e) then skip e
    else
      (modify (fun e => set_currentPower
                          (Qmin (_currentPower e + powerIncrement e) (maxPower e)) e) ;;
       send (fun e => Ui (GolfPowerMeter (_currentPower e) (maxPower e) true))) e.

(** [this._shotCount++]; the manager does the same from outside for a
    water penalty. *)
Definition incrementShotCount : Method :=
  modify (fun e => set_shotCount (S (_shotCount e)) e).

(** The force a shot is hit with: [(currentPower / maxPower) * 50], as
    an exact quotient; [Meter64.shotForce] is the same expression on
    doubles.  For [maxPower = 0] the quotient is [0] here and [NaN] in the
    program: what is proved of the force assumes [0 < maxPower]. *)
Definition shotForce (e : GolfPlayerEntity) : Q :=
  (_currentPower e / maxPower e) * 50.

(** [_executeShot()]; [aimDirection] is [player.camera.facingDirection],
    read from the engine at the time of the call. *)
Definition _executeShot (aimDirection : Vector3) : Method :=
  fun e =>
    match _isCharging e, _currentBall e, world e with
    | true, Some ball, true =>
        let force := shotForce e in
        (modify (set_isCharging false) ;;
         send (fun _ => BallHit ball aimDirection force) ;;
         incrementShotCount ;;
         send (fun e => Ui (GolfShotExecuted (_currentPower e) force
                              aimDirection (_shotCount e))) ;;
         send (fun e => Ui (GolfPowerMeter 0 (maxPower e) false)) ;;
         modify (set_currentPower 0) ;;
         _stopAiming ;;
         send (fun e => EmitGolfShot (_shotCount e))) e
    | _, _, _ => skip e
    end.

(** [_resetBall()] *)
Definition _resetBall : Method :=
  fun e =>
    match _currentBall e with
    | None => skip e
    | Some ball =>
        let resetPosition :=
          {| vx := vx (position e); vy := vy (position e) + 1;
             vz := vz (position e) |} in
        (send (fun _ => BallResetToPosition ball resetPosition) ;;
         send (fun _ => Ui GolfMessageBallReset)) e
    end.

(** The keys the handler looks at. *)
Record Input : Type := mkInput { sp : bool; f : bool; r : bool }.

(** The listener that [_setupGolfControls] installs on
    [TICK_WITH_PLAYER_INPUT]. *)
Definition onTickWithPlayerInput (input : Input) (facing : Vector3) : Method :=
  fun e =>
    if negb (_isPlayerTurn e) then skip e
    else
      ((fun e =>
          if sp input && negb (_isCharging e) && _isAiming e
          then _startCharging e
          else if negb (sp input) && _isCharging e
               then _executeShot facing e
               else skip e) ;;
       when _isCharging _updatePower ;;
       when (fun e => f input && _isPlayerTurn e) _toggleAiming ;;
       when (fun e => r input && _isPlayerTurn e
                      && bool_decide (is_Some (_currentBall e)))
            _resetBall) e.

(** How many shots a list of outputs contains. *)
Definition isBallHit (o : Out) : bool :=
  match o with BallHit _ _ _ => true | _ => false end.

Definition shotsIn (outs : list Out) : nat := length (filter isBallHit outs).

(** What can happen to a player entity after its construction: the calls
    the server and the manager make on it, and the controller's ticks. *)
Inductive Op : Type :=
| OpSpawn (p : Vector3)
| OpDespawn
| OpSetGolfBall (ball : nat)
| OpStartTurn
| OpEndTurn
| OpTick (input : Input) (facing : Vector3)
| OpPenalty.

Definition perform (op : Op) : Method :=
  match op with
  | OpSpawn p => spawn p
  | OpDespawn => despawn
  | OpSetGolfBall ball => setGolfBall ball
  | OpStartTurn => startTurn
  | OpEndTurn => endTurn
  | OpTick input facing => onTickWithPlayerInput input facing
  | OpPenalty => incrementShotCount
  end.

Definition performAll (ops : list Op) : Method :=
  foldr (fun op rest => perform op ;; rest) skip ops.

Definition isStartTurn (op : Op) : bool :=
  match op with OpStartTurn => true | _ => false end.

Definition isPenalty (op : Op) : bool :=
  match op with OpPenalty => true | _ => false end.

Definition penaltiesIn (ops : list Op) : nat := length (filter isPenalty ops).

(** The bounds the power meter is meant to stay within. *)
Definition powerInBounds (e : GolfPlayerEntity) : Prop :=
  (0 <= _currentPower e)%Q /\ (_currentPower e <= maxPower e)%Q.

(** Properties of the state that a method keeps. *)
Definition Keeps (I : GolfPlayerEntity -> Prop) (m : Method) : Prop :=
  forall e, I e -> I (m e).1.

(** The invariant of the power meter, for a given [maxPower]. *)
Definition meterOk (maxP : Q) (e : GolfPlayerEntity) : Prop :=
  maxPower e = maxP /\ powerInBounds e.

(** The ball a tick shoots, if it shoots: the charge key is up while the
    entity is charging on its turn, in a world, with a ball assigned. *)
Definition shotTaken (input : Input) (e : GolfPlayerEntity) : option nat :=
  if _isPlayerTurn e && negb (sp input) && _isCharging e && world e
  then _currentBall e
  else None.

End Golfer.

(** ** Course building ([index.ts]) *)

Module Course.

(** A block coordinate of the voxel lattice. *)
Record BlockPos : Type := mkPos { bx : Z; by_ : Z; bz : Z }.

#[global] Instance BlockPos_eq_dec : EqDecision BlockPos.
Proof. solve_decision. Defined.

Definition key (p : BlockPos) : Z * Z * Z := (bx p, by_ p, bz p).

(** [world.chunkLattice]: which block id sits at which coordinate. *)
Abbreviation ChunkLattice := (gmap (Z * Z * Z) Z).

(** [world.chunkLattice.setBlock(pos, blockId)] *)
Definition setBlock (lattice : ChunkLattice) (call : BlockPos * Z) : ChunkLattice :=
  <[key call.1 := call.2]> lattice.

(** [for (let i = lo; i <= hi; i++) body(i)], collecting what the body does. *)
Definition forRange {A} (lo hi : Z) (body : Z -> list A) : list A :=
  flat_map body (seqZ lo (hi - lo + 1)).

(** The [setBlock] calls of [buildRectangle], in the order they are made. *)
Definition rectangleCalls (corner1 corner2 : BlockPos) (blockId : Z)
  : list (BlockPos * Z) :=
  let minX := Z.min (bx corner1) (bx corner2) in
  let maxX := Z.max (bx corner1) (bx corner2) in
  let minY := Z.min (by_ corner1) (by_ corner2) in
  let maxY := Z.max (by_ corner1) (by_ corner2) in
  let minZ := Z.min (bz corner1) (bz corner2) in
  let maxZ := Z.max (bz corner1) (bz corner2) in
  forRange minX maxX (fun x =>
    forRange minY maxY (fun y =>
      forRange minZ maxZ (fun z =>
        [(mkPos x y z, blockId)]))).

Definition buildRectangle (world : ChunkLattice) (corner1 corner2 : BlockPos)
  (blockId : Z) : ChunkLattice :=
  foldl setBlock world (rectangleCalls corner1 corner2 blockId).

(** [Math.sqrt(dx ** 2 + dz ** 2) <= radius] on integers: a square root is
    never negative, and it is at most a non-negative [radius] exactly when
    its argument is at most [radius * radius]. *)
Definition withinRadius (dx dz radius : Z) : bool :=
  (0 <=? radius)%Z && (dx * dx + dz * dz <=? radius * radius)%Z.

(** The [setBlock] calls of [buildCircle]. *)
Definition circleCalls (center : BlockPos) (radius : Z) (blockId : Z)
  : list (BlockPos * Z) :=
  forRange (bx center - radius) (bx center + radius) (fun x =>
    forRange (bz center - radius) (bz center + radius) (fun z =>
      if withinRadius (x - bx center) (z - bz center) radius
      then [(mkPos x (by_ center) z, blockId)]
      else [])).

Definition buildCircle (world : ChunkLattice) (center : BlockPos)
  (radius : Z) (blockId : Z) : ChunkLattice :=
  foldl setBlock world (circleCalls center radius blockId).

(** The two point sets the helpers are meant to cover. *)
Definition inBox (corner1 corner2 p : BlockPos) : Prop :=
  (Z.min (bx corner1) (bx corner2) <= bx p <= Z.max (bx corner1) (bx corner2))%Z
  /\ (Z.min (by_ corner1) (by_ corner2) <= by_ p <= Z.max (by_ corner1) (by_ corner2))%Z
  /\ (Z.min (bz corner1) (bz corner2) <= bz p <= Z.max (bz corner1) (bz corner2))%Z.

Definition inDisc (center : BlockPos) (radius : Z) (p : BlockPos) : Prop :=
  by_ p = by_ center
  /\ (bx center - radius <= bx p <= bx center + radius)%Z
  /\ (bz center - radius <= bz p <= bz center + radius)%Z
  /\ ((bx p - bx center) * (bx p - bx center)
      + (bz p - bz center) * (bz p - bz center) <= radius * radius)%Z.

#[global] Instance inBox_dec c1 c2 p : Decision (inBox c1 c2 p).
Proof. unfold inBox. apply _. Defined.

#[global] Instance inDisc_dec c r p : Decision (inDisc c r p).
Proof. unfold inDisc. apply _. Defined.

End Course.

(** ** GolfGameManager *)

Module Manager.

Record Player : Type := mkPlayer { id : string; username : string }.

Record GolfHole : Type := mkHole {
  hole_id : nat;
  name : string;
  par : nat;
  teePosition : Vector3;
  holePosition : Vector3;
  holeRadius : Q
}.

(** [PlayerScore].  [golfEntity] is a reference: the address of the player
    entity in the store.  [strokes] is a JavaScript array that is written
    by index, so it may have holes. *)
Record PlayerScore : Type := mkScore {
  player : Player;
  golfEntity : nat;
  strokes : list (option nat);
  totalStrokes : nat;
  currentHole : nat
}.

(** [_currentPlayerIndex] is a JavaScript number.  The code only ever
    assigns it [0] or [(i + 1) % size], so it is a natural number, or
    [NaN] once the remainder by an empty roster has been taken. *)
Inductive JsIndex : Type := Idx (i : nat) | NaN.

(** [(i + 1) % size] *)
Definition nextIndex (i : JsIndex) (size : nat) : JsIndex :=
  match i with
  | Idx k => if (size =? 0)%nat then NaN else Idx ((k + 1) mod size)
  | NaN => NaN
  end.

(** [array[i]] *)
Definition jsGet {A} (l : list A) (i : JsIndex) : option A :=
  match i with
  | Idx k => l !! k
  | NaN => None
  end.

(** [array[i] = v]: JavaScript extends the array, leaving holes. *)
Definition jsSet {A} (i : nat) (v : A) (l : list (option A)) : list (option A) :=
  if (i <? length l)%nat then <[i := Some v]> l
  else l ++ replicate (i - length l) None ++ [Some v].

(** The sum of the entries that have been written. *)
Definition sumStrokes (l : list (option nat)) : nat :=
  foldr (fun o acc => (default 0 o + acc)%nat) 0%nat l.

(** The manager.  [_players] is a [Map] keyed by [player.id]; it is kept
    as the list of its values in insertion order, which is the order
    [Array.from(this._players.values())] and [forEach] see. *)
Record GolfGameManager : Type := mkManager {
  _players : list PlayerScore;
  _currentPlayerIndex : JsIndex;
  _currentHole : nat;
  _gameInProgress : bool;
  _holes : list GolfHole;
  _golfBall : option nat
}.

Definition set_players (ps : list PlayerScore) (m : GolfGameManager) : GolfGameManager :=
  {| _players := ps; _currentPlayerIndex := _currentPlayerIndex m;
     _currentHole := _currentHole m; _gameInProgress := _gameInProgress m;
     _holes := _holes m; _golfBall := _golfBall m |}.

Definition set_currentPlayerIndex (i : JsIndex) (m : GolfGameManager) : GolfGameManager :=
  {| _players := _players m; _currentPlayerIndex := i;
     _currentHole := _currentHole m; _gameInProgress := _gameInProgress m;
     _holes := _holes m; _golfBall := _golfBall m |}.

Definition set_currentHole (h : nat) (m : GolfGameManager) : GolfGameManager :=
  {| _players := _players m; _currentPlayerIndex := _currentPlayerIndex m;
     _currentHole := h; _gameInProgress := _gameInProgress m;
     _holes := _holes m; _golfBall := _golfBall m |}.

Definition set_gameInProgress (g : bool) (m : GolfGameManager) : GolfGameManager :=
  {| _players := _players m; _currentPlayerIndex := _currentPlayerIndex m;
     _currentHole := _currentHole m; _gameInProgress := g;
     _holes := _holes m; _golfBall := _golfBall m |}.

Definition set_golfBall (b : option nat) (m : GolfGameManager) : GolfGameManager :=
  {| _players := _players m; _currentPlayerIndex := _currentPlayerIndex m;
     _currentHole := _currentHole m; _gameInProgress := _gameInProgress m;
     _holes := _holes m; _golfBall := b |}.

(** [Map.prototype.set]: an existing key keeps its place. *)
Fixpoint mapSet (ps : list PlayerScore) (s : PlayerScore) : list PlayerScore :=
  match ps with
  | [] => [s]
  | p :: rest =>
      if String.eqb (id (player p)) (id (player s)) then s :: rest
      else p :: mapSet rest s
  end.

(** [Map.prototype.delete] *)
Definition mapDelete (ps : list PlayerScore) (key : string) : list PlayerScore :=
  filter (fun p => id (player p) ≠ key) ps.

(** [_setupDefaultCourse()] *)
Definition defaultCourse : list GolfHole :=
  [ {| hole_id := 1; name := "Starter Hole"; par := 3;
       teePosition := mkVec (-10) 2 0; holePosition := mkVec 10 2 0;
       holeRadius := 1 # 2 |};
    {| hole_id := 2; name := "Dogleg Right"; par := 4;
       teePosition := mkVec (-15) 2 10; holePosition := mkVec 15 2 (-5);
       holeRadius := 1 # 2 |};
    {| hole_id := 3; name := "Long Drive"; par := 5;
       teePosition := mkVec 0 2 (-20); holePosition := mkVec 0 2 25;
       holeRadius := 1 # 2 |} ].

(** [new GolfGameManager(world)] *)
Definition new : GolfGameManager :=
  {| _players := []; _currentPlayerIndex := Idx 0; _currentHole := 0%nat;
     _gameInProgress := false; _holes := defaultCourse; _golfBall := None |}.

(** [Array.prototype.sort((a, b) => key(a) - key(b))]: the sort is stable,
    so it is the insertion of each element before the first one of the
    already sorted rest that is not smaller. *)
Fixpoint insertBy {A} (key : A -> nat) (x : A) (l : list A) : list A :=
  match l with
  | [] => [x]
  | y :: rest =>
      if (key x <=? key y)%nat then x :: y :: rest
      else y :: insertBy key x rest
  end.

Fixpoint sortBy {A} (key : A -> nat) (l : list A) : list A :=
  match l with
  | [] => []
  | x :: rest => insertBy key x (sortBy key rest)
  end.

(** [_getCurrentPlayer()] *)
Definition _getCurrentPlayer (m : GolfGameManager) : option PlayerScore :=
  jsGet (_players m) (_currentPlayerIndex m).

(** An entry of the live leaderboard. *)
Record LeaderboardEntry : Type := mkEntry {
  playerName : string;
  entryTotalStrokes : nat;
  entryCurrentHole : nat;
  entryStrokes : list (option nat)
}.

(** [_calculateCurrentLeaderboard()] *)
Definition _calculateCurrentLeaderboard (m : GolfGameManager) : list LeaderboardEntry :=
  sortBy entryTotalStrokes
    (map (fun playerScore =>
            {| playerName := username (player playerScore);
               entryTotalStrokes := totalStrokes playerScore;
               entryCurrentHole := (_currentHole m + 1)%nat;
               entryStrokes := strokes playerScore |})
         (_players m)).

(** [_calculateFinalScores()] *)
Definition _calculateFinalScores (m : GolfGameManager) : list PlayerScore :=
  sortBy totalStrokes (_players m).

(** [getGameState()] *)
Record GameState : Type := mkGameState {
  inProgress : bool;
  stateCurrentHole : nat;
  totalHoles : nat;
  currentPlayer : option string;
  leaderboard : list LeaderboardEntry
}.

Definition getGameState (m : GolfGameManager) : GameState :=
  {| inProgress := _gameInProgress m;
     stateCurrentHole := (_currentHole m + 1)%nat;
     totalHoles := length (_holes m);
     currentPlayer := (fun s => username (player s)) <$> _getCurrentPlayer m;
     leaderboard := _calculateCurrentLeaderboard m |}.

(** Messages the manager sends to the players' UIs. *)
Inductive UiMessage : Type :=
| GolfGameStateMsg (state : GameState) (isYourTurn : bool)
| GolfHoleStart (holeNumber : nat) (hole : GolfHole)
| GolfHoleComplete (playerName : string) (strokes par : nat)
    (scoreType : string) (holeNumber : nat)
| GolfPenalty
| GolfGameEnd (winner : string)
    (finalScores : list (string * nat * list (option nat))).

(** Callbacks handed to [setTimeout]. *)
Inductive Timer : Type :=
| RetryNextPlayerTurn   (* [() => this._nextPlayerTurn()], 100 ms *)
| StartNextHole         (* [() => this._startHole(this._currentHole + 1)], 3000 ms *)
| AfterShot.            (* the ['golf-shot'] listener's check, 1000 ms *)

Definition delay (t : Timer) : nat :=
  match t with
  | RetryNextPlayerTurn => 100
  | StartNextHole => 3000
  | AfterShot => 1000
  end.

(** What the outside sees of a run. *)
Inductive Effect : Type :=
| GolferUi (golfer : nat) (m : Golfer.UiMessage)
| Engine (ball : nat) (call : Ball.EngineCall)
| SendData (to : string) (m : UiMessage)
| SetTimeout (t : Timer) (ms : nat).

(** The store the manager and the entities live in. *)
Record World : Type := mkWorld {
  manager : GolfGameManager;
  golfers : nat -> Golfer.GolfPlayerEntity;
  nextGolfer : nat;             (* the address [new GolfPlayerEntity()] returns next *)
  shotListeners : nat -> nat;   (* ['golf-shot'] listeners per player entity *)
  balls : nat -> Ball.GolfBallEntity;
  nextBall : nat;               (* the address [new GolfBallEntity()] returns next *)
  timers : list Timer;          (* callbacks waiting to run *)
  trace : list Effect
}.

Definition set_manager (m : GolfGameManager) (w : World) : World :=
  {| manager := m; golfers := golfers w; nextGolfer := nextGolfer w;
     shotListeners := shotListeners w;
     balls := balls w; nextBall := nextBall w; timers := timers w;
     trace := trace w |}.

Definition set_golfers (g : nat -> Golfer.GolfPlayerEntity) (w : World) : World :=
  {| manager := manager w; golfers := g; nextGolfer := nextGolfer w;
     shotListeners := shotListeners w;
     balls := balls w; nextBall := nextBall w; timers := timers w;
     trace := trace w |}.

Definition set_nextGolfer (n : nat) (w : World) : World :=
  {| manager := manager w; golfers := golfers w; nextGolfer := n;
     shotListeners := shotListeners w;
     balls := balls w; nextBall := nextBall w; timers := timers w;
     trace := trace w |}.

Definition set_shotListeners (l : nat -> nat) (w : World) : World :=
  {| manager := manager w; golfers := golfers w; nextGolfer := nextGolfer w;
     shotListeners := l;
     balls := balls w; nextBall := nextBall w; timers := timers w;
     trace := trace w |}.

Definition set_balls (b : nat -> Ball.GolfBallEntity) (w : World) : World :=
  {| manager := manager w; golfers := golfers w; nextGolfer := nextGolfer w;
     shotListeners := shotListeners w;
     balls := b; nextBall := nextBall w; timers := timers w; trace := trace w |}.

Definition set_nextBall (n : nat) (w : World) : World :=
  {| manager := manager w; golfers := golfers w; nextGolfer := nextGolfer w;
     shotListeners := shotListeners w;
     balls := balls w; nextBall := n; timers := timers w; trace := trace w |}.

Definition set_timers (t : list Timer) (w : World) : World :=
  {| manager := manager w; golfers := golfers w; nextGolfer := nextGolfer w;
     shotListeners := shotListeners w;
     balls := balls w; nextBall := nextBall w; timers := t; trace := trace w |}.

Definition emit (es : list Effect) (w : World) : World :=
  {| manager := manager w; golfers := golfers w; nextGolfer := nextGolfer w;
     shotListeners := shotListeners w;
     balls := balls w; nextBall := nextBall w; timers := timers w;
     trace := trace w ++ es |}.

Definition updManager (f : GolfGameManager -> GolfGameManager) (w : World) : World :=
  set_manager (f (manager w)) w.

(** [setTimeout(callback, ms)] *)
Definition setTimeout (t : Timer) (w : World) : World :=
  emit [SetTimeout t (delay t)] (set_timers (timers w ++ [t]) w).

(** A method call on the ball at address [b]. *)
Definition callBall (b : nat)
  (m : Ball.GolfBallEntity -> Ball.GolfBallEntity * list Ball.EngineCall)
  (w : World) : World :=
  let '(ball', calls) := m (balls w b) in
  emit (map (Engine b) calls) (set_balls (<[b := ball']> (balls w)) w).

(** What becomes of one thing a player entity sent out. *)
Definition deliver (g : nat) (o : Golfer.Out) (w : World) : World :=
  match o with
  | Golfer.BallHit b direction force => callBall b (Ball.hit direction force) w
  | Golfer.BallResetToPosition b p => callBall b (Ball.resetToPosition p) w
  | Golfer.Ui m => emit [GolferUi g m] w
  | Golfer.EmitGolfShot _ =>
      (* every listener installed by [_setupPlayerEvents] arms its timer *)
      foldr (fun _ => setTimeout AfterShot) w (replicate (shotListeners w g) tt)
  end.

(** A method call on the player entity at address [g]. *)
Definition callGolfer (g : nat) (m : Golfer.Method) (w : World) : World :=
  let '(e', outs) := m (golfers w g) in
  foldl (fun w o => deliver g o w) (set_golfers (<[g := e']> (golfers w)) w) outs.

(** [this._players.forEach(f)] *)
Definition forEachPlayer (f : nat -> PlayerScore -> World -> World) (w : World) : World :=
  foldl (fun w '(i, s) => f i s w) w (imap pair (_players (manager w))).

(** [_broadcastGameState()] *)
Definition _broadcastGameState (w : World) : World :=
  let m := manager w in
  let gameState := getGameState m in
  forEachPlayer (fun _ playerScore =>
    emit [SendData (id (player playerScore))
            (GolfGameStateMsg gameState
               (bool_decide ((fun s => id (player s)) <$> _getCurrentPlayer m
                             = Some (id (player playerScore)))))]) w.

(** *** Exceptions *)

Inductive Exn : Type := TypeError (message : string).

(** A call either returns or throws; either way it leaves a store. *)
Inductive Res : Type :=
| Done (w : World)
| Threw (e : Exn) (w : World).

Definition stateOf (r : Res) : World :=
  match r with Done w => w | Threw _ w => w end.

Definition returns (r : Res) : bool :=
  match r with Done _ => true | Threw _ _ => false end.

Definition thrown (r : Res) : option Exn :=
  match r with Done _ => None | Threw e _ => Some e end.

(** Statements in sequence: what follows a throw does not run. *)
Definition seqRes (r : Res) (k : World -> Res) : Res :=
  match r with
  | Done w => k w
  | Threw e w => Threw e w
  end.

(** *** Methods *)

(** [addPlayer(player, golfEntity)] *)
Definition addPlayer (p : Player) (golfEntity : nat) (w : World) : World :=
  let playerScore :=
    {| player := p; golfEntity := golfEntity; strokes := [];
       totalStrokes := 0; currentHole := 0 |} in
  let w := updManager (fun m => set_players (mapSet (_players m) playerScore) m) w in
  (* [_setupPlayerEvents]: one more ['golf-shot'] listener on the entity *)
  let w := set_shotListeners
             (<[golfEntity := S (shotListeners w golfEntity)]> (shotListeners w)) w in
  _broadcastGameState w.

(** [_createGolfBall()] *)
Definition _createGolfBall (w : World) : World :=
  let w :=
    match _golfBall (manager w) with
    | Some old =>
        if Ball.isSpawned (balls w old) then callBall old Ball.despawn w else w
    | None => w
    end in
  let b := nextBall w in
  updManager (set_golfBall (Some b))
    (set_nextBall (S b) (set_balls (<[b := Ball.new]> (balls w)) w)).

(** [_startPlayerTurn()].  [playerScore !== currentPlayer] compares
    objects; the entries of the map are distinct objects, so it is a
    comparison of their places. *)
Definition _startPlayerTurn (w : World) : World :=
  match _currentPlayerIndex (manager w), _getCurrentPlayer (manager w) with
  | Idx k, Some currentPlayer =>
      let w :=
        forEachPlayer (fun i playerScore w =>
          if bool_decide (i ≠ k)
          then callGolfer (golfEntity playerScore) Golfer.endTurn w
          else w) w in
      let w :=
        match _golfBall (manager w) with
        | Some b => callGolfer (golfEntity currentPlayer) (Golfer.setGolfBall b) w
        | None => w
        end in
      let w := callGolfer (golfEntity currentPlayer) Golfer.startTurn w in
      _broadcastGameState w
  | _, _ => w
  end.

(** [this._golfBall?.isMoving()] *)
Definition ballIsMoving (w : World) : bool :=
  match _golfBall (manager w) with
  | Some b => Ball.isMoving (balls w b)
  | None => false
  end.

(** [_nextPlayerTurn()] *)
Definition _nextPlayerTurn (w : World) : World :=
  if ballIsMoving w then setTimeout RetryNextPlayerTurn w
  else
    let w :=
      updManager (fun m =>
        set_currentPlayerIndex
          (nextIndex (_currentPlayerIndex m) (length (_players m))) m) w in
    _startPlayerTurn w.

(** [removePlayer(player)] *)
Definition removePlayer (p : Player) (w : World) : World :=
  let w := updManager (fun m => set_players (mapDelete (_players m) (id p)) m) w in
  let w :=
    if _gameInProgress (manager w)
       && bool_decide ((fun s => id (player s)) <$> _getCurrentPlayer (manager w)
                       = Some (id p))
    then _nextPlayerTurn w
    else w in
  _broadcastGameState w.

(** [_startHole(holeIndex)].  Past the last hole the method calls
    [this._endGame()]; the class declares [endGame] and nothing named
    [_endGame], so the call is a call of [undefined]. *)
Definition _startHole (holeIndex : nat) (w : World) : Res :=
  if (length (_holes (manager w)) <=? holeIndex)%nat
  then Threw (TypeError "this._endGame is not a function") w
  else
    match _holes (manager w) !! holeIndex with
    | None => Threw (TypeError "hole is undefined") w
    | Some hole =>
        let w := updManager (set_currentHole holeIndex) w in
        let w :=
          match _golfBall (manager w) with
          | Some b => callBall b (Ball.spawn (teePosition hole)) w
          | None => w
          end in
        let w := updManager (set_currentPlayerIndex (Idx 0)) w in
        let w :=
          forEachPlayer (fun _ playerScore =>
            emit [SendData (id (player playerScore))
                    (GolfHoleStart (holeIndex + 1) hole)]) w in
        Done (_startPlayerTurn w)
    end.

(** [startGame()] *)
Definition startGame (w : World) : Res :=
  if (length (_players (manager w)) =? 0)%nat then Done w
  else
    let w := updManager (set_gameInProgress true) w in
    let w := updManager (set_currentHole 0) w in
    let w := updManager (set_currentPlayerIndex (Idx 0)) w in
    let w :=
      updManager (fun m =>
        set_players
          (map (fun playerScore =>
                  {| player := player playerScore;
                     golfEntity := golfEntity playerScore;
                     strokes := []; totalStrokes := 0; currentHole := 0 |})
               (_players m)) m) w in
    let w := _createGolfBall w in
    seqRes (_startHole 0 w) (fun w => Done (_broadcastGameState w)).

(** [endGame()] *)
Definition endGame (w : World) : Res :=
  if negb (_gameInProgress (manager w)) then Done w
  else
    let w := updManager (set_gameInProgress false) w in
    let w :=
      match _getCurrentPlayer (manager w) with
      | Some currentPlayer => callGolfer (golfEntity currentPlayer) Golfer.endTurn w
      | None => w
      end in
    let finalScores := _calculateFinalScores (manager w) in
    match finalScores with
    | [] =>
        (* nobody to notify; [winner.player] is then read off [undefined] *)
        Threw (TypeError "winner is undefined") w
    | winner :: _ =>
        Done
          (forEachPlayer (fun _ playerScore =>
             emit [SendData (id (player playerScore))
                     (GolfGameEnd (username (player winner))
                        (map (fun score => (username (player score),
                                            totalStrokes score, strokes score))
                             finalScores))]) w)
    end.

(** The classification of a score against par in [_handleBallInHole]. *)
Definition scoreTypeOf (strokes par : nat) : string :=
  if (strokes =? 1)%nat then "hole-in-one"
  else if (strokes <? par)%nat then
    let under := (par - strokes)%nat in
    if (under =? 1)%nat then "birdie"
    else if (under =? 2)%nat then "eagle" else "albatross"
  else if (par <? strokes)%nat then
    let over := (strokes - par)%nat in
    if (over =? 1)%nat then "bogey"
    else if (over =? 2)%nat then "double-bogey" else "triple-bogey+"
  else "par".

(** [_handleBallInHole()] *)
Definition _handleBallInHole (w : World) : Res :=
  if negb (_gameInProgress (manager w)) then Done w
  else
    match _currentPlayerIndex (manager w), _getCurrentPlayer (manager w) with
    | Idx k, Some currentPlayer =>
        let hole := _holes (manager w) !! _currentHole (manager w) in
        let strokes := Golfer.getScore (golfers w (golfEntity currentPlayer)) in
        (* record score *)
        let recorded :=
          {| player := player currentPlayer;
             golfEntity := golfEntity currentPlayer;
             strokes := jsSet (_currentHole (manager w)) strokes
                          (Manager.strokes currentPlayer);
             totalStrokes := (totalStrokes currentPlayer + strokes)%nat;
             currentHole := currentHole currentPlayer |} in
        let w := updManager (fun m => set_players (<[k := recorded]> (_players m)) m) w in
        match hole with
        | None => Threw (TypeError "hole is undefined") w
        | Some hole =>
            let w :=
              forEachPlayer (fun _ playerScore =>
                emit [SendData (id (player playerScore))
                        (GolfHoleComplete (username (player currentPlayer))
                           strokes (par hole) (scoreTypeOf strokes (par hole))
                           (_currentHole (manager w) + 1))]) w in
            Done (setTimeout StartNextHole w)
        end
    | _, _ => Done w
    end.

(** [_handleWaterHazard()] *)
Definition _handleWaterHazard (w : World) : Res :=
  match _getCurrentPlayer (manager w) with
  | None => Done w
  | Some currentPlayer =>
      (* [currentPlayer.golfEntity['_shotCount']++] *)
      let w :=
        callGolfer (golfEntity currentPlayer) Golfer.incrementShotCount w in
      let hole := _holes (manager w) !! _currentHole (manager w) in
      let r :=
        match _golfBall (manager w) with
        | Some b =>
            match hole with
            | Some hole => Done (callBall b (Ball.resetToPosition (teePosition hole)) w)
            | None => Threw (TypeError "hole is undefined") w
            end
        | None => Done w
        end in
      seqRes r (fun w =>
        Done (emit [SendData (id (player currentPlayer)) GolfPenalty] w))
  end.

(** What a timer does when it runs. *)
Definition fire (t : Timer) (w : World) : Res :=
  match t with
  | RetryNextPlayerTurn => Done (_nextPlayerTurn w)
  | StartNextHole => _startHole (_currentHole (manager w) + 1) w
  | AfterShot => if negb (ballIsMoving w) then Done (_nextPlayerTurn w) else Done w
  end.

(** *** Vocabulary for the properties *)

(** The player entities registered with the manager. *)
Definition registered (m : GolfGameManager) : list nat :=
  map golfEntity (_players m).

(** [golfEntity.isPlayerTurn()] for the entity at address [g]. *)
Definition hasTurn (w : World) (g : nat) : bool :=
  Golfer.isPlayerTurn (golfers w g).

(** At most one registered player entity has an active turn. *)
Definition singleActiveTurn (w : World) : Prop :=
  Forall (fun g1 =>
    Forall (fun g2 => hasTurn w g1 = true -> hasTurn w g2 = true -> g1 = g2)
           (registered (manager w)))
    (registered (manager w)).

(** Two stores that differ at most in the player entities and the trace. *)
Definition sameButGolfers (w w' : World) : Prop :=
  manager w' = manager w /\ nextGolfer w' = nextGolfer w
  /\ shotListeners w' = shotListeners w /\ balls w' = balls w
  /\ nextBall w' = nextBall w /\ timers w' = timers w.

(** A method of the player entity that only talks to the UI. *)
Definition isUi (o : Golfer.Out) : bool :=
  match o with Golfer.Ui _ => true | _ => false end.

Definition uiOnly (m : Golfer.Method) : Prop :=
  forall e, forallb isUi (m e).2 = true.

(** Each player's total is the sum of the strokes recorded for them. *)
Definition totalsAddUp (m : GolfGameManager) : Prop :=
  Forall (fun s => totalStrokes s = sumStrokes (strokes s)) (_players m).

#[global] Instance singleActiveTurn_dec w : Decision (singleActiveTurn w).
Proof. unfold singleActiveTurn. apply _. Defined.

(** The body of the loop of [_startPlayerTurn] that ends the turns of the
    others, as a function of the place and the entry it visits. *)
Definition endOthers (k : nat) (w : World) (slot : nat * PlayerScore) : World :=
  let '(i, playerScore) := slot in
  if bool_decide (i ≠ k)
  then callGolfer (golfEntity playerScore) Golfer.endTurn w
  else w.

(** Is an effect the end-of-game message? *)
Definition isGameEnd (e : Effect) : bool :=
  match e with SendData _ (GolfGameEnd _ _) => true | _ => false end.

(** The course is the default one and the current hole is one of its
    holes. *)
Definition courseOk (m : GolfGameManager) : Prop :=
  _holes m = defaultCourse /\ _currentHole m < length (_holes m).

(** Two managers with the same course and the same current hole. *)
Definition sameCourse (m m' : GolfGameManager) : Prop :=
  _holes m' = _holes m /\ _currentHole m' = _currentHole m.

(** The order [sortBy key] sorts into. *)
Definition ascending {A} (key : A -> nat) : A -> A -> Prop :=
  fun a b => key a <= key b.

(** Is an effect the UI message of a shot executed by the entity [g]? *)
Definition isShotExecutedBy (g : nat) (e : Effect) : bool :=
  match e with
  | GolferUi g' (Golfer.GolfShotExecuted _ _ _ _) => (g' =? g)%nat
  | _ => false
  end.

(** The players the successive turn advances make current. *)
Definition turnsOf (n : nat) (w : World) : list (option PlayerScore) :=
  map (fun k => _getCurrentPlayer (manager (Nat.iter k _nextPlayerTurn w)))
      (seq 1 n).

End Manager.

(** ** The server ([index.ts]): how the engine's events reach the code *)

Module Server.
Import Manager.

Inductive Event : Type :=
| JoinedWorld (p : Player)                 (* [PlayerEvent.JOINED_WORLD] *)
| LeftWorld (p : Player)                   (* [PlayerEvent.LEFT_WORLD] *)
| StartGolf                                (* the [/startgolf] command *)
| EndGolf                                  (* the [/endgolf] command *)
| TickWithPlayerInput (golfer : nat) (input : Golfer.Input) (facing : Vector3)
| Collision (ball : nat) (other : Ball.Collider) (started : bool)
| Physics (ball : nat) (position velocity : Vector3)
                                           (* the engine moves the ball *)
| TimerFires (k : nat).                    (* the [k]-th waiting callback runs *)

(** The state the server starts in. *)
Definition initial : World :=
  {| manager := Manager.new;
     golfers := fun _ => Golfer.new "" 100;
     nextGolfer := 0;
     shotListeners := fun _ => 0%nat;
     balls := fun _ => Ball.new;
     nextBall := 0;
     timers := [];
     trace := [] |}.

(** The [JOINED_WORLD] handler: a new player entity is made, spawned
    behind the first tee and added to the game. *)
Definition onJoinedWorld (p : Player) (w : World) : World :=
  let g := nextGolfer w in
  let w := set_nextGolfer (S g)
             (set_golfers (<[g := Golfer.new (id p) 100]> (golfers w)) w) in
  let w := callGolfer g (Golfer.spawn (mkVec 0 3 (-30))) w in
  addPlayer p g w.

(** [world.entityManager.getPlayerEntitiesByPlayer(player)] *)
Definition getPlayerEntitiesByPlayer (p : Player) (w : World) : list nat :=
  filter (fun g => Golfer.world (golfers w g) = true
                   /\ Golfer.player (golfers w g) = id p)
         (seq 0 (nextGolfer w)).

(** The [LEFT_WORLD] handler. *)
Definition onLeftWorld (p : Player) (w : World) : World :=
  let w := removePlayer p w in
  foldl (fun w g => callGolfer g Golfer.despawn w) w
        (getPlayerEntitiesByPlayer p w).

(** The listeners [_createGolfBall] puts on the ball. *)
Definition onBallEvent (e : Ball.BallEvent) (w : World) : Res :=
  match e with
  | Ball.BallInHole => _handleBallInHole w
  | Ball.BallInWater => _handleWaterHazard w
  end.

Definition removeAt {A} (k : nat) (l : list A) : list A :=
  take k l ++ drop (S k) l.

(** One event.  The engine ticks and collides spawned entities only. *)
Definition step (ev : Event) (w : World) : Res :=
  match ev with
  | JoinedWorld p => Done (onJoinedWorld p w)
  | LeftWorld p => Done (onLeftWorld p w)
  | StartGolf => startGame w
  | EndGolf => endGame w
  | TickWithPlayerInput g input facing =>
      if (g <? nextGolfer w)%nat && Golfer.world (golfers w g)
      then Done (callGolfer g (Golfer.onTickWithPlayerInput input facing) w)
      else Done w
  | Collision b other started =>
      if (b <? nextBall w)%nat && Ball.isSpawned (balls w b)
      then foldl (fun r e => seqRes r (onBallEvent e)) (Done w)
                 (Ball._handleCollision other started)
      else Done w
  | Physics b position velocity =>
      if (b <? nextBall w)%nat && Ball.isSpawned (balls w b)
      then Done (set_balls
                   (<[b := Ball.setLinearVelocity velocity
                             (Ball.setPosition position (balls w b))]> (balls w)) w)
      else Done w
  | TimerFires k =>
      match timers w !! k with
      | Some t => fire t (set_timers (removeAt k (timers w)) w)
      | None => Done w
      end
  end.

(** A run of events; it stops at the first uncaught exception. *)
Definition run (evs : list Event) (w : World) : Res :=
  foldl (fun r ev => seqRes r (step ev)) (Done w) evs.

End Server.

(** ** Runs of the server used as examples *)

Module Scenarios.
Import Manager Server.

Definition alice : Player := mkPlayer "p1" "Alice".
Definition bob : Player := mkPlayer "p2" "Bob".

(** Space held, space up, and F pressed. *)
Definition press : Golfer.Input := Golfer.mkInput true false false.
Definition release : Golfer.Input := Golfer.mkInput false false false.
Definition pressF : Golfer.Input := Golfer.mkInput false true false.

Definition ahead : Vector3 := mkVec 1 0 0.

(** The entity named ['GolfHole'] that the ball collides with. *)
Definition theHole : Ball.Collider := Ball.mkCollider true false.

(** The first player's entity is at address [0], the ball of the first
    game at address [0]. *)
Definition oneShot : list Event :=
  [TickWithPlayerInput 0 press ahead; TickWithPlayerInput 0 release ahead].

(** A hole played by a single player: one shot, the ball drops, the
    listener's one-second timer runs, then the three-second timer. *)
Definition playHole : list Event :=
  oneShot ++ [Collision 0 theHole true; TimerFires 0; TimerFires 0].

(** A single player plays the three holes of the course. *)
Definition fullRound : list Event :=
  [JoinedWorld alice; StartGolf] ++ playHole ++ playHole ++ playHole.

(** The ball touches the hole twice before the three-second timer runs. *)
Definition doubleDrop : list Event :=
  [JoinedWorld alice; StartGolf] ++ oneShot
  ++ [Collision 0 theHole true; Collision 0 theHole true].

(** A lone player shoots twice within a second and leaves; the first
    timer runs on the empty roster; another player joins. *)
Definition emptiedRoster : list Event :=
  [JoinedWorld alice; StartGolf] ++ oneShot
  ++ [TickWithPlayerInput 0 pressF ahead] ++ oneShot
  ++ [LeftWorld alice; TimerFires 0; JoinedWorld bob].

(** Two players; the first takes two shots over two turns and holes out
    on the second of them. *)
Definition twoTurns : list Event :=
  [JoinedWorld alice; JoinedWorld bob; StartGolf]
  ++ oneShot ++ [TimerFires 0]                       (* Alice, then Bob's turn *)
  ++ [TickWithPlayerInput 1 press ahead; TickWithPlayerInput 1 release ahead;
      TimerFires 0]                                  (* Bob, then Alice's turn *)
  ++ oneShot ++ [Collision 0 theHole true].          (* Alice holes out *)

End Scenarios.

(** ** Vocabulary for the properties of the player entity *)

Module GolferState.
Import Golfer.

(** What the flags of an entity say about each other. *)
Definition coherent (e : GolfPlayerEntity) : Prop :=
  (_isCharging e = false -> _currentPower e = 0%Q)
  /\ (_isCharging e = true ->
      _isPlayerTurn e = true /\ is_Some (_currentBall e))
  /\ (_isAiming e = true ->
      _isPlayerTurn e = true /\ is_Some (_currentBall e)).

End GolferState.

(** ** The power meter in double precision *)

Module Meter64.

(** [Math.min(a, b)]: [NaN] if either is; of two zeros the negative one. *)
Definition jsMin (a b : float) : float :=
  if (PrimFloat.is_nan a || PrimFloat.is_nan b)%bool then PrimFloat.nan
  else if PrimFloat.ltb a b then a
  else if PrimFloat.ltb b a then b
  else if PrimFloat.get_sign a then a else b.

(** [this.maxPower / (60 * 2)] *)
Definition powerIncrement (maxPower : float) : float :=
  PrimFloat.div maxPower (PrimFloat.mul 60 2).

(** [_updatePower()] on a charging entity: the new [_currentPower]. *)
Definition _updatePower (maxPower currentPower : float) : float :=
  jsMin (PrimFloat.add currentPower (powerIncrement maxPower)) maxPower.

(** [(this._currentPower / this.maxPower) * 50], the force of
    [_executeShot]. *)
Definition shotForce (maxPower currentPower : float) : float :=
  PrimFloat.mul (PrimFloat.div currentPower maxPower) 50.

(** The power after [k] ticks in a row with the charge key held:
    [_startCharging] sets it to [0] on the first of them, and each of
    them, the first included, calls [_updatePower] once. *)
Definition charged (maxPower : float) (k : nat) : float :=
  Nat.iter k (_updatePower maxPower) 0%float.

(** What is checked of the meter at each of the first ticks. *)
Definition filling (maxPower : float) (k : nat) : bool :=
  PrimFloat.ltb (charged maxPower k) maxPower
  && PrimFloat.leb (charged maxPower k) maxPower
  && PrimFloat.leb 0 (charged maxPower k)
  && PrimFloat.ltb (charged maxPower k) (charged maxPower (S k))
  && PrimFloat.ltb (shotForce maxPower (charged maxPower k)) 50.

End Meter64.

(** ** The ball's constructor and [GolfBallFactory] *)

Module BallFactory.

(** A property of an options object: absent, present with the value
    [undefined], or present with a number. *)
Inductive Field : Type := Absent | Undefined | Given (q : Q).

(** The golf-specific part of [GolfBallEntityOptions]. *)
Record GolfBallEntityOptions : Type := mkOptions {
  ballRadius : Field;
  ballRestitution : Field;
  ballFriction : Field;
  ballMass : Field;
  gravityScale : Field
}.

(** [{}] *)
Definition empty : GolfBallEntityOptions :=
  mkOptions Absent Absent Absent Absent Absent.

(** [x ?? d] *)
Definition orDefault (x : Field) (d : Q) : Q :=
  match x with Given q => q | _ => d end.

(** What the constructor makes: the entity, and the gravity scale it hands
    to the engine with the rigid body. *)
Record Built : Type := mkBuilt {
  entity : Ball.GolfBallEntity;
  bodyGravityScale : Q
}.

(** [new GolfBallEntity(options)] *)
Definition construct (options : GolfBallEntityOptions) : Built :=
  {| entity :=
       {| Ball.ballRadius := orDefault (ballRadius options) (21 # 1000);
          Ball.ballRestitution := orDefault (ballRestitution options) (6 # 10);
          Ball.ballFriction := orDefault (ballFriction options) (3 # 10);
          Ball.ballMass := orDefault (ballMass options) (45 # 1000);
          Ball._isRolling := false;
          Ball.isSpawned := false;
          Ball.position := zeroVec;
          Ball.linearVelocity := zeroVec;
          Ball.angularVelocity := zeroVec |};
     bodyGravityScale := orDefault (gravityScale options) 1 |}.

(** [{ key: preset, ...options }.key]: a key that is present in [options],
    even with the value [undefined], replaces the preset. *)
Definition over (preset : Q) (x : Field) : Field :=
  match x with Absent => Given preset | _ => x end.

(** [{ ...options }] for an argument that may be missing. *)
Definition spread (options : option GolfBallEntityOptions) : GolfBallEntityOptions :=
  match options with Some o => o | None => empty end.

(** [GolfBallFactory.createStandardBall(options)] *)
Definition createStandardBall (options : option GolfBallEntityOptions) : Built :=
  let o := spread options in
  construct
    {| ballRadius := over (21 # 1000) (ballRadius o);
       ballRestitution := over (6 # 10) (ballRestitution o);
       ballFriction := over (3 # 10) (ballFriction o);
       ballMass := over (45 # 1000) (ballMass o);
       gravityScale := gravityScale o |}.

(** [GolfBallFactory.createRangeBall(options)] *)
Definition createRangeBall (options : option GolfBallEntityOptions) : Built :=
  let o := spread options in
  construct
    {| ballRadius := over (21 # 1000) (ballRadius o);
       ballRestitution := over (5 # 10) (ballRestitution o);
       ballFriction := over (4 # 10) (ballFriction o);
       ballMass := over (48 # 1000) (ballMass o);
       gravityScale := gravityScale o |}.

(** What a property of the options leaves of a preset, given the
    constructor's own default. *)
Definition resolved (preset default : Q) (x : Field) : Q :=
  match x with
  | Absent => preset
  | Undefined => default
  | Given q => q
  end.

End BallFactory.

(** ** Vocabulary for the properties of the roster *)

Module Roster.
Import Manager.

(** The keys of [_players], in insertion order. *)
Definition ids (ps : list PlayerScore) : list string :=
  map (fun s => id (player s)) ps.

(** [Map.prototype.get] *)
Definition get (key : string) (ps : list PlayerScore) : option PlayerScore :=
  List.find (fun s => String.eqb (id (player s)) key) ps.

(** The entry [addPlayer] makes. *)
Definition fresh (p : Player) (golfEntity : nat) : PlayerScore :=
  {| player := p; golfEntity := golfEntity; strokes := [];
     totalStrokes := 0; currentHole := 0 |}.

(** An entry with its scores reset, as [startGame] resets them. *)
Definition cleared (s : PlayerScore) : PlayerScore :=
  {| player := player s; golfEntity := golfEntity s; strokes := [];
     totalStrokes := 0; currentHole := 0 |}.

(** Is [k] the place [_currentPlayerIndex] points at? *)
Definition isAt (i : JsIndex) (k : nat) : bool :=
  match i with Idx j => (j =? k)%nat | NaN => false end.

(** The leaderboard entry [_calculateCurrentLeaderboard] makes of a
    player's score. *)
Definition entry (m : GolfGameManager) (playerScore : PlayerScore)
  : LeaderboardEntry :=
  {| playerName := username (player playerScore);
     entryTotalStrokes := totalStrokes playerScore;
     entryCurrentHole := (_currentHole m + 1)%nat;
     entryStrokes := strokes playerScore |}.

(** The entry [_handleBallInHole] leaves for a player who finished hole
    [hole] in [n] strokes. *)
Definition recorded (hole n : nat) (s : PlayerScore) : PlayerScore :=
  {| player := player s; golfEntity := golfEntity s;
     strokes := jsSet hole n (strokes s);
     totalStrokes := (totalStrokes s + n)%nat;
     currentHole := currentHole s |}.

(** The ways a roster changes. *)
Inductive changes (holes : nat) (ps : list PlayerScore)
  : list PlayerScore -> Prop :=
| unchanged : changes holes ps ps
| joined (p : Player) (golfEntity : nat) :
    changes holes ps (mapSet ps (fresh p golfEntity))
| left (key : string) : changes holes ps (mapDelete ps key)
| reset : changes holes ps (map cleared ps)
| holed (k : nat) (cur : PlayerScore) (hole n : nat) :
    ps !! k = Some cur -> hole < holes ->
    changes holes ps (<[k := recorded hole n cur]> ps).

(** The bookkeeping that holds of every entry of the roster. *)
Definition scoreOk (s : PlayerScore) : Prop :=
  sumStrokes (strokes s) <= totalStrokes s
  /\ length (strokes s) <= 3
  /\ currentHole s = 0.

End Roster.

(** ** Vocabulary for the properties of the states the server reaches *)

Module Reach.
Import Manager.

(** The two exceptions the manager's code can raise on its course. *)
Definition expected (e : option Exn) : Prop :=
  e = None
  \/ e = Some (TypeError "this._endGame is not a function")
  \/ e = Some (TypeError "winner is undefined").

(** Every ball that is in the world is the one the manager holds. *)
Definition ballsOk (w : World) : Prop :=
  forall b, Ball.isSpawned (balls w b) = true -> _golfBall (manager w) = Some b.

(** Two stores with the same manager's ball and the same balls in the
    world. *)
Definition sameBalls (w w' : World) : Prop :=
  _golfBall (manager w') = _golfBall (manager w)
  /\ forall b, Ball.isSpawned (balls w' b) = Ball.isSpawned (balls w b).

(** Every registered entity that has the turn holds a reference to the
    manager's ball. *)
Definition aims (w : World) : Prop :=
  forall g, In g (registered (manager w)) -> hasTurn w g = true ->
            Golfer._currentBall (golfers w g) = _golfBall (manager w).

(** Before the first game there is no ball; then nobody has the turn and
    no callback waits. *)
Definition idle (w : World) : Prop :=
  _golfBall (manager w) = None ->
  timers w = [] /\ forall g, hasTurn w g = false.

(** A step that hands out neither a turn nor a ball. *)
Definition follows (w w' : World) : Prop :=
  _golfBall (manager w') = _golfBall (manager w)
  /\ (forall g, In g (registered (manager w')) ->
                In g (registered (manager w)) \/ hasTurn w' g = false)
  /\ (forall g, hasTurn w' g = true ->
                hasTurn w g = true
                /\ Golfer._currentBall (golfers w' g)
                   = Golfer._currentBall (golfers w g))
  /\ (is_Some (_golfBall (manager w))
      \/ ((forall g, hasTurn w g = false) -> timers w' = timers w)).

(** What holds of every state the server reaches. *)
Definition inPlay (w : World) : Prop :=
  courseOk (manager w) /\ ballsOk w /\ aims w /\ idle w.

(** Methods of the player entity that leave its ball alone and do not
    give it the turn. *)
Definition quiet (m : Golfer.Method) : Prop :=
  forall e,
    Golfer._currentBall (m e).1 = Golfer._currentBall e
    /\ (Golfer.isPlayerTurn (m e).1 = true -> Golfer.isPlayerTurn e = true).

(** Two stores with the same player entities made and the same
    ['golf-shot'] listeners. *)
Definition sameListeners (w w' : World) : Prop :=
  nextGolfer w' = nextGolfer w /\ shotListeners w' = shotListeners w.

(** Every player entity that has been made has one ['golf-shot']
    listener. *)
Definition listenersOk (w : World) : Prop :=
  forall g, shotListeners w g = if (g <? nextGolfer w)%nat then 1 else 0.

(** Is an output the ['golf-shot'] event? *)
Definition isEmit (o : Golfer.Out) : bool :=
  match o with Golfer.EmitGolfShot _ => true | _ => false end.

End Reach.

(** ** Course decorations ([index.ts]) *)

Module Decoration.
Import Course.

(** The trunk of [buildSimpleTree]: three blocks of id [1]. *)
Definition trunkCalls (position : BlockPos) : list (BlockPos * Z) :=
  [ (mkPos (bx position) (by_ position + 1) (bz position), 1%Z);
    (mkPos (bx position) (by_ position + 2) (bz position), 1%Z);
    (mkPos (bx position) (by_ position + 3) (bz position), 1%Z) ].

(** The leaves: the two nested loops, which skip the centre. *)
Definition leafCalls (position : BlockPos) : list (BlockPos * Z) :=
  forRange (-1) 1 (fun dx =>
    forRange (-1) 1 (fun dz =>
      if (dx =? 0)%Z && (dz =? 0)%Z then []
      else
        [ (mkPos (bx position + dx) (by_ position + 3) (bz position + dz), 100%Z);
          (mkPos (bx position + dx) (by_ position + 4) (bz position + dz), 100%Z)
        ])).

(** The [setBlock] calls of [buildSimpleTree], in the order they are made. *)
Definition treeCalls (position : BlockPos) : list (BlockPos * Z) :=
  trunkCalls position ++ leafCalls position.

Definition buildSimpleTree (world : ChunkLattice) (position : BlockPos)
  : ChunkLattice :=
  foldl setBlock world (treeCalls position).

(** The two point sets a tree is made of. *)
Definition inTrunk (position p : BlockPos) : Prop :=
  bx p = bx position /\ bz p = bz position
  /\ (by_ position + 1 <= by_ p <= by_ position + 3)%Z.

Definition inLeaves (position p : BlockPos) : Prop :=
  (bx position - 1 <= bx p <= bx position + 1)%Z
  /\ (bz position - 1 <= bz p <= bz position + 1)%Z
  /\ ~ (bx p = bx position /\ bz p = bz position)
  /\ (by_ p = by_ position + 3 \/ by_ p = by_ position + 4)%Z.

#[global] Instance inTrunk_dec position p : Decision (inTrunk position p).
Proof. unfold inTrunk. apply _. Defined.

#[global] Instance inLeaves_dec position p : Decision (inLeaves position p).
Proof. unfold inLeaves. apply _. Defined.

(** A block coordinate moved by an offset. *)
Definition translate (by_offset p : BlockPos) : BlockPos :=
  mkPos (bx by_offset + bx p) (by_ by_offset + by_ p) (bz by_offset + bz p).

End Decoration.

(** * Properties *)

(** ** The ball *)

(** C8. [hit(direction, force)] hands the engine exactly one impulse, whose
    components are [direction * force * ballMass] componentwise, when the
    ball is spawned; on a ball that is not spawned it hands over nothing.
    In both cases the state of the ball, like that of every other ball, of
    the manager and of the players, is what it was: the call shows in the
    trace and nowhere else. *)
Theorem hit_delegates_one_impulse (w : Manager.World) (b : nat)
  (direction : Vector3) (force : Q) :
  let ball := Manager.balls w b in
  let impulse :=
    {| vx := vx direction * force * Ball.ballMass ball;
       vy := vy direction * force * Ball.ballMass ball;
       vz := vz direction * force * Ball.ballMass ball |} in
  let w' := Manager.callBall b (Ball.hit direction force) w in
  Ball.hit direction force ball
    = (ball, if Ball.isSpawned ball then [Ball.ApplyImpulse impulse] else [])
  /\ Manager.trace w'
     = Manager.trace w
       ++ (if Ball.isSpawned ball
           then [Manager.Engine b (Ball.ApplyImpulse impulse)] else [])
  /\ (forall b', Manager.balls w' b' = Manager.balls w b')
  /\ Manager.manager w' = Manager.manager w
  /\ Manager.golfers w' = Manager.golfers w.
Proof.
  intros ball impulse w'. subst w'. unfold Manager.callBall, Ball.hit.
  fold ball. destruct (Ball.isSpawned ball); cbn.
  - repeat split; try done. intros b'. subst ball.
    destruct (decide (b = b')) as [<-|Hne].
    + by rewrite fn_lookup_insert.
    + by rewrite fn_lookup_insert_ne.
  - rewrite app_nil_r. repeat split; try done. intros b'. subst ball.
    destruct (decide (b = b')) as [<-|Hne].
    + by rewrite fn_lookup_insert.
    + by rewrite fn_lookup_insert_ne.
Qed.

(** ** The course *)

Section CourseFacts.
Import Course.

Lemma key_inj (p q : BlockPos) : key p = key q -> p = q.
Proof. destruct p, q; unfold key; simpl. by intros [= -> -> ->]. Qed.

Lemma in_forRange {A} (lo hi : Z) (body : Z -> list A) (a : A) :
  In a (forRange lo hi body) <-> exists i, (lo <= i <= hi)%Z /\ In a (body i).
Proof.
  unfold forRange. rewrite in_flat_map. split.
  - intros (i & Hi & Ha). exists i. split; [|done].
    apply list_elem_of_In, elem_of_seqZ in Hi. lia.
  - intros (i & Hi & Ha). exists i. split; [|done].
    apply list_elem_of_In, elem_of_seqZ. lia.
Qed.

(** Stamping a list of calls that all carry the same block id. *)
Lemma foldl_setBlock_lookup (calls : list (BlockPos * Z)) (blockId : Z)
  (world : ChunkLattice) (p : BlockPos) :
  Forall (fun c => c.2 = blockId) calls ->
  foldl setBlock world calls !! key p =
    if decide (p ∈ map fst calls) then Some blockId else world !! key p.
Proof.
  revert world. induction calls as [|[q i] calls IH]; intros world Hall.
  - destruct (decide _) as [Hin|]; [by apply elem_of_nil in Hin|done].
  - apply Forall_cons_1 in Hall as [Hi Hrest]. simpl in Hi. subst i.
    change (foldl setBlock world ((q, blockId) :: calls))
      with (foldl setBlock (setBlock world (q, blockId)) calls).
    change (map fst ((q, blockId) :: calls)) with (q :: map fst calls).
    rewrite IH by done. unfold setBlock at 1. cbn [fst snd].
    destruct (decide (p ∈ map fst calls)) as [Hin|Hnin].
    + rewrite decide_True; [done|by apply elem_of_cons; right].
    + destruct (decide (q = p)) as [->|Hne].
      * rewrite lookup_insert_eq.
        rewrite decide_True; [done|by apply elem_of_cons; left].
      * rewrite lookup_insert_ne by (intros Hk; apply key_inj in Hk; done).
        rewrite decide_False; [done|].
        intros [->|Hin]%elem_of_cons; done.
Qed.

Lemma rectangleCalls_id (c1 c2 : BlockPos) (blockId : Z) :
  Forall (fun c => c.2 = blockId) (rectangleCalls c1 c2 blockId).
Proof.
  apply List.Forall_forall. intros c Hc.
  unfold rectangleCalls in Hc.
  apply in_forRange in Hc as (x & _ & Hc).
  apply in_forRange in Hc as (y & _ & Hc).
  apply in_forRange in Hc as (z & _ & Hc).
  destruct Hc as [<-|[]]. done.
Qed.

Lemma in_rectangleCalls (c1 c2 p : BlockPos) (blockId : Z) :
  In p (map fst (rectangleCalls c1 c2 blockId)) <-> inBox c1 c2 p.
Proof.
  rewrite in_map_iff. unfold rectangleCalls, inBox. split.
  - intros (c & <- & Hc).
    apply in_forRange in Hc as (x & Hx & Hc).
    apply in_forRange in Hc as (y & Hy & Hc).
    apply in_forRange in Hc as (z & Hz & Hc).
    destruct Hc as [<-|[]]. simpl. lia.
  - intros (Hx & Hy & Hz). exists (p, blockId). split; [done|].
    apply in_forRange. exists (bx p). split; [done|].
    apply in_forRange. exists (by_ p). split; [done|].
    apply in_forRange. exists (bz p). split; [done|].
    left. by destruct p.
Qed.

Lemma circleCalls_id (center : BlockPos) (radius blockId : Z) :
  Forall (fun c => c.2 = blockId) (circleCalls center radius blockId).
Proof.
  apply List.Forall_forall. intros c Hc.
  unfold circleCalls in Hc.
  apply in_forRange in Hc as (x & _ & Hc).
  apply in_forRange in Hc as (z & _ & Hc).
  destruct (withinRadius _ _ _); [|done].
  destruct Hc as [<-|[]]. done.
Qed.

Lemma withinRadius_spec (dx dz radius : Z) :
  withinRadius dx dz radius = true <->
  (0 <= radius /\ dx * dx + dz * dz <= radius * radius)%Z.
Proof. unfold withinRadius. rewrite andb_true_iff. lia. Qed.

Lemma in_circleCalls (center p : BlockPos) (radius blockId : Z) :
  In p (map fst (circleCalls center radius blockId)) <-> inDisc center radius p.
Proof.
  rewrite in_map_iff. unfold circleCalls, inDisc. split.
  - intros (c & <- & Hc).
    apply in_forRange in Hc as (x & Hx & Hc).
    apply in_forRange in Hc as (z & Hz & Hc).
    destruct (withinRadius _ _ _) eqn:Hw; [|done].
    apply withinRadius_spec in Hw.
    destruct Hc as [<-|[]]. simpl. lia.
  - intros (Hy & Hx & Hz & Hd). exists (p, blockId). split; [done|].
    apply in_forRange. exists (bx p). split; [done|].
    apply in_forRange. exists (bz p). split; [done|].
    assert (withinRadius (bx p - bx center) (bz p - bz center) radius = true)
      as -> by (apply withinRadius_spec; lia).
    left. destruct p; simpl in *. by subst.
Qed.

(** C7. [buildRectangle] leaves the block id at exactly the lattice points
    of the box spanned by its two corners and touches no other point, so
    swapping the corners changes nothing; [buildCircle] leaves it at
    exactly the points of the layer [y = center.y] that lie in the
    enclosing square and within distance [radius] of the centre. *)
Theorem course_stamping (world : ChunkLattice) (corner1 corner2 center : BlockPos)
  (radius blockId : Z) (p : BlockPos) :
  buildRectangle world corner1 corner2 blockId !! key p
    = (if decide (inBox corner1 corner2 p) then Some blockId else world !! key p)
  /\ buildRectangle world corner2 corner1 blockId
     = buildRectangle world corner1 corner2 blockId
  /\ buildCircle world center radius blockId !! key p
     = (if decide (inDisc center radius p) then Some blockId else world !! key p).
Proof.
  split; [|split].
  - unfold buildRectangle.
    rewrite (foldl_setBlock_lookup _ blockId) by apply rectangleCalls_id.
    pose proof (in_rectangleCalls corner1 corner2 p blockId) as Hin.
    rewrite <- list_elem_of_In in Hin.
    repeat case_decide; tauto || done.
  - unfold buildRectangle, rectangleCalls.
    by rewrite (Z.min_comm (bx corner2)), (Z.max_comm (bx corner2)),
      (Z.min_comm (by_ corner2)), (Z.max_comm (by_ corner2)),
      (Z.min_comm (bz corner2)), (Z.max_comm (bz corner2)).
  - unfold buildCircle.
    rewrite (foldl_setBlock_lookup _ blockId) by apply circleCalls_id.
    pose proof (in_circleCalls center p radius blockId) as Hin.
    rewrite <- list_elem_of_In in Hin.
    repeat case_decide; tauto || done.
Qed.

End CourseFacts.

(** ** The player entity *)

Section GolferFacts.
Import Golfer.
Local Open Scope method_scope.

Lemma keeps_skip I : Keeps I skip.
Proof. by intros e He. Qed.

Lemma keeps_send I o : Keeps I (send o).
Proof. by intros e He. Qed.

Lemma keeps_andThen I m1 m2 : Keeps I m1 -> Keeps I m2 -> Keeps I (m1 ;; m2).
Proof.
  intros H1 H2 e He. unfold andThen.
  specialize (H1 e He). destruct (m1 e) as [e1 o1]. simpl in H1.
  specialize (H2 e1 H1). by destruct (m2 e1) as [e2 o2].
Qed.

Lemma keeps_when I c m : Keeps I m -> Keeps I (when c m).
Proof. intros H e He. unfold when. destruct (c e); [by apply H|done]. Qed.

Lemma keeps_modify_meter maxP (f : GolfPlayerEntity -> GolfPlayerEntity) :
  (forall e, maxPower (f e) = maxPower e) ->
  (forall e, _currentPower (f e) = _currentPower e) ->
  Keeps (meterOk maxP) (modify f).
Proof.
  intros Hm Hp e [He1 [He2 He3]]. unfold modify, meterOk, powerInBounds. simpl.
  by rewrite Hm, Hp.
Qed.

Lemma keeps_zero_power maxP :
  (0 <= maxP)%Q -> Keeps (meterOk maxP) (modify (set_currentPower 0)).
Proof.
  intros H0 e [He1 _]. unfold modify, meterOk, powerInBounds. simpl.
  rewrite He1. split; [done|]. split; [apply Qle_refl|done].
Qed.

Lemma powerIncrement_nonneg e : (0 <= maxPower e)%Q -> (0 <= powerIncrement e)%Q.
Proof.
  intros H. unfold powerIncrement. apply Qle_shift_div_l; [reflexivity|].
  by rewrite Qmult_0_l.
Qed.

Lemma keeps_updatePower maxP : (0 <= maxP)%Q -> Keeps (meterOk maxP) _updatePower.
Proof.
  intros H0 e [He1 [He2 He3]]. unfold _updatePower.
  destruct (_isCharging e); simpl; [|done].
  split; [done|]. split; simpl.
  - apply Q.min_glb; [|by rewrite He1].
    pose proof (powerIncrement_nonneg e) as Hinc. rewrite He1 in Hinc.
    specialize (Hinc H0).
    rewrite <- (Qplus_0_r 0). by apply Qplus_le_compat.
  - apply Q.le_min_r.
Qed.

Lemma keeps_startAiming maxP : Keeps (meterOk maxP) _startAiming.
Proof.
  intros e He. unfold _startAiming. destruct (_currentBall e); [|done].
  by apply (keeps_andThen _ _ _ (keeps_modify_meter maxP _ (fun _ => eq_refl)
                                   (fun _ => eq_refl)) (keeps_send _ _)).
Qed.

Lemma keeps_stopAiming maxP : Keeps (meterOk maxP) _stopAiming.
Proof.
  apply keeps_andThen; [|apply keeps_send].
  by apply keeps_modify_meter.
Qed.

Lemma keeps_incrementShotCount maxP : Keeps (meterOk maxP) incrementShotCount.
Proof. by apply keeps_modify_meter. Qed.

Ltac keeps_meter :=
  repeat first
    [ apply keeps_send | apply keeps_skip
    | apply keeps_stopAiming | apply keeps_startAiming
    | apply keeps_incrementShotCount
    | by apply keeps_zero_power
    | by apply keeps_updatePower
    | by apply keeps_modify_meter
    | apply keeps_when
    | apply keeps_andThen ].

Lemma keeps_executeShot maxP facing :
  (0 <= maxP)%Q -> Keeps (meterOk maxP) (_executeShot facing).
Proof.
  intros H0 e He. unfold _executeShot.
  destruct (_isCharging e), (_currentBall e) as [ball|], (world e); try done.
  cbv zeta. generalize (shotForce e) as force. intros force. revert e He.
  change (Keeps (meterOk maxP)
            (modify (set_isCharging false) ;;
             send (fun _ => BallHit ball facing force) ;;
             incrementShotCount ;;
             send (fun e => Ui (GolfShotExecuted (_currentPower e) force
                                  facing (_shotCount e))) ;;
             send (fun e => Ui (GolfPowerMeter 0 (maxPower e) false)) ;;
             modify (set_currentPower 0) ;;
             _stopAiming ;;
             send (fun e => EmitGolfShot (_shotCount e)))).
  keeps_meter.
Qed.

Lemma keeps_toggleAiming maxP : Keeps (meterOk maxP) _toggleAiming.
Proof.
  intros e He. unfold _toggleAiming.
  destruct (_isAiming e); [by apply keeps_stopAiming|by apply keeps_startAiming].
Qed.

Lemma keeps_resetBall maxP : Keeps (meterOk maxP) _resetBall.
Proof. intros e He. unfold _resetBall. by destruct (_currentBall e). Qed.

Lemma keeps_perform maxP op : (0 <= maxP)%Q -> Keeps (meterOk maxP) (perform op).
Proof.
  intros H0. destruct op as [p| |ball| | |input facing|]; simpl.
  - unfold spawn. keeps_meter.
  - by apply keeps_modify_meter.
  - by apply keeps_modify_meter.
  - unfold startTurn. keeps_meter.
  - unfold endTurn. keeps_meter.
  - intros e He. unfold onTickWithPlayerInput.
    destruct (negb (_isPlayerTurn e)); [done|]. revert e He.
    apply keeps_andThen.
    { intros e He.
      destruct (sp input && negb (_isCharging e) && _isAiming e).
      - revert e He. unfold _startCharging. keeps_meter.
      - destruct (negb (sp input) && _isCharging e); [|done].
        by apply keeps_executeShot. }
    apply keeps_andThen; [by apply keeps_when, keeps_updatePower|].
    apply keeps_andThen; apply keeps_when;
      [apply keeps_toggleAiming|apply keeps_resetBall].
  - apply keeps_incrementShotCount.
Qed.

Lemma keeps_performAll maxP ops :
  (0 <= maxP)%Q -> Keeps (meterOk maxP) (performAll ops).
Proof.
  intros H0. induction ops as [|op ops IH]; simpl.
  - apply keeps_skip.
  - apply keeps_andThen; [by apply keeps_perform|done].
Qed.

Lemma meterOk_new player maxP : (0 <= maxP)%Q -> meterOk maxP (new player maxP).
Proof. intros H0. split; [done|]. split; simpl; [apply Qle_refl|done]. Qed.

(** The meter of every entity that the code can produce is in bounds. *)
Lemma reachable_meterOk player maxP ops :
  (0 <= maxP)%Q -> meterOk maxP (performAll ops (new player maxP)).1.
Proof. intros H0. by apply keeps_performAll, meterOk_new. Qed.

(** What one controller tick does to the shot count. *)
Lemma tick_shot_spec (e : GolfPlayerEntity) (input : Input) (facing : Vector3) :
  let r := onTickWithPlayerInput input facing e in
  match shotTaken input e with
  | Some ball =>
      filter isBallHit r.2 = [BallHit ball facing (shotForce e)]
      /\ _shotCount r.1 = S (_shotCount e)
      /\ _isCharging r.1 = false
  | None =>
      filter isBallHit r.2 = [] /\ _shotCount r.1 = _shotCount e
  end.
Proof.
  destruct e as [pl maxP power charging aiming ball shots turn inWorld pos].
  destruct input as [sp_ f_ r_].
  unfold shotTaken, onTickWithPlayerInput; cbn [_isPlayerTurn _isCharging world
    _currentBall sp negb andb].
  destruct turn, sp_, charging, aiming, ball as [ball|], inWorld, f_, r_;
    cbn; repeat split; reflexivity.
Qed.

(** What one controller tick does to the power meter. *)
Lemma tick_power_spec (e : GolfPlayerEntity) (input : Input) (facing : Vector3) :
  let r := onTickWithPlayerInput input facing e in
  (_isPlayerTurn e = true -> _isCharging e = true -> sp input = true ->
   _currentPower r.1 = Qmin (_currentPower e + maxPower e / 120)%Q (maxPower e))
  /\ (is_Some (shotTaken input e) -> _currentPower r.1 = 0%Q).
Proof.
  destruct e as [pl maxP power charging aiming ball shots turn inWorld pos].
  destruct input as [sp_ f_ r_].
  unfold shotTaken, onTickWithPlayerInput; cbn [_isPlayerTurn _isCharging world
    _currentBall _currentPower maxPower sp negb andb].
  split.
  - intros -> -> ->. destruct aiming, ball, f_, r_; reflexivity.
  - destruct turn, sp_, charging, inWorld, ball as [ball|];
      cbn [negb andb]; intros [b Hb]; try discriminate;
      destruct aiming, f_, r_; reflexivity.
Qed.

(** C5. The power of an entity built with a non-negative [maxPower] stays
    between [0] and [maxPower] whatever is done to it.  While the entity is
    charging, [_updatePower], and with it every input tick with the key
    held, moves the power to
    [min (power + maxPower / 120) maxPower].  The power is [0] after the
    tick that releases the shot, after [_startCharging] and after
    [endTurn].  Charging does happen: whatever was done to the entity
    before, once it is spawned, given a ball and its turn, a tick with the
    key held starts the charge and leaves the power at
    [min (0 + maxPower / 120) maxPower], a second such tick adds
    [maxPower / 120] again, and the tick on which the key is up ends the
    charge with the power back at [0]. *)
Theorem power_charge_invariant (player : string) (maxP : Q) (ops : list Op)
  (input : Input) (facing : Vector3) (ball : nat) (position : Vector3)
  (Hmax : (0 <= maxP)%Q) :
  let e := (performAll ops (new player maxP)).1 in
  let keyDown := mkInput true false false in
  let keyUp := mkInput false false false in
  let e0 := (performAll [OpSpawn position; OpEndTurn; OpSetGolfBall ball;
                         OpStartTurn] e).1 in
  let e1 := (onTickWithPlayerInput keyDown facing e0).1 in
  let e2 := (onTickWithPlayerInput keyDown facing e1).1 in
  let e3 := (onTickWithPlayerInput keyUp facing e2).1 in
  ((0 <= _currentPower e)%Q /\ (_currentPower e <= maxPower e)%Q)
  /\ (_isCharging e = true ->
      _currentPower (_updatePower e).1
        = Qmin (_currentPower e + maxPower e / 120)%Q (maxPower e))
  /\ (_isPlayerTurn e = true -> _isCharging e = true -> sp input = true ->
      _currentPower (onTickWithPlayerInput input facing e).1
        = Qmin (_currentPower e + maxPower e / 120)%Q (maxPower e))
  /\ (is_Some (shotTaken input e) ->
      _currentPower (onTickWithPlayerInput input facing e).1 = 0%Q)
  /\ _currentPower (_startCharging e).1 = 0%Q
  /\ _currentPower (endTurn e).1 = 0%Q
  /\ (_isCharging e0 = false /\ _currentPower e0 = 0%Q)
  /\ (_isCharging e1 = true
      /\ _currentPower e1 = Qmin (0 + maxPower e / 120)%Q (maxPower e))
  /\ (_isCharging e2 = true
      /\ _currentPower e2
         = Qmin (_currentPower e1 + maxPower e / 120)%Q (maxPower e))
  /\ (_isCharging e3 = false /\ _currentPower e3 = 0%Q)
  /\ maxPower e = maxP.
Proof.
  intros e keyDown keyUp e0 e1 e2 e3.
  destruct (reachable_meterOk player maxP ops Hmax) as [Hsame Hbounds].
  split; [exact Hbounds|].
  split; [intros Hc; unfold _updatePower; by rewrite Hc|].
  destruct (tick_power_spec e input facing) as [Hheld Hshot].
  split; [done|]. split; [done|]. split; [done|]. split; [done|].
  change (maxPower e = maxP) in Hsame.
  subst e0 e1 e2 e3 keyDown keyUp. clear Hheld Hshot Hbounds. clearbody e.
  destruct e as [pl maxP0 power charging aiming held shots turn inWorld pos].
  cbn [maxPower] in Hsame. subst maxP0.
  unfold onTickWithPlayerInput, performAll, perform, andThen, spawn, endTurn,
    setGolfBall, startTurn, _startAiming, _startCharging, _updatePower, when,
    _executeShot, _stopAiming, incrementShotCount, _toggleAiming, _resetBall,
    modify, send, skip, powerIncrement.
  cbn -[Qmin Qplus Qdiv Qmult].
  split; [by split|]. split; [by split|]. split; [by split|].
  split; [by split|]. done.
Qed.

(** An entity built with [maxPower] 60, so that a tick adds one half:
    spawned, given a ball and its turn, it charges to one half and to one
    on two ticks with the key held, and is back at [0] once the key is
    up. *)
Lemma power_charge_invariant_witness :
  let e0 := (performAll [OpSpawn zeroVec; OpEndTurn; OpSetGolfBall 0;
                         OpStartTurn] (new "p1" 60)).1 in
  let e1 := (onTickWithPlayerInput (mkInput true false false) (mkVec 1 0 0)
               e0).1 in
  let e2 := (onTickWithPlayerInput (mkInput true false false) (mkVec 1 0 0)
               e1).1 in
  let e3 := (onTickWithPlayerInput (mkInput false false false) (mkVec 1 0 0)
               e2).1 in
  (_isCharging e1 = true /\ (_currentPower e1 == 1 # 2)%Q)
  /\ (_isCharging e2 = true /\ (_currentPower e2 == 1)%Q)
  /\ (_isCharging e3 = false /\ (_currentPower e3 == 0)%Q).
Proof.
  intros e0 e1 e2 e3.
  assert (0 <= 60)%Q as Hmax by (unfold Qle; simpl; lia).
  destruct (power_charge_invariant "p1" 60 [] (mkInput true false false)
              (mkVec 1 0 0) 0 zeroVec Hmax)
    as (_ & _ & _ & _ & _ & _ & _ & [Hc1 Hp1] & [Hc2 Hp2] & [Hc3 Hp3] & _).
  split; [split; [exact Hc1|]|split; [split; [exact Hc2|]|split; [exact Hc3|]]].
  - refine (eq_ind_r (fun x => (x == 1 # 2)%Q) _ Hp1). vm_compute. reflexivity.
  - refine (eq_ind_r (fun x => (x == 1)%Q) _ Hp2). vm_compute. reflexivity.
  - refine (eq_ind_r (fun x => (x == 0)%Q) _ Hp3). reflexivity.
Defined.

(** C6. On an entity built with a positive [maxPower], in a world (as
    every entity that receives input ticks is): a tick with the charge key
    up while the entity is charging on its turn with a ball assigned hits
    that ball exactly once, in the camera's facing direction, with force
    [(currentPower / maxPower) * 50], which is at most [50]; the shot
    count goes up by one and charging ends.  A tick on an entity that is
    not charging, has no ball, or is not on its turn hits nothing and
    leaves the shot count alone. *)
Theorem shot_execution (player : string) (maxP : Q) (ops : list Op)
  (input : Input) (facing : Vector3) (Hmax : (0 < maxP)%Q) :
  let e := (performAll ops (new player maxP)).1 in
  let r := onTickWithPlayerInput input facing e in
  (forall ball,
      sp input = false -> _isCharging e = true -> _currentBall e = Some ball ->
      _isPlayerTurn e = true -> world e = true ->
      filter isBallHit r.2
        = [BallHit ball facing ((_currentPower e / maxPower e) * 50)%Q]
      /\ ((_currentPower e / maxPower e) * 50 <= 50)%Q
      /\ _shotCount r.1 = S (_shotCount e)
      /\ _isCharging r.1 = false)
  /\ (_isCharging e = false \/ _currentBall e = None \/ _isPlayerTurn e = false ->
      filter isBallHit r.2 = [] /\ _shotCount r.1 = _shotCount e).
Proof.
  intros e r. pose proof (tick_shot_spec e input facing) as Hspec.
  fold r in Hspec. split.
  - intros ball Hsp Hch Hball Hturn Hworld.
    unfold shotTaken in Hspec. rewrite Hsp, Hch, Hball, Hturn, Hworld in Hspec.
    destruct Hspec as (Hhit & Hcount & Hcharging).
    repeat split; try done.
    destruct (reachable_meterOk player maxP ops (Qlt_le_weak _ _ Hmax))
      as [HmaxP [_ Hle]].
    fold e in HmaxP, Hle. rewrite HmaxP in *.
    assert (_currentPower e / maxP <= 1)%Q as Hratio.
    { apply Qle_shift_div_r; [done|]. by rewrite Qmult_1_l. }
    lra.
  - intros Hno. unfold shotTaken in Hspec.
    destruct Hno as [Hno|[Hno|Hno]]; rewrite Hno in Hspec.
    + by rewrite andb_false_r, andb_false_l in Hspec.
    + by destruct (_ && _ && _ && _).
    + done.
Qed.

(** The release tick of an entity that has charged for one tick. *)
Lemma shot_execution_witness :
  let ops := [OpSpawn zeroVec; OpSetGolfBall 0; OpStartTurn;
              OpTick (mkInput true false false) (mkVec 1 0 0)] in
  let e := (performAll ops (new "p1" 100)).1 in
  let r := onTickWithPlayerInput (mkInput false false false) (mkVec 1 0 0) e in
  filter isBallHit r.2
    = [BallHit 0 (mkVec 1 0 0) ((_currentPower e / maxPower e) * 50)%Q]
  /\ ((_currentPower e / maxPower e) * 50 <= 50)%Q
  /\ _shotCount r.1 = S (_shotCount e)
  /\ _isCharging r.1 = false.
Proof.
  intros ops e r.
  refine (proj1 (shot_execution "p1" 100 ops (mkInput false false false)
                   (mkVec 1 0 0) _) 0%nat _ _ _ _ _);
    reflexivity.
Defined.

End GolferFacts.

(** ** The manager *)

Section ManagerFacts.
Import Manager.

(** *** What the helpers leave alone *)

Lemma sameButGolfers_refl w : sameButGolfers w w.
Proof. by repeat split. Qed.

Lemma sameButGolfers_trans w1 w2 w3 :
  sameButGolfers w1 w2 -> sameButGolfers w2 w3 -> sameButGolfers w1 w3.
Proof.
  intros (?&?&?&?&?&?) (?&?&?&?&?&?). repeat split; congruence.
Qed.

Lemma emit_frame es w :
  sameButGolfers w (emit es w) /\ golfers (emit es w) = golfers w.
Proof. by repeat split. Qed.

Lemma foldl_frame {A} (f : World -> A -> World) (l : list A) (w : World) :
  (forall w x, sameButGolfers w (f w x) /\ golfers (f w x) = golfers w) ->
  sameButGolfers w (foldl f w l) /\ golfers (foldl f w l) = golfers w.
Proof.
  intros Hf. revert w. induction l as [|x l IH]; intros w; simpl.
  - split; [apply sameButGolfers_refl|done].
  - destruct (IH (f w x)) as [H1 H2], (Hf w x) as [H3 H4]. split.
    + by eapply sameButGolfers_trans.
    + congruence.
Qed.

Lemma broadcastGameState_frame w :
  sameButGolfers w (_broadcastGameState w)
  /\ golfers (_broadcastGameState w) = golfers w.
Proof.
  unfold _broadcastGameState, forEachPlayer.
  apply foldl_frame. intros w' [i s]. apply emit_frame.
Qed.

(** A UI-only method call changes the entity it is made on and nothing
    else. *)
Lemma callGolfer_uiOnly g m w :
  uiOnly m ->
  sameButGolfers w (callGolfer g m w)
  /\ golfers (callGolfer g m w) = <[g := (m (golfers w g)).1]> (golfers w).
Proof.
  intros Hm. unfold callGolfer. specialize (Hm (golfers w g)).
  destruct (m (golfers w g)) as [e' outs]. simpl in *.
  set (w0 := set_golfers (<[g:=e']> (golfers w)) w).
  assert (sameButGolfers w w0 /\ golfers w0 = <[g:=e']> (golfers w)) as [H0 H1]
    by by repeat split.
  clearbody w0. revert w0 H0 H1.
  induction outs as [|o outs IH]; intros w0 H0 H1; simpl; [done|].
  simpl in Hm. apply andb_true_iff in Hm as [Ho Houts].
  destruct o as [| |u|]; try done. apply IH; [done| |done].
  eapply sameButGolfers_trans; [exact H0|]. apply emit_frame.
Qed.

Lemma uiOnly_endTurn : uiOnly Golfer.endTurn.
Proof. by intros e. Qed.

Lemma uiOnly_startTurn : uiOnly Golfer.startTurn.
Proof.
  intros e. unfold Golfer.startTurn, Golfer.andThen, Golfer._startAiming. simpl.
  by destruct (Golfer._currentBall e).
Qed.

Lemma uiOnly_setGolfBall b : uiOnly (Golfer.setGolfBall b).
Proof. by intros e. Qed.

Lemma uiOnly_incrementShotCount : uiOnly Golfer.incrementShotCount.
Proof. by intros e. Qed.

(** *** Turns *)

Lemma isPlayerTurn_endTurn e : Golfer.isPlayerTurn (Golfer.endTurn e).1 = false.
Proof. done. Qed.

Lemma isPlayerTurn_startTurn e : Golfer.isPlayerTurn (Golfer.startTurn e).1 = true.
Proof.
  unfold Golfer.startTurn, Golfer.andThen, Golfer._startAiming. simpl.
  by destruct (Golfer._currentBall e).
Qed.

Lemma isPlayerTurn_setGolfBall b e :
  Golfer.isPlayerTurn (Golfer.setGolfBall b e).1 = Golfer.isPlayerTurn e.
Proof. done. Qed.

Lemma endOthers_frame k w slot : sameButGolfers w (endOthers k w slot).
Proof.
  destruct slot as [i s]. unfold endOthers. case_bool_decide.
  - apply callGolfer_uiOnly, uiOnly_endTurn.
  - apply sameButGolfers_refl.
Qed.

Lemma endOthers_keeps_off k w slot g :
  hasTurn w g = false -> hasTurn (endOthers k w slot) g = false.
Proof.
  destruct slot as [i s]. unfold endOthers, hasTurn. case_bool_decide; [|done].
  destruct (callGolfer_uiOnly (golfEntity s) _ w uiOnly_endTurn) as [_ ->].
  intros Hoff. destruct (decide (golfEntity s = g)) as [<-|Hne].
  - by rewrite fn_lookup_insert.
  - by rewrite fn_lookup_insert_ne.
Qed.

Lemma endOthers_turns_off k w i s :
  i ≠ k -> hasTurn (endOthers k w (i, s)) (golfEntity s) = false.
Proof.
  intros Hne. unfold endOthers, hasTurn. rewrite bool_decide_eq_true_2 by done.
  destruct (callGolfer_uiOnly (golfEntity s) _ w uiOnly_endTurn) as [_ ->].
  by rewrite fn_lookup_insert.
Qed.

Lemma foldl_endOthers k slots w :
  sameButGolfers w (foldl (endOthers k) w slots)
  /\ (forall g, hasTurn w g = false ->
                hasTurn (foldl (endOthers k) w slots) g = false)
  /\ (forall i s, In (i, s) slots -> i ≠ k ->
                  hasTurn (foldl (endOthers k) w slots) (golfEntity s) = false).
Proof.
  revert w. induction slots as [|slot slots IH]; intros w; simpl.
  - split; [apply sameButGolfers_refl|]. split; [done|]. by intros i s [].
  - destruct (IH (endOthers k w slot)) as (Hframe & Hoff & Hothers).
    split; [|split].
    + eapply sameButGolfers_trans; [apply endOthers_frame|exact Hframe].
    + intros g Hg. by apply Hoff, endOthers_keeps_off.
    + intros i s [->|Hin] Hne.
      * by apply Hoff, endOthers_turns_off.
      * by apply Hothers with i.
Qed.

Lemma in_imap_pair {A} (l : list A) (i : nat) (x : A) :
  In (i, x) (imap pair l) <-> l !! i = Some x.
Proof.
  rewrite <- list_elem_of_In, elem_of_lookup_imap. split.
  - by intros (j & y & [= -> ->] & Hl).
  - intros Hl. by exists i, x.
Qed.

(** What [_startPlayerTurn] does when there is a current player: the
    manager is as it was, the current player's entity has the turn, and no
    other registered entity has. *)
Lemma startPlayerTurn_spec w k cur :
  _currentPlayerIndex (manager w) = Idx k ->
  _players (manager w) !! k = Some cur ->
  let w' := _startPlayerTurn w in
  sameButGolfers w w'
  /\ hasTurn w' (golfEntity cur) = true
  /\ (forall g, In g (registered (manager w)) -> g ≠ golfEntity cur ->
                hasTurn w' g = false)
  /\ (forall g, g ≠ golfEntity cur -> hasTurn w g = false -> hasTurn w' g = false).
Proof.
  intros Hidx Hcur. unfold _startPlayerTurn, _getCurrentPlayer.
  rewrite Hidx. simpl. rewrite Hcur.
  unfold forEachPlayer.
  change (fun (w0 : World) '(i, s) =>
            if bool_decide (i ≠ k) then callGolfer (golfEntity s) Golfer.endTurn w0
            else w0) with (endOthers k).
  set (slots := imap pair (_players (manager w))).
  destruct (foldl_endOthers k slots w) as (Hf1 & Hoff1 & Hothers).
  set (w1 := foldl (endOthers k) w slots) in *.
  set (w2 := match _golfBall (manager w1) with
             | Some b => callGolfer (golfEntity cur) (Golfer.setGolfBall b) w1
             | None => w1
             end).
  assert (sameButGolfers w1 w2
          /\ forall g, hasTurn w2 g = hasTurn w1 g) as [Hf2 Hturn2].
  { subst w2. destruct (_golfBall (manager w1)) as [b|].
    - destruct (callGolfer_uiOnly (golfEntity cur) _ w1 (uiOnly_setGolfBall b))
        as [Hf Hg].
      split; [done|]. intros g. unfold hasTurn. rewrite Hg.
      destruct (decide (golfEntity cur = g)) as [<-|Hne].
      + by rewrite fn_lookup_insert.
      + by rewrite fn_lookup_insert_ne.
    - split; [apply sameButGolfers_refl|done]. }
  clearbody w2.
  destruct (callGolfer_uiOnly (golfEntity cur) _ w2 uiOnly_startTurn) as [Hf3 Hg3].
  set (w3 := callGolfer (golfEntity cur) Golfer.startTurn w2) in *.
  destruct (broadcastGameState_frame w3) as [Hf4 Hg4].
  assert (forall g, hasTurn (_broadcastGameState w3) g
                    = if decide (golfEntity cur = g) then true else hasTurn w1 g)
    as Hturn.
  { intros g. unfold hasTurn at 1. rewrite Hg4, Hg3.
    destruct (decide (golfEntity cur = g)) as [<-|Hne].
    - by rewrite fn_lookup_insert, isPlayerTurn_startTurn.
    - rewrite fn_lookup_insert_ne by done. apply Hturn2. }
  split; [|split; [|split]].
  - eauto using sameButGolfers_trans.
  - rewrite Hturn. by rewrite decide_True.
  - intros g Hg Hne. rewrite Hturn, decide_False by done.
    unfold registered in Hg. apply in_map_iff in Hg as (s & <- & Hs).
    apply list_elem_of_In, list_elem_of_lookup in Hs as [i Hi].
    apply (Hothers i s).
    + by apply in_imap_pair.
    + intros ->. rewrite Hcur in Hi. by injection Hi as ->.
  - intros g Hne Hg. rewrite Hturn, decide_False by done. by apply Hoff1.
Qed.

(** Without a current player [_startPlayerTurn] does nothing. *)
Lemma startPlayerTurn_none w :
  _getCurrentPlayer (manager w) = None -> _startPlayerTurn w = w.
Proof.
  intros Hnone. unfold _startPlayerTurn. rewrite Hnone.
  by destruct (_currentPlayerIndex (manager w)).
Qed.

Lemma getCurrentPlayer_some m cur :
  _getCurrentPlayer m = Some cur ->
  exists k, _currentPlayerIndex m = Idx k /\ _players m !! k = Some cur.
Proof.
  unfold _getCurrentPlayer, jsGet. destruct (_currentPlayerIndex m) as [k|]; [|done].
  intros H. by exists k.
Qed.

(** *** At most one active turn *)

Lemma singleActiveTurn_iff w :
  singleActiveTurn w <->
  forall g1 g2, In g1 (registered (manager w)) -> In g2 (registered (manager w)) ->
                hasTurn w g1 = true -> hasTurn w g2 = true -> g1 = g2.
Proof.
  unfold singleActiveTurn. rewrite List.Forall_forall. split.
  - intros H g1 g2 H1 H2. specialize (H g1 H1).
    rewrite List.Forall_forall in H. by apply H.
  - intros H g1 H1. apply List.Forall_forall. intros g2 H2. by apply H.
Qed.

(** Fewer registered entities and fewer active turns keep the property. *)
Lemma singleActiveTurn_shrink w w' :
  (forall g, In g (registered (manager w')) -> In g (registered (manager w))) ->
  (forall g, hasTurn w' g = true -> hasTurn w g = true) ->
  singleActiveTurn w -> singleActiveTurn w'.
Proof.
  rewrite !singleActiveTurn_iff. intros Hreg Hturn H g1 g2 H1 H2 T1 T2.
  apply H; auto.
Qed.

Lemma startPlayerTurn_single w :
  singleActiveTurn w -> singleActiveTurn (_startPlayerTurn w).
Proof.
  intros Hw. destruct (_getCurrentPlayer (manager w)) as [cur|] eqn:Hcur.
  - apply getCurrentPlayer_some in Hcur as (k & Hidx & Hk).
    destruct (startPlayerTurn_spec w k cur Hidx Hk) as ((Hm & _) & _ & Hoff & _).
    apply singleActiveTurn_iff. rewrite Hm. intros g1 g2 H1 H2 T1 T2.
    destruct (decide (g1 = golfEntity cur)) as [->|Hne1].
    + destruct (decide (g2 = golfEntity cur)) as [->|Hne2]; [done|].
      rewrite (Hoff g2 H2 Hne2) in T2. done.
    + rewrite (Hoff g1 H1 Hne1) in T1. done.
  - by rewrite startPlayerTurn_none.
Qed.

Lemma nextPlayerTurn_single w :
  singleActiveTurn w -> singleActiveTurn (_nextPlayerTurn w).
Proof.
  intros Hw. unfold _nextPlayerTurn. destruct (ballIsMoving w).
  - revert Hw. by apply singleActiveTurn_shrink.
  - apply startPlayerTurn_single. revert Hw. by apply singleActiveTurn_shrink.
Qed.

Lemma in_mapDelete ps key s : In s (mapDelete ps key) -> In s ps.
Proof.
  unfold mapDelete. rewrite <- !list_elem_of_In, list_elem_of_filter. tauto.
Qed.

Lemma removePlayer_single p w :
  singleActiveTurn w -> singleActiveTurn (removePlayer p w).
Proof.
  intros Hw. unfold removePlayer.
  set (w1 := updManager _ w).
  assert (singleActiveTurn w1) as H1.
  { revert Hw. apply singleActiveTurn_shrink; [|done].
    intros g. unfold registered. simpl. rewrite !in_map_iff.
    intros (s & <- & Hs). exists s. split; [done|]. by eapply in_mapDelete. }
  set (w2 := if _ && _ then _nextPlayerTurn w1 else w1).
  assert (singleActiveTurn w2) as H2.
  { subst w2. destruct (_ && _); [by apply nextPlayerTurn_single|done]. }
  destruct (broadcastGameState_frame w2) as [(Hm & _) Hg].
  revert H2. apply singleActiveTurn_shrink.
  - by rewrite Hm.
  - intros g. unfold hasTurn. by rewrite Hg.
Qed.

Lemma golfers_callBall b m w : golfers (callBall b m w) = golfers w.
Proof. unfold callBall. by destruct (m (balls w b)). Qed.

Lemma players_callBall b m w :
  _players (manager (callBall b m w)) = _players (manager w).
Proof. unfold callBall. by destruct (m (balls w b)). Qed.

Lemma manager_callBall b m w : manager (callBall b m w) = manager w.
Proof. unfold callBall. by destruct (m (balls w b)). Qed.

Lemma forEachPlayer_frame (f : nat -> PlayerScore -> World -> World) w :
  (forall i s w, sameButGolfers w (f i s w) /\ golfers (f i s w) = golfers w) ->
  sameButGolfers w (forEachPlayer f w)
  /\ golfers (forEachPlayer f w) = golfers w.
Proof.
  intros Hf. unfold forEachPlayer. apply foldl_frame. intros w' [i s]. apply Hf.
Qed.

Lemma startHole_single holeIndex w :
  singleActiveTurn w -> singleActiveTurn (stateOf (_startHole holeIndex w)).
Proof.
  intros Hw. unfold _startHole.
  destruct (_ <=? _)%nat; [done|].
  destruct (_ !! holeIndex) as [hole|]; [|done]. simpl.
  apply startPlayerTurn_single.
  match goal with |- singleActiveTurn (forEachPlayer ?f ?w0) =>
    destruct (forEachPlayer_frame f w0) as [(Hm & _) Hg];
      [intros; apply emit_frame|]; set (w1 := w0) in * end.
  revert Hw. apply singleActiveTurn_shrink.
  - rewrite Hm. subst w1. unfold registered. simpl.
    destruct (_golfBall (manager w)); [|done]. by rewrite players_callBall.
  - intros g. unfold hasTurn. rewrite Hg. subst w1. simpl.
    destruct (_golfBall (manager w)); [|done]. by rewrite golfers_callBall.
Qed.

Lemma golfers_createGolfBall w : golfers (_createGolfBall w) = golfers w.
Proof.
  unfold _createGolfBall. simpl. destruct (_golfBall (manager w)) as [old|]; [|done].
  destruct (Ball.isSpawned (balls w old)); [|done]. by rewrite golfers_callBall.
Qed.

Lemma players_createGolfBall w :
  _players (manager (_createGolfBall w)) = _players (manager w).
Proof.
  unfold _createGolfBall. simpl. destruct (_golfBall (manager w)) as [old|]; [|done].
  destruct (Ball.isSpawned (balls w old)); [|done]. by rewrite players_callBall.
Qed.

Lemma startGame_single w :
  singleActiveTurn w -> singleActiveTurn (stateOf (startGame w)).
Proof.
  intros Hw. unfold startGame. destruct (_ =? _)%nat; [done|].
  match goal with |- context [_startHole 0 ?w0] => set (w1 := w0) end.
  assert (singleActiveTurn w1) as H1.
  { revert Hw. apply singleActiveTurn_shrink.
    - intros g. subst w1. unfold registered. rewrite players_createGolfBall.
      simpl. by rewrite map_map.
    - intros g. subst w1. unfold hasTurn. by rewrite golfers_createGolfBall. }
  pose proof (startHole_single 0 w1 H1) as H2.
  destruct (_startHole 0 w1) as [w2|e w2]; simpl in *; [|done].
  destruct (broadcastGameState_frame w2) as [(Hm & _) Hg].
  revert H2. apply singleActiveTurn_shrink.
  - by rewrite Hm.
  - intros g. unfold hasTurn. by rewrite Hg.
Qed.

(** What [endGame] does to the turns: the current player's ends, nobody's
    starts. *)
Lemma endGame_turns w :
  let w' := stateOf (endGame w) in
  _players (manager w') = _players (manager w)
  /\ (forall g, hasTurn w' g = true -> hasTurn w g = true)
  /\ (_gameInProgress (manager w) = true ->
      forall cur, _getCurrentPlayer (manager w) = Some cur ->
                  hasTurn w' (golfEntity cur) = false).
Proof.
  unfold endGame. destruct (_gameInProgress (manager w)) eqn:Hprog; cbn [negb].
  2: { repeat split; try done. }
  cbv zeta.
  set (w1 := updManager (set_gameInProgress false) w).
  change (_getCurrentPlayer (manager w1)) with (_getCurrentPlayer (manager w)).
  set (w2 := match _getCurrentPlayer (manager w) with
             | Some cur => callGolfer (golfEntity cur) Golfer.endTurn w1
             | None => w1
             end).
  assert (_players (manager w2) = _players (manager w)
          /\ (forall g, hasTurn w2 g = true -> hasTurn w g = true)
          /\ forall cur, _getCurrentPlayer (manager w) = Some cur ->
                         hasTurn w2 (golfEntity cur) = false) as (Hp & Hmono & Hoff).
  { subst w2. destruct (_getCurrentPlayer (manager w)) as [cur|].
    - destruct (callGolfer_uiOnly (golfEntity cur) _ w1 uiOnly_endTurn)
        as [(Hm & _) Hg].
      split; [by rewrite Hm|]. split.
      + intros g. unfold hasTurn. rewrite Hg.
        destruct (decide (golfEntity cur = g)) as [<-|Hne].
        * by rewrite fn_lookup_insert.
        * by rewrite fn_lookup_insert_ne.
      + intros ? [= <-]. unfold hasTurn. by rewrite Hg, fn_lookup_insert.
    - by repeat split. }
  clearbody w2.
  destruct (_calculateFinalScores (manager w2)) as [|winner rest]; simpl.
  - by repeat split.
  - match goal with |- context [forEachPlayer ?f w2] =>
      destruct (forEachPlayer_frame f w2) as [(Hm & _) Hg];
        [intros; apply emit_frame|]
    end.
    unfold hasTurn. rewrite Hm, Hg. by repeat split.
Qed.

Lemma fire_single t w :
  singleActiveTurn w -> singleActiveTurn (stateOf (fire t w)).
Proof.
  intros Hw. destruct t; simpl.
  - by apply nextPlayerTurn_single.
  - by apply startHole_single.
  - destruct (negb (ballIsMoving w)); simpl; [by apply nextPlayerTurn_single|done].
Qed.

Lemma endGame_single w :
  singleActiveTurn w -> singleActiveTurn (stateOf (endGame w)).
Proof.
  destruct (endGame_turns w) as (Hp & Hmono & _).
  apply singleActiveTurn_shrink; [|done].
  intros g. unfold registered. by rewrite Hp.
Qed.

(** C9. From a store in which at most one registered player entity has an
    active turn, [startGame], a turn transfer ([_nextPlayerTurn], or any
    timer that runs), [removePlayer] and [endGame] lead to a store of which
    the same is true.  [_startPlayerTurn] gives the turn to the current
    player's entity and leaves no other registered entity with one, and
    [endGame] on a game in progress leaves the current player's entity
    without one. *)
Theorem single_active_turn (w : World) (p : Player) (t : Timer)
  (Hw : singleActiveTurn w) :
  singleActiveTurn (stateOf (startGame w))
  /\ singleActiveTurn (_nextPlayerTurn w)
  /\ singleActiveTurn (stateOf (fire t w))
  /\ singleActiveTurn (removePlayer p w)
  /\ singleActiveTurn (stateOf (endGame w))
  /\ (forall cur, _getCurrentPlayer (manager w) = Some cur ->
        hasTurn (_startPlayerTurn w) (golfEntity cur) = true
        /\ forall g, In g (registered (manager w)) -> g ≠ golfEntity cur ->
                     hasTurn (_startPlayerTurn w) g = false)
  /\ (_gameInProgress (manager w) = true ->
      forall cur, _getCurrentPlayer (manager w) = Some cur ->
                  hasTurn (stateOf (endGame w)) (golfEntity cur) = false).
Proof.
  split; [by apply startGame_single|].
  split; [by apply nextPlayerTurn_single|].
  split; [by apply fire_single|].
  split; [by apply removePlayer_single|].
  split; [by apply endGame_single|].
  split.
  - intros cur Hcur. apply getCurrentPlayer_some in Hcur as (k & Hidx & Hk).
    destruct (startPlayerTurn_spec w k cur Hidx Hk) as (_ & Hon & Hoff & _).
    by split.
  - apply endGame_turns.
Qed.

(** Two players have joined and a game has been started. *)
Lemma single_active_turn_witness :
  let w := stateOf (Server.run
                      [Server.JoinedWorld (mkPlayer "p1" "Alice");
                       Server.JoinedWorld (mkPlayer "p2" "Bob");
                       Server.StartGolf] Server.initial) in
  singleActiveTurn w
  /\ singleActiveTurn (_nextPlayerTurn w)
  /\ singleActiveTurn (stateOf (endGame w)).
Proof.
  intros w.
  assert (singleActiveTurn w) as Hw
    by (refine (bool_decide_unpack (singleActiveTurn w) _); vm_compute; exact I).
  pose proof (single_active_turn w (mkPlayer "p1" "Alice") StartNextHole Hw)
    as (_ & Hnext & _ & _ & Hend & _).
  exact (conj Hw (conj Hnext Hend)).
Defined.

(** *** Penalties *)

(** C3. When the ball (spawned, as a ball that collides is) enters a water
    hazard and there is a current player, the handler returns; the current
    player's entity has one more shot counted; the ball lies at the tee of
    the current hole with zero linear and angular velocity; every other
    player entity is as it was, and so is everything the manager has
    recorded. *)
Theorem water_hazard_penalty (w : World) (cur : PlayerScore) (b : nat)
  (hole : GolfHole)
  (Hcur : _getCurrentPlayer (manager w) = Some cur)
  (Hball : _golfBall (manager w) = Some b)
  (Hspawned : Ball.isSpawned (balls w b) = true)
  (Hhole : _holes (manager w) !! _currentHole (manager w) = Some hole) :
  let w' := stateOf (_handleWaterHazard w) in
  returns (_handleWaterHazard w) = true
  /\ Golfer._shotCount (golfers w' (golfEntity cur))
     = S (Golfer._shotCount (golfers w (golfEntity cur)))
  /\ Ball.position (balls w' b) = teePosition hole
  /\ Ball.linearVelocity (balls w' b) = zeroVec
  /\ Ball.angularVelocity (balls w' b) = zeroVec
  /\ (forall g, g ≠ golfEntity cur -> golfers w' g = golfers w g)
  /\ manager w' = manager w.
Proof.
  unfold _handleWaterHazard. rewrite Hcur. cbv zeta.
  destruct (callGolfer_uiOnly (golfEntity cur) _ w uiOnly_incrementShotCount)
    as [(Hm & _ & _ & Hb & _) Hg].
  set (w1 := callGolfer (golfEntity cur) Golfer.incrementShotCount w) in *.
  rewrite Hm, Hball, Hhole. cbn [seqRes stateOf returns].
  unfold callBall, Ball.resetToPosition, Ball.stopBall.
  rewrite Hb, Hspawned. cbn.
  rewrite !fn_lookup_insert.
  repeat split; try done.
  intros g Hne. by rewrite fn_lookup_insert_ne.
Qed.

(** The first player of a started game and the ball on the first tee. *)
Lemma water_hazard_penalty_witness :
  let w := stateOf (Server.run
                      [Server.JoinedWorld (mkPlayer "p1" "Alice");
                       Server.JoinedWorld (mkPlayer "p2" "Bob");
                       Server.StartGolf] Server.initial) in
  let w' := stateOf (_handleWaterHazard w) in
  returns (_handleWaterHazard w) = true
  /\ Golfer._shotCount (golfers w' 0) = S (Golfer._shotCount (golfers w 0))
  /\ Ball.position (balls w' 0) = mkVec (-10) 2 0.
Proof.
  intros w w'.
  pose proof (water_hazard_penalty w
                (mkScore (mkPlayer "p1" "Alice") 0 [] 0 0) 0
                (mkHole 1 "Starter Hole" 3 (mkVec (-10) 2 0) (mkVec 10 2 0) (1 # 2))
                eq_refl eq_refl eq_refl eq_refl) as (Hr & Hs & Hp & _).
  by repeat split.
Defined.

End ManagerFacts.

(** *** Turn order *)

Section TurnOrder.
Import Manager.

Lemma startPlayerTurn_frame w : sameButGolfers w (_startPlayerTurn w).
Proof.
  destruct (_getCurrentPlayer (manager w)) as [cur|] eqn:Hcur.
  - apply getCurrentPlayer_some in Hcur as (k & Hidx & Hk).
    by destruct (startPlayerTurn_spec w k cur Hidx Hk) as (Hf & _).
  - rewrite startPlayerTurn_none by done. apply sameButGolfers_refl.
Qed.

Lemma ballIsMoving_frame w w' :
  _golfBall (manager w') = _golfBall (manager w) -> balls w' = balls w ->
  ballIsMoving w' = ballIsMoving w.
Proof. unfold ballIsMoving. by intros -> ->. Qed.

(** A turn advance with the ball at rest: the index moves on, nothing else
    in the manager changes, and the ball stays at rest. *)
Lemma nextPlayerTurn_at_rest w :
  ballIsMoving w = false ->
  manager (_nextPlayerTurn w)
    = set_currentPlayerIndex
        (nextIndex (_currentPlayerIndex (manager w)) (length (_players (manager w))))
        (manager w)
  /\ ballIsMoving (_nextPlayerTurn w) = false.
Proof.
  intros Hrest. unfold _nextPlayerTurn. rewrite Hrest.
  match goal with |- context [_startPlayerTurn ?w0] =>
    destruct (startPlayerTurn_frame w0) as (Hm & _ & _ & Hb & _) end.
  split; [by rewrite Hm|].
  rewrite <- Hrest. apply ballIsMoving_frame; [by rewrite Hm|by rewrite Hb].
Qed.

Lemma iter_nextPlayerTurn w i k :
  _currentPlayerIndex (manager w) = Idx i ->
  ballIsMoving w = false ->
  0 < length (_players (manager w)) ->
  manager (Nat.iter (S k) _nextPlayerTurn w)
    = set_currentPlayerIndex
        (Idx ((i + S k) mod length (_players (manager w)))) (manager w)
  /\ ballIsMoving (Nat.iter (S k) _nextPlayerTurn w) = false.
Proof.
  intros Hidx Hrest Hn. induction k as [|k [IHm IHr]].
  - simpl. destruct (nextPlayerTurn_at_rest w Hrest) as [Hm Hr].
    split; [|done]. rewrite Hm, Hidx. unfold nextIndex.
    destruct (Nat.eqb_spec (length (_players (manager w))) 0); [lia|done].
  - change (Nat.iter (S (S k)) _nextPlayerTurn w)
      with (_nextPlayerTurn (Nat.iter (S k) _nextPlayerTurn w)).
    destruct (nextPlayerTurn_at_rest _ IHr) as [Hm Hr].
    split; [|done]. rewrite Hm, IHm. cbn [_currentPlayerIndex _players
      set_currentPlayerIndex]. unfold nextIndex.
    destruct (Nat.eqb_spec (length (_players (manager w))) 0); [lia|].
    unfold set_currentPlayerIndex. cbn. f_equal. f_equal.
    rewrite Nat.Div0.add_mod_idemp_l. f_equal. lia.
Qed.

Lemma rotate_nat_add_mod base offset len :
  rotate_nat_add base offset len = (base + offset) mod len.
Proof.
  unfold rotate_nat_add.
  by rewrite <- Nat2Z.inj_add, <- Nat2Z.inj_mod, Nat2Z.id.
Qed.

(** Apart from the index having become [NaN], turn order is round-robin:
    with the ball at rest, an advance moves the index on by one modulo the
    number of players, and as many advances as there are players make the
    players current in the order of the roster rotated to start after the
    present index, each of them once. *)
Lemma round_robin_indexed (w : World) (i : nat) :
  _currentPlayerIndex (manager w) = Idx i ->
  ballIsMoving w = false ->
  let ps := _players (manager w) in
  (0 < length ps ->
   _currentPlayerIndex (manager (_nextPlayerTurn w)) = Idx ((i + 1) mod length ps))
  /\ turnsOf (length ps) w = map Some (rotate (i + 1) ps)
  /\ Permutation (rotate (i + 1) ps) ps.
Proof.
  intros Hidx Hrest ps. split; [|split].
  - intros Hn. destruct (iter_nextPlayerTurn w i 0 Hidx Hrest Hn) as [Hm _].
    simpl in Hm. by rewrite Hm.
  - destruct (decide (length ps = 0)) as [H0|Hn].
    { apply nil_length_inv in H0. subst ps. rewrite H0.
      unfold rotate. by rewrite drop_nil, take_nil. }
    apply list_eq. intros j. unfold turnsOf.
    destruct (decide (j < length ps)) as [Hj|Hj].
    + assert (map (fun k => _getCurrentPlayer
                              (manager (Nat.iter k _nextPlayerTurn w)))
                  (seq 1 (length ps)) !! j
              = Some (_getCurrentPlayer
                        (manager (Nat.iter (S j) _nextPlayerTurn w)))) as ->.
      { change (map ?f ?l) with (f <$> l). rewrite list_lookup_fmap.
        rewrite lookup_seq_lt by done. done. }
      assert (map Some (rotate (i + 1) ps) !! j
              = Some (ps !! ((i + S j) mod length ps))) as ->.
      { change (map ?f ?l) with (f <$> l). rewrite list_lookup_fmap.
        rewrite lookup_rotate_r by done. rewrite rotate_nat_add_mod.
        replace (i + 1 + j) with (i + S j) by lia.
        destruct (lookup_lt_is_Some_2 ps ((i + S j) mod length ps)) as [x Hx].
        { apply Nat.mod_upper_bound. done. }
        by rewrite Hx. }
      f_equal.
      destruct (iter_nextPlayerTurn w i j Hidx Hrest) as [Hm _]; [fold ps; lia|].
      rewrite Hm. done.
    + rewrite !lookup_ge_None_2; [done| |].
      * rewrite length_map, length_rotate. lia.
      * rewrite length_map, length_seq. lia.
  - unfold rotate. rewrite Permutation_app_comm. by rewrite take_drop.
Qed.

End TurnOrder.

(** *** Holes and scores *)

Section Scoring.
Import Manager.

Lemma jsSet_lookup {A} (i : nat) (v : A) (l : list (option A)) :
  jsSet i v l !! i = Some (Some v).
Proof.
  unfold jsSet. destruct (Nat.ltb_spec i (length l)).
  - by apply list_lookup_insert_eq.
  - rewrite lookup_app_r by done.
    rewrite lookup_app_r by (rewrite length_replicate; lia).
    rewrite length_replicate. by rewrite Nat.sub_diag.
Qed.

(** What [_handleBallInHole] writes down: the shot count of the current
    player's entity, at the index of the current hole, and added to the
    total. *)
Lemma handleBallInHole_records w k cur :
  _gameInProgress (manager w) = true ->
  _currentPlayerIndex (manager w) = Idx k ->
  _players (manager w) !! k = Some cur ->
  let n := Golfer.getScore (golfers w (golfEntity cur)) in
  _players (manager (stateOf (_handleBallInHole w)))
    = <[k := {| player := player cur; golfEntity := golfEntity cur;
                strokes := jsSet (_currentHole (manager w)) n (strokes cur);
                totalStrokes := totalStrokes cur + n;
                currentHole := currentHole cur |}]> (_players (manager w)).
Proof.
  intros Hprog Hidx Hcur. unfold _handleBallInHole, _getCurrentPlayer.
  rewrite Hprog, Hidx. cbn [negb jsGet]. rewrite Hcur. cbv zeta.
  destruct (_holes (manager w) !! _currentHole (manager w)) as [hole|]; [|done].
  cbn [stateOf].
  match goal with |- context [forEachPlayer ?f ?w0] =>
    destruct (forEachPlayer_frame f w0) as [(Hm & _) _];
      [intros; apply emit_frame|] end.
  unfold setTimeout. cbn [manager emit set_timers]. by rewrite Hm.
Qed.

(** With a hole to complete, [_handleBallInHole] returns and arms the
    timer that starts the next hole. *)
Lemma handleBallInHole_schedules w cur hole :
  _gameInProgress (manager w) = true ->
  _getCurrentPlayer (manager w) = Some cur ->
  _holes (manager w) !! _currentHole (manager w) = Some hole ->
  returns (_handleBallInHole w) = true
  /\ timers (stateOf (_handleBallInHole w)) = timers w ++ [StartNextHole]
  /\ _currentHole (manager (stateOf (_handleBallInHole w)))
     = _currentHole (manager w).
Proof.
  intros Hprog Hcur Hhole.
  destruct (getCurrentPlayer_some _ _ Hcur) as (k & Hidx & Hk).
  unfold _handleBallInHole. rewrite Hprog, Hidx, Hcur. cbn [negb]. cbv zeta.
  rewrite Hhole. cbn [stateOf returns].
  match goal with |- context [forEachPlayer ?f ?w0] =>
    destruct (forEachPlayer_frame f w0) as [(Hm & _ & _ & _ & _ & Ht) _];
      [intros; apply emit_frame|] end.
  unfold setTimeout. cbn [manager timers emit set_timers]. by rewrite Hm, Ht.
Qed.

(** When the timer runs and a next hole exists, that hole is started: it
    becomes the current hole, the first player becomes the current
    player, and the ball is in the world. *)
Lemma startHole_next w holeIndex hole b :
  _holes (manager w) !! holeIndex = Some hole ->
  _golfBall (manager w) = Some b ->
  let w' := stateOf (_startHole holeIndex w) in
  returns (_startHole holeIndex w) = true
  /\ _currentHole (manager w') = holeIndex
  /\ _currentPlayerIndex (manager w') = Idx 0
  /\ Ball.isSpawned (balls w' b) = true.
Proof.
  intros Hhole Hball. unfold _startHole.
  pose proof (lookup_lt_Some _ _ _ Hhole) as Hlt.
  destruct (Nat.leb_spec (length (_holes (manager w))) holeIndex); [lia|].
  rewrite Hhole. cbn [stateOf returns]. cbv zeta.
  match goal with |- context [_startPlayerTurn ?w0] =>
    destruct (startPlayerTurn_frame w0) as (Hm & _ & _ & Hb & _);
    rewrite Hm, Hb;
    match w0 with forEachPlayer ?f ?w1 =>
      destruct (forEachPlayer_frame f w1) as [(Hm1 & _ & _ & Hb1 & _) _];
        [intros; apply emit_frame|]; rewrite Hm1, Hb1
    end
  end.
  cbn [manager updManager set_manager set_currentHole set_currentPlayerIndex
       _golfBall _currentHole _currentPlayerIndex balls].
  rewrite Hball. unfold callBall, Ball.spawn.
  cbn [manager emit set_balls balls _currentHole _currentPlayerIndex].
  rewrite fn_lookup_insert. by repeat split.
Qed.

(** Past the last hole [_startHole] throws, and leaves the store as it
    found it: in particular the game is still in progress. *)
Lemma startHole_past_last w holeIndex :
  length (_holes (manager w)) <= holeIndex ->
  _startHole holeIndex w
    = Threw (TypeError "this._endGame is not a function") w.
Proof.
  intros Hle. unfold _startHole.
  by destruct (Nat.leb_spec (length (_holes (manager w))) holeIndex); [|lia].
Qed.

(** *** Shots since the turn started *)

Lemma shotsIn_app (o1 o2 : list Golfer.Out) :
  Golfer.shotsIn (o1 ++ o2) = Golfer.shotsIn o1 + Golfer.shotsIn o2.
Proof. unfold Golfer.shotsIn. by rewrite list.filter_app, length_app. Qed.

Lemma perform_shot_count (op : Golfer.Op) (e : Golfer.GolfPlayerEntity) :
  Golfer.isStartTurn op = false ->
  let r := Golfer.perform op e in
  Golfer._shotCount r.1
    = Golfer._shotCount e + Golfer.shotsIn r.2
      + (if Golfer.isPenalty op then 1 else 0).
Proof.
  destruct op as [p| |ball| | |input facing|]; intros Hop; try done;
    cbn [Golfer.perform Golfer.isPenalty].
  - rewrite Nat.add_0_r. apply plus_n_O.
  - cbn. lia.
  - cbn. lia.
  - rewrite Nat.add_0_r. apply plus_n_O.
  - pose proof (tick_shot_spec e input facing) as Hspec. cbv zeta in Hspec.
    cbv zeta. unfold Golfer.shotsIn.
    destruct (Golfer.shotTaken input e) as [ball|].
    + destruct Hspec as (-> & -> & _). cbn. lia.
    + destruct Hspec as (-> & ->). cbn. lia.
  - cbn. lia.
Qed.

Lemma performAll_cons (op : Golfer.Op) (ops : list Golfer.Op)
  (e : Golfer.GolfPlayerEntity) :
  Golfer.performAll (op :: ops) e
    = let '(e1, o1) := Golfer.perform op e in
      let '(e2, o2) := Golfer.performAll ops e1 in (e2, o1 ++ o2).
Proof. done. Qed.

Lemma penaltiesIn_cons (op : Golfer.Op) (ops : list Golfer.Op) :
  Golfer.penaltiesIn (op :: ops)
    = (if Golfer.isPenalty op then 1 else 0) + Golfer.penaltiesIn ops.
Proof. by destruct op. Qed.

Lemma performAll_shot_count (ops : list Golfer.Op) (e : Golfer.GolfPlayerEntity) :
  forallb (fun op => negb (Golfer.isStartTurn op)) ops = true ->
  let r := Golfer.performAll ops e in
  Golfer._shotCount r.1
    = Golfer._shotCount e + Golfer.shotsIn r.2 + Golfer.penaltiesIn ops.
Proof.
  revert e. induction ops as [|op ops IH]; intros e Hops; cbv zeta.
  - cbn. lia.
  - cbn [forallb] in Hops. apply andb_true_iff in Hops as [Hop Hrest].
    apply negb_true_iff in Hop.
    rewrite performAll_cons.
    pose proof (perform_shot_count op e Hop) as H1. cbv zeta in H1.
    destruct (Golfer.perform op e) as [e1 o1]. cbn [fst snd] in H1.
    specialize (IH e1 Hrest). cbv zeta in IH.
    destruct (Golfer.performAll ops e1) as [e2 o2]. cbn [fst snd] in *.
    rewrite shotsIn_app, IH, H1, penaltiesIn_cons. lia.
Qed.

Lemma shotCount_startTurn (e : Golfer.GolfPlayerEntity) :
  Golfer._shotCount (Golfer.startTurn e).1 = 0.
Proof.
  unfold Golfer.startTurn, Golfer.andThen, Golfer._startAiming. cbn.
  by destruct (Golfer._currentBall e).
Qed.

(** C10. [startTurn] sets the shot count to [0].  Hence, when the current
    player's entity has been through [startTurn] and since then through
    any calls and ticks other than [startTurn], the score that
    [_handleBallInHole] records for the current hole, and adds to the
    total, is the number of shots hit plus the number of penalties taken
    since that [startTurn], whatever the count was before it. *)
Theorem shot_count_resets_on_turn_start
  (e : Golfer.GolfPlayerEntity) (ops : list Golfer.Op)
  (w : World) (k : nat) (cur : PlayerScore)
  (Hops : forallb (fun op => negb (Golfer.isStartTurn op)) ops = true)
  (Hprog : _gameInProgress (manager w) = true)
  (Hidx : _currentPlayerIndex (manager w) = Idx k)
  (Hcur : _players (manager w) !! k = Some cur)
  (Hent : golfers w (golfEntity cur)
          = (Golfer.performAll ops (Golfer.startTurn e).1).1) :
  let sinceStart :=
    Golfer.shotsIn (Golfer.performAll ops (Golfer.startTurn e).1).2
    + Golfer.penaltiesIn ops in
  Golfer._shotCount (Golfer.startTurn e).1 = 0
  /\ exists recorded,
      _players (manager (stateOf (_handleBallInHole w))) !! k = Some recorded
      /\ strokes recorded !! _currentHole (manager w) = Some (Some sinceStart)
      /\ totalStrokes recorded = totalStrokes cur + sinceStart.
Proof.
  intros sinceStart. split; [apply shotCount_startTurn|].
  pose proof (performAll_shot_count ops (Golfer.startTurn e).1 Hops) as Hcount.
  cbv zeta in Hcount. rewrite shotCount_startTurn in Hcount.
  rewrite (handleBallInHole_records w k cur Hprog Hidx Hcur).
  eexists. split.
  - apply list_lookup_insert_eq. by eapply lookup_lt_Some.
  - cbn [strokes totalStrokes]. unfold Golfer.getScore.
    rewrite Hent, Hcount. by rewrite jsSet_lookup.
Qed.

(** The first player of a two-player game has taken one shot, and the
    ball drops. *)
Lemma shot_count_resets_on_turn_start_witness :
  let e := (Golfer.setGolfBall 0
              (Golfer.spawn (mkVec 0 3 (-30)) (Golfer.new "p1" 100)).1).1 in
  let ops := [Golfer.OpTick Scenarios.press Scenarios.ahead;
              Golfer.OpTick Scenarios.release Scenarios.ahead] in
  let w := stateOf (Server.run
                      ([Server.JoinedWorld Scenarios.alice;
                        Server.JoinedWorld Scenarios.bob; Server.StartGolf]
                       ++ Scenarios.oneShot) Server.initial) in
  let sinceStart :=
    Golfer.shotsIn (Golfer.performAll ops (Golfer.startTurn e).1).2
    + Golfer.penaltiesIn ops in
  sinceStart = 1
  /\ exists recorded,
      _players (manager (stateOf (_handleBallInHole w))) !! 0 = Some recorded
      /\ strokes recorded !! _currentHole (manager w) = Some (Some sinceStart)
      /\ totalStrokes recorded
         = totalStrokes (mkScore Scenarios.alice 0 [] 0 0) + sinceStart.
Proof.
  intros e ops w sinceStart. split; [by vm_compute|].
  refine (proj2 (shot_count_resets_on_turn_start e ops w 0
                   (mkScore Scenarios.alice 0 [] 0 0) _ _ _ _ _));
    vm_compute; reflexivity.
Defined.

(** Over two turns on the first hole the first player hits the ball twice;
    the score recorded when the ball drops is the one shot of the second
    turn. *)
Example two_turns_one_stroke :
  let w := stateOf (Server.run Scenarios.twoTurns Server.initial) in
  length (filter (isShotExecutedBy 0) (trace w)) = 2
  /\ map (fun s => (username (player s), strokes s, totalStrokes s))
         (_players (manager w))
     = [("Alice", [Some 1], 1); ("Bob", [], 0)].
Proof. vm_compute. split; reflexivity. Qed.

(** *** The end of the round *)

(** C1. A single player plays the three holes of the course, one shot
    each.  The strokes of all three holes are recorded and the second and
    third hole are started after the first and second; after the third,
    the timer's call of [_startHole(3)] throws the [TypeError] of the call
    of the missing [_endGame]: the game is still in progress on the third
    hole, the player still has the turn, and no end-of-game message has
    been sent. *)
Theorem last_hole_does_not_end_game :
  let r := Server.run Scenarios.fullRound Server.initial in
  let w := stateOf r in
  thrown r = Some (TypeError "this._endGame is not a function")
  /\ map strokes (_players (manager w)) = [[Some 1; Some 1; Some 1]]
  /\ _currentHole (manager w) = 2
  /\ _gameInProgress (manager w) = true
  /\ hasTurn w 0 = true
  /\ existsb isGameEnd (trace w) = false.
Proof. vm_compute. repeat split; reflexivity. Qed.

(** C4. The ball touches the hole twice before the three-second timer has
    run: the player's one stroke is written to the same slot twice and
    added to the total twice, so the total is [2] and the sum of the
    recorded strokes is [1]. *)
Theorem double_drop_breaks_total :
  let w := stateOf (Server.run Scenarios.doubleDrop Server.initial) in
  map (fun s => (strokes s, sumStrokes (strokes s), totalStrokes s))
      (_players (manager w))
    = [([Some 1], 1, 2)]
  /\ ~ totalsAddUp (manager w).
Proof.
  intros w.
  assert (_players (manager w)
          = [mkScore Scenarios.alice 0 [Some 1] 2 0]) as Hps
    by (vm_compute; reflexivity).
  unfold totalsAddUp. rewrite Hps. split; [reflexivity|].
  intros Htotals. apply Forall_cons_1 in Htotals as [Hbad _].
  cbn in Hbad. discriminate Hbad.
Qed.

(** Each of the two drops has armed its own timer: when both have run,
    the hole after the next is the current one. *)
Example double_drop_skips_a_hole :
  let w := stateOf (Server.run
                      (Scenarios.doubleDrop
                       ++ [Server.TimerFires 1; Server.TimerFires 1])
                      Server.initial) in
  _currentHole (manager w) = 2 /\ timers w = [AfterShot].
Proof. vm_compute. split; reflexivity. Qed.

(** C2. A lone player shoots twice within a second and leaves; the first
    of the two pending timers advances the turn on the empty roster, and
    another player joins.  The roster now has one player and the index is
    [NaN].  The second timer advances the turn with the ball at rest: the
    index is [NaN] still, and the one registered player is not the current
    player, nor does any entity have the turn. *)
Theorem emptied_roster_stops_rotation :
  let w := stateOf (Server.run Scenarios.emptiedRoster Server.initial) in
  let w' := stateOf (Server.step (Server.TimerFires 0) w) in
  map (fun s => username (player s)) (_players (manager w)) = ["Bob"]
  /\ _currentPlayerIndex (manager w) = NaN
  /\ timers w = [AfterShot]
  /\ ballIsMoving w = false
  /\ _currentPlayerIndex (manager w') = NaN
  /\ _getCurrentPlayer (manager w') = None
  /\ hasTurn w' 1 = false
  /\ turnsOf 1 w = [None].
Proof. vm_compute. repeat split; reflexivity. Qed.

End Scoring.

(** *** Leaderboards *)

Section Leaderboards.
Import Manager.

Context {A : Type} (key : A -> nat).

Lemma insertBy_perm x l : Permutation (insertBy key x l) (x :: l).
Proof.
  induction l as [|y l IH]; simpl; [done|].
  destruct (key x <=? key y); [done|].
  rewrite IH. apply perm_swap.
Qed.

Lemma sortBy_perm l : Permutation (sortBy key l) l.
Proof.
  induction l as [|x l IH]; simpl; [done|].
  by rewrite insertBy_perm, IH.
Qed.

Lemma insertBy_sorted x l :
  StronglySorted (ascending key) l -> StronglySorted (ascending key) (insertBy key x l).
Proof.
  induction 1 as [|y l Hl IH Hy]; simpl.
  - repeat constructor.
  - destruct (Nat.leb_spec (key x) (key y)) as [Hxy|Hyx].
    + constructor; [by constructor|]. constructor; [done|].
      revert Hy. apply List.Forall_impl. unfold ascending. intros z Hz. lia.
    + constructor; [done|].
      rewrite insertBy_perm. constructor; [unfold ascending; lia|done].
Qed.

Lemma sortBy_sorted l : StronglySorted (ascending key) (sortBy key l).
Proof.
  induction l as [|x l IH]; simpl; [constructor|by apply insertBy_sorted].
Qed.

(** The head of a sorted roster has the fewest strokes of the roster. *)
Lemma sortBy_head_least l winner rest :
  sortBy key l = winner :: rest ->
  In winner l /\ forall a, In a l -> key winner <= key a.
Proof.
  intros Hsort. pose proof (sortBy_sorted l) as Hs.
  pose proof (sortBy_perm l) as Hp. rewrite Hsort in Hs, Hp.
  split.
  - eapply Permutation_in; [exact Hp|by left].
  - intros a Ha. apply Permutation_sym in Hp.
    apply (Permutation_in _ Hp) in Ha as [<-|Ha]; [done|].
    apply StronglySorted_inv in Hs as [_ Hall].
    rewrite List.Forall_forall in Hall. by apply Hall.
Qed.

End Leaderboards.

Section Results.
Import Manager.

(** The live leaderboard lists the players by ascending total. *)
Lemma leaderboard_ascending (m : GolfGameManager) :
  StronglySorted (ascending entryTotalStrokes) (_calculateCurrentLeaderboard m)
  /\ Permutation (map entryTotalStrokes (_calculateCurrentLeaderboard m))
                 (map totalStrokes (_players m)).
Proof.
  split; [apply sortBy_sorted|].
  unfold _calculateCurrentLeaderboard. rewrite sortBy_perm.
  by rewrite map_map.
Qed.

(** So do the final results, whose head is a player with the fewest
    strokes. *)
Lemma finalScores_ascending (m : GolfGameManager) :
  StronglySorted (ascending totalStrokes) (_calculateFinalScores m)
  /\ Permutation (_calculateFinalScores m) (_players m)
  /\ forall winner rest, _calculateFinalScores m = winner :: rest ->
       In winner (_players m)
       /\ forall s, In s (_players m) -> totalStrokes winner <= totalStrokes s.
Proof.
  split; [apply sortBy_sorted|]. split; [apply sortBy_perm|].
  intros winner rest. apply sortBy_head_least.
Qed.

Lemma trace_forEach_emit (msg : PlayerScore -> Effect) (w : World) :
  trace (forEachPlayer (fun _ playerScore => emit [msg playerScore]) w)
    = trace w ++ map msg (_players (manager w)).
Proof.
  unfold forEachPlayer.
  assert (forall (slots : list (nat * PlayerScore)) w0,
            trace (foldl (fun w '(_, s) => emit [msg s] w) w0 slots)
            = trace w0 ++ map (fun slot => msg slot.2) slots) as Hfold.
  { induction slots as [|[i s] slots IH]; intros w0; simpl.
    - by rewrite app_nil_r.
    - rewrite IH. simpl. by rewrite <- app_assoc. }
  rewrite Hfold. f_equal.
  generalize (_players (manager w)) as ps. intros ps.
  change (map ?f ?l) with (f <$> l). rewrite fmap_imap.
  apply list_eq. intros i. rewrite list_lookup_imap, list_lookup_fmap. done.
Qed.

Lemma filter_gameEnd_all (winner : string)
  (scores : list (string * nat * list (option nat))) (ps : list PlayerScore) :
  filter isGameEnd
    (map (fun s => SendData (id (player s)) (GolfGameEnd winner scores)) ps)
  = map (fun s => SendData (id (player s)) (GolfGameEnd winner scores)) ps.
Proof.
  induction ps as [|s ps IH]; [done|].
  change (map ?f (s :: ps)) with (f s :: map f ps).
  rewrite list.filter_cons. cbn [isGameEnd]. rewrite decide_True by done.
  by rewrite IH.
Qed.

(** The message [endGame] sends at the end of a game with players names
    as winner a registered player with the fewest total strokes, and lists
    the players by ascending total. *)
Lemma endGame_reports (w : World) :
  _gameInProgress (manager w) = true ->
  _players (manager w) <> [] ->
  exists winner rest,
    _calculateFinalScores (manager w) = winner :: rest
    /\ In winner (_players (manager w))
    /\ (forall s, In s (_players (manager w)) ->
                  totalStrokes winner <= totalStrokes s)
    /\ returns (endGame w) = true
    /\ filter isGameEnd (trace (stateOf (endGame w)))
       = filter isGameEnd (trace w)
         ++ map (fun s => SendData (id (player s))
                   (GolfGameEnd (username (player winner))
                      (map (fun score => (username (player score),
                                          totalStrokes score, strokes score))
                           (winner :: rest))))
                (_players (manager w)).
Proof.
  intros Hprog Hne.
  destruct (_calculateFinalScores (manager w)) as [|winner rest] eqn:Hfinal.
  { pose proof (sortBy_perm totalStrokes (_players (manager w))) as Hp.
    unfold _calculateFinalScores in Hfinal. rewrite Hfinal in Hp.
    apply Permutation_nil in Hp. done. }
  exists winner, rest. split; [done|].
  destruct (finalScores_ascending (manager w)) as (_ & _ & Hwin).
  destruct (Hwin winner rest Hfinal) as [Hin Hleast].
  split; [done|]. split; [done|].
  unfold endGame. rewrite Hprog. cbn [negb]. cbv zeta.
  set (w1 := updManager (set_gameInProgress false) w).
  set (w2 := match _getCurrentPlayer (manager w1) with
             | Some cur => callGolfer (golfEntity cur) Golfer.endTurn w1
             | None => w1
             end).
  assert (manager w2 = manager w1
          /\ filter isGameEnd (trace w2) = filter isGameEnd (trace w))
    as [Hm2 Ht2].
  { subst w2. destruct (_getCurrentPlayer (manager w1)) as [cur|]; [|done].
    destruct (callGolfer_uiOnly (golfEntity cur) _ w1 uiOnly_endTurn)
      as [(Hm & _) _].
    split; [done|]. unfold callGolfer. cbn. 
    destruct (Golfer._currentBall (golfers w (golfEntity cur)));
      cbn; by rewrite list.filter_app, app_nil_r. }
  clearbody w2.
  assert (_calculateFinalScores (manager w2) = winner :: rest) as ->
    by (by rewrite Hm2).
  cbn [returns stateOf]. split; [done|].
  rewrite trace_forEach_emit, list.filter_app, Ht2, Hm2. f_equal.
  apply filter_gameEnd_all.
Qed.

End Results.

(** *** Totals *)

Section Totals.
Import Manager.

Lemma sumStrokes_app (l1 l2 : list (option nat)) :
  sumStrokes (l1 ++ l2) = sumStrokes l1 + sumStrokes l2.
Proof.
  induction l1 as [|o l1 IH]; simpl; [done|]. rewrite IH. lia.
Qed.

Lemma sumStrokes_replicate_None (n : nat) : sumStrokes (replicate n None) = 0.
Proof. induction n as [|n IH]; simpl; [done|]. by rewrite IH. Qed.

Lemma sumStrokes_insert (l : list (option nat)) (i : nat) (old v : option nat) :
  l !! i = Some old ->
  sumStrokes (<[i := v]> l) + default 0 old = sumStrokes l + default 0 v.
Proof.
  revert i. induction l as [|o l IH]; intros [|i] Hi; simpl in *; try done.
  - injection Hi as ->. lia.
  - specialize (IH i Hi). lia.
Qed.

(** Writing a score to a slot: the sum grows by the score less what the
    slot held before. *)
Lemma sumStrokes_jsSet (i v : nat) (l : list (option nat)) :
  sumStrokes (jsSet i v l) + default 0 (mjoin (l !! i)) = sumStrokes l + v.
Proof.
  unfold jsSet. destruct (Nat.ltb_spec i (length l)) as [Hlt|Hge].
  - destruct (lookup_lt_is_Some_2 l i Hlt) as [old Hold]. rewrite Hold. simpl.
    by rewrite (sumStrokes_insert l i old (Some v) Hold).
  - rewrite (lookup_ge_None_2 l i Hge). simpl.
    rewrite !sumStrokes_app, sumStrokes_replicate_None. simpl. lia.
Qed.

(** The first time a player's score for the current hole is written, the
    totals keep adding up; it is the second write to a slot that breaks
    them. *)
Lemma handleBallInHole_totals (w : World) (k : nat) (cur : PlayerScore) :
  _gameInProgress (manager w) = true ->
  _currentPlayerIndex (manager w) = Idx k ->
  _players (manager w) !! k = Some cur ->
  mjoin (strokes cur !! _currentHole (manager w)) = None ->
  totalsAddUp (manager w) ->
  totalsAddUp (manager (stateOf (_handleBallInHole w))).
Proof.
  intros Hprog Hidx Hcur Hfresh Htotals. unfold totalsAddUp in *.
  rewrite (handleBallInHole_records w k cur Hprog Hidx Hcur).
  apply Forall_insert; [done|]. cbn [totalStrokes strokes].
  pose proof (sumStrokes_jsSet (_currentHole (manager w))
                (Golfer.getScore (golfers w (golfEntity cur))) (strokes cur))
    as Hsum.
  rewrite Hfresh in Hsum. simpl in Hsum.
  rewrite List.Forall_forall in Htotals.
  rewrite (Htotals cur); [lia|].
  apply list_elem_of_In, list_elem_of_lookup. by exists k.
Qed.

End Totals.

(** *** Every run of the server *)

Section Runs.
Import Manager Server.

Lemma singleActiveTurn_narrow w w' :
  (forall g, In g (registered (manager w')) -> hasTurn w' g = true ->
             In g (registered (manager w)) /\ hasTurn w g = true) ->
  singleActiveTurn w -> singleActiveTurn w'.
Proof.
  rewrite !singleActiveTurn_iff. intros Hnarrow H g1 g2 H1 H2 T1 T2.
  destruct (Hnarrow g1 H1 T1), (Hnarrow g2 H2 T2). by apply H.
Qed.

Lemma setTimeout_keeps t w :
  golfers (setTimeout t w) = golfers w /\ manager (setTimeout t w) = manager w.
Proof. done. Qed.

Lemma deliver_keeps g o w :
  golfers (deliver g o w) = golfers w /\ manager (deliver g o w) = manager w.
Proof.
  destruct o as [b d f|b p|u|n]; simpl.
  - by rewrite golfers_callBall, manager_callBall.
  - by rewrite golfers_callBall, manager_callBall.
  - done.
  - induction (replicate (shotListeners w g) ()) as [|x l IH]; simpl; [done|].
    destruct IH as [-> ->]. done.
Qed.

(** A method call on a player entity changes that entity, and neither any
    other nor the manager. *)
Lemma callGolfer_keeps g m w :
  golfers (callGolfer g m w) = <[g := (m (golfers w g)).1]> (golfers w)
  /\ manager (callGolfer g m w) = manager w.
Proof.
  unfold callGolfer. destruct (m (golfers w g)) as [e' outs]. simpl.
  set (w0 := set_golfers (<[g:=e']> (golfers w)) w).
  assert (golfers w0 = <[g:=e']> (golfers w) /\ manager w0 = manager w)
    as [H0 H1] by done.
  clearbody w0. revert w0 H0 H1.
  induction outs as [|o outs IH]; intros w0 H0 H1; simpl; [done|].
  destruct (deliver_keeps g o w0) as [Hg Hm]. apply IH; congruence.
Qed.

Lemma isPlayerTurn_tick input facing e :
  Golfer.isPlayerTurn (Golfer.onTickWithPlayerInput input facing e).1
  = Golfer.isPlayerTurn e.
Proof.
  destruct e as [pl maxP power charging aiming ball shots turn inWorld pos].
  destruct input as [sp_ f_ r_].
  unfold Golfer.onTickWithPlayerInput, Golfer.isPlayerTurn;
    cbn [Golfer._isPlayerTurn negb].
  destruct turn; [|reflexivity].
  destruct sp_, charging, aiming, ball as [ball|], inWorld, f_, r_; reflexivity.
Qed.

(** A call that leaves the turn flag of the entity alone leaves all turns
    and the manager alone. *)
Lemma callGolfer_same_turns g m w :
  (forall e, Golfer.isPlayerTurn (m e).1 = Golfer.isPlayerTurn e) ->
  (forall g', hasTurn (callGolfer g m w) g' = hasTurn w g')
  /\ manager (callGolfer g m w) = manager w.
Proof.
  intros Hm. destruct (callGolfer_keeps g m w) as [Hg Hman]. split; [|done].
  intros g'. unfold hasTurn. rewrite Hg.
  destruct (decide (g = g')) as [<-|Hne].
  - by rewrite fn_lookup_insert.
  - by rewrite fn_lookup_insert_ne.
Qed.

Lemma in_mapSet ps new s : In s (mapSet ps new) -> s = new \/ In s ps.
Proof.
  induction ps as [|p ps IH]; simpl.
  - intros [<-|[]]. by left.
  - destruct (String.eqb _ _); simpl.
    + intros [<-|Hin]; [by left|by right; right].
    + intros [<-|Hin]; [by right; left|].
      destruct (IH Hin) as [->|Hps]; [by left|by right; right].
Qed.

Lemma onJoinedWorld_single p w :
  singleActiveTurn w -> singleActiveTurn (onJoinedWorld p w).
Proof.
  unfold onJoinedWorld, addPlayer. cbv zeta.
  set (g := nextGolfer w).
  set (w1 := set_nextGolfer (S g) (set_golfers _ w)).
  destruct (callGolfer_same_turns g (Golfer.spawn (mkVec 0 3 (-30))) w1)
    as [Hturn Hman]; [done|].
  set (w2 := callGolfer g _ w1) in *.
  match goal with |- _ -> singleActiveTurn (_broadcastGameState ?w3) =>
    destruct (broadcastGameState_frame w3) as [(Hm & _) Hg];
    set (w4 := w3) in * end.
  apply singleActiveTurn_narrow. intros g' Hreg Ht.
  assert (hasTurn w2 g' = true) as Ht2.
  { revert Ht. unfold hasTurn. by rewrite Hg. }
  rewrite Hturn in Ht2.
  assert (g' <> g) as Hne.
  { intros ->. revert Ht2. unfold hasTurn. subst w1. simpl.
    by rewrite fn_lookup_insert. }
  assert (hasTurn w g' = true) as Ht0.
  { revert Ht2. unfold hasTurn. subst w1. simpl.
    by rewrite fn_lookup_insert_ne. }
  split; [|done].
  rewrite Hm in Hreg. unfold registered in Hreg. subst w4.
  cbn [manager set_shotListeners updManager set_manager _players set_players]
    in Hreg.
  rewrite Hman in Hreg. subst w1.
  cbn [manager set_nextGolfer set_golfers] in Hreg.
  apply in_map_iff in Hreg as (s & <- & Hs).
  apply in_mapSet in Hs as [->|Hs]; [done|].
  unfold registered. apply in_map_iff. by exists s.
Qed.

Lemma foldl_despawn_single gs w :
  singleActiveTurn w ->
  singleActiveTurn (foldl (fun w g => callGolfer g Golfer.despawn w) w gs).
Proof.
  revert w. induction gs as [|g gs IH]; intros w Hw; simpl; [done|].
  apply IH. destruct (callGolfer_same_turns g Golfer.despawn w) as [Ht Hm]; [done|].
  revert Hw. apply singleActiveTurn_shrink.
  - by rewrite Hm.
  - intros g'. by rewrite Ht.
Qed.

Lemma handleBallInHole_keeps w :
  let w' := stateOf (_handleBallInHole w) in
  golfers w' = golfers w /\ registered (manager w') = registered (manager w).
Proof.
  unfold _handleBallInHole.
  destruct (_gameInProgress (manager w)); cbn [negb]; [|done].
  destruct (_currentPlayerIndex (manager w)) as [k|] eqn:Hidx; [|done].
  destruct (_getCurrentPlayer (manager w)) as [cur|] eqn:Hcur; [|done].
  cbv zeta.
  assert (_players (manager w) !! k = Some cur) as Hk.
  { revert Hcur. unfold _getCurrentPlayer. by rewrite Hidx. }
  assert (map golfEntity
            (<[k := {| player := player cur; golfEntity := golfEntity cur;
                       strokes := jsSet (_currentHole (manager w))
                                    (Golfer.getScore (golfers w (golfEntity cur)))
                                    (strokes cur);
                       totalStrokes := totalStrokes cur
                                       + Golfer.getScore (golfers w (golfEntity cur));
                       currentHole := currentHole cur |}]> (_players (manager w)))
          = map golfEntity (_players (manager w))) as Hreg.
  { change (map ?f ?l) with (f <$> l). rewrite list_fmap_insert. cbn [golfEntity].
    apply list_insert_id. by rewrite list_lookup_fmap, Hk. }
  destruct (_holes (manager w) !! _currentHole (manager w)) as [hole|];
    cbn [stateOf].
  - match goal with |- context [forEachPlayer ?f ?w0] =>
      destruct (forEachPlayer_frame f w0) as [(Hm & _) Hg];
        [intros; apply emit_frame|] end.
    unfold setTimeout. cbn [golfers manager emit set_timers].
    rewrite Hg, Hm. by split.
  - by split.
Qed.

Lemma handleWaterHazard_keeps w :
  let w' := stateOf (_handleWaterHazard w) in
  (forall g, hasTurn w' g = hasTurn w g) /\ manager w' = manager w.
Proof.
  unfold _handleWaterHazard.
  destruct (_getCurrentPlayer (manager w)) as [cur|]; [|done]. cbv zeta.
  destruct (callGolfer_same_turns (golfEntity cur) Golfer.incrementShotCount w)
    as [Ht Hm]; [done|].
  set (w1 := callGolfer (golfEntity cur) Golfer.incrementShotCount w) in *.
  destruct (_golfBall (manager w1)) as [b|]; [|by split].
  destruct (_holes (manager w1) !! _currentHole (manager w1)) as [hole|];
    cbn [seqRes stateOf]; [|by split].
  unfold hasTurn in *. cbn [golfers manager emit].
  rewrite golfers_callBall, manager_callBall. by split.
Qed.

Lemma onBallEvent_single e w :
  singleActiveTurn w -> singleActiveTurn (stateOf (onBallEvent e w)).
Proof.
  destruct e; simpl.
  - destruct (handleBallInHole_keeps w) as [Hg Hr].
    apply singleActiveTurn_shrink; [by rewrite Hr|].
    intros g. unfold hasTurn. by rewrite Hg.
  - destruct (handleWaterHazard_keeps w) as [Ht Hm].
    apply singleActiveTurn_shrink; [by rewrite Hm|]. intros g. by rewrite Ht.
Qed.

Lemma foldl_seqRes_single {A} (h : A -> World -> Res) (l : list A) (r : Res) :
  (forall a w, singleActiveTurn w -> singleActiveTurn (stateOf (h a w))) ->
  singleActiveTurn (stateOf r) ->
  singleActiveTurn (stateOf (foldl (fun r a => seqRes r (h a)) r l)).
Proof.
  intros Hh. revert r. induction l as [|a l IH]; intros r Hr; simpl; [done|].
  apply IH. destruct r as [w|e w]; simpl in *; [by apply Hh|done].
Qed.

Lemma step_single ev w :
  singleActiveTurn w -> singleActiveTurn (stateOf (step ev w)).
Proof.
  intros Hw. destruct ev as [p|p| | |g input facing|b other started|b pos vel|k];
    simpl.
  - by apply onJoinedWorld_single.
  - unfold onLeftWorld. by apply foldl_despawn_single, removePlayer_single.
  - by apply startGame_single.
  - by apply endGame_single.
  - destruct (_ && _); simpl; [|done].
    destruct (callGolfer_same_turns g
                (Golfer.onTickWithPlayerInput input facing) w) as [Ht Hm].
    { intros e. apply isPlayerTurn_tick. }
    revert Hw. apply singleActiveTurn_shrink; [by rewrite Hm|].
    intros g'. by rewrite Ht.
  - destruct (_ && _); simpl; [|done].
    apply foldl_seqRes_single; [|done]. intros e w'. apply onBallEvent_single.
  - by destruct (_ && _).
  - destruct (timers w !! k) as [t|]; [|done]. by apply fire_single.
Qed.

(** In every store the server can reach, at most one registered player
    entity has an active turn. *)
Lemma run_single evs :
  singleActiveTurn (stateOf (run evs initial)).
Proof.
  unfold run. apply foldl_seqRes_single.
  - intros ev w. apply step_single.
  - by apply singleActiveTurn_iff.
Qed.

(** The course along a run. *)

Lemma sameCourse_courseOk m m' : sameCourse m m' -> courseOk m -> courseOk m'.
Proof. intros [Hh Hc] [H1 H2]. unfold courseOk. rewrite Hh, Hc. done. Qed.

Lemma sameCourse_trans m1 m2 m3 :
  sameCourse m1 m2 -> sameCourse m2 m3 -> sameCourse m1 m3.
Proof. intros [? ?] [? ?]. split; congruence. Qed.

Lemma nextPlayerTurn_course w :
  sameCourse (manager w) (manager (_nextPlayerTurn w)).
Proof.
  unfold _nextPlayerTurn. destruct (ballIsMoving w); [done|].
  match goal with |- context [_startPlayerTurn ?w0] =>
    destruct (startPlayerTurn_frame w0) as (Hm & _) end.
  by rewrite Hm.
Qed.

Lemma removePlayer_course p w :
  sameCourse (manager w) (manager (removePlayer p w)).
Proof.
  unfold removePlayer. cbv zeta.
  match goal with |- context [_broadcastGameState ?w0] =>
    destruct (broadcastGameState_frame w0) as [(Hm & _) _]; rewrite Hm end.
  destruct (_ && _); [|done].
  eapply sameCourse_trans; [|apply nextPlayerTurn_course]. done.
Qed.

Lemma startHole_course holeIndex w :
  courseOk (manager w) -> courseOk (manager (stateOf (_startHole holeIndex w))).
Proof.
  intros [Hholes Hcur]. unfold _startHole.
  destruct (Nat.leb_spec (length (_holes (manager w))) holeIndex); [done|].
  destruct (_holes (manager w) !! holeIndex) as [hole|]; [|done].
  cbn [stateOf]. cbv zeta.
  match goal with |- context [_startPlayerTurn ?w0] =>
    destruct (startPlayerTurn_frame w0) as (Hm & _);
    rewrite Hm;
    match w0 with forEachPlayer ?f ?w1 =>
      destruct (forEachPlayer_frame f w1) as [(Hm1 & _) _];
        [intros; apply emit_frame|]; rewrite Hm1
    end
  end.
  cbn [manager updManager set_manager].
  destruct (_golfBall _); [rewrite manager_callBall|]; by split.
Qed.

Lemma manager_createGolfBall w :
  sameCourse (manager w) (manager (_createGolfBall w)).
Proof.
  unfold _createGolfBall. cbv zeta.
  cbn [manager updManager set_manager set_nextBall set_balls].
  destruct (_golfBall (manager w)) as [old|]; [|done].
  destruct (Ball.isSpawned (balls w old)); [|done]. by rewrite manager_callBall.
Qed.

Lemma startGame_course w :
  courseOk (manager w) -> courseOk (manager (stateOf (startGame w))).
Proof.
  intros [Hholes Hcur]. unfold startGame.
  destruct (_ =? _)%nat; [done|].
  cbv zeta.
  match goal with |- context [_startHole 0 ?w0] => set (w1 := w0) end.
  assert (courseOk (manager w1)) as H1.
  { eapply sameCourse_courseOk; [apply manager_createGolfBall|].
    split; cbn; rewrite Hholes; [done|]. cbn. lia. }
  pose proof (startHole_course 0 w1 H1) as H2.
  destruct (_startHole 0 w1) as [w2|e w2]; cbn [seqRes stateOf] in *; [|done].
  destruct (broadcastGameState_frame w2) as [(Hm & _) _]. by rewrite Hm.
Qed.

Lemma endGame_course w :
  sameCourse (manager w) (manager (stateOf (endGame w))).
Proof.
  unfold endGame. destruct (_gameInProgress (manager w)); cbn [negb]; [|done].
  cbv zeta.
  set (w1 := updManager (set_gameInProgress false) w).
  set (w2 := match _getCurrentPlayer (manager w1) with
             | Some cur => callGolfer (golfEntity cur) Golfer.endTurn w1
             | None => w1
             end).
  assert (manager w2 = manager w1) as Hm2.
  { subst w2. destruct (_getCurrentPlayer (manager w1)) as [cur|]; [|done].
    by destruct (callGolfer_keeps (golfEntity cur) Golfer.endTurn w1). }
  clearbody w2.
  destruct (_calculateFinalScores (manager w2)); cbn [stateOf].
  - by rewrite Hm2.
  - match goal with |- context [forEachPlayer ?f w2] =>
      destruct (forEachPlayer_frame f w2) as [(Hm & _) _];
        [intros; apply emit_frame|] end.
    by rewrite Hm, Hm2.
Qed.

Lemma handleBallInHole_course w :
  sameCourse (manager w) (manager (stateOf (_handleBallInHole w))).
Proof.
  unfold _handleBallInHole.
  destruct (_gameInProgress (manager w)); cbn [negb]; [|done].
  destruct (_currentPlayerIndex (manager w)) as [k|]; [|done].
  destruct (_getCurrentPlayer (manager w)) as [cur|]; [|done].
  cbv zeta.
  destruct (_holes (manager w) !! _currentHole (manager w)) as [hole|];
    cbn [stateOf]; [|done].
  match goal with |- context [forEachPlayer ?f ?w0] =>
    destruct (forEachPlayer_frame f w0) as [(Hm & _) _];
      [intros; apply emit_frame|] end.
  unfold setTimeout. cbn [manager emit set_timers]. by rewrite Hm.
Qed.

Lemma onJoinedWorld_course p w :
  sameCourse (manager w) (manager (onJoinedWorld p w)).
Proof.
  unfold onJoinedWorld, addPlayer. cbv zeta.
  match goal with |- context [_broadcastGameState ?w0] =>
    destruct (broadcastGameState_frame w0) as [(Hm & _) _]; rewrite Hm end.
  cbn [manager set_shotListeners updManager set_manager].
  match goal with |- context [callGolfer ?g ?m ?w0] =>
    destruct (callGolfer_keeps g m w0) as [_ Hman]; rewrite Hman end.
  done.
Qed.

Lemma foldl_despawn_manager gs w :
  manager (foldl (fun w g => callGolfer g Golfer.despawn w) w gs) = manager w.
Proof.
  revert w. induction gs as [|g gs IH]; intros w; simpl; [done|].
  rewrite IH. by destruct (callGolfer_keeps g Golfer.despawn w).
Qed.

Lemma fire_course t w :
  courseOk (manager w) -> courseOk (manager (stateOf (fire t w))).
Proof.
  intros Hw. destruct t; simpl.
  - eapply sameCourse_courseOk; [apply nextPlayerTurn_course|done].
  - by apply startHole_course.
  - destruct (negb (ballIsMoving w)); simpl; [|done].
    eapply sameCourse_courseOk; [apply nextPlayerTurn_course|done].
Qed.

Lemma foldl_seqRes_inv {A} (P : World -> Prop) (h : A -> World -> Res)
  (l : list A) (r : Res) :
  (forall a w, P w -> P (stateOf (h a w))) ->
  P (stateOf r) -> P (stateOf (foldl (fun r a => seqRes r (h a)) r l)).
Proof.
  intros Hh. revert r. induction l as [|a l IH]; intros r Hr; simpl; [done|].
  apply IH. destruct r as [w|e w]; simpl in *; [by apply Hh|done].
Qed.

Lemma step_course ev w :
  courseOk (manager w) -> courseOk (manager (stateOf (step ev w))).
Proof.
  intros Hw. destruct ev as [p|p| | |g input facing|b other started|b pos vel|k];
    simpl.
  - eapply sameCourse_courseOk; [apply onJoinedWorld_course|done].
  - unfold onLeftWorld. rewrite foldl_despawn_manager.
    eapply sameCourse_courseOk; [apply removePlayer_course|done].
  - by apply startGame_course.
  - eapply sameCourse_courseOk; [apply endGame_course|done].
  - destruct (_ && _); simpl; [|done].
    by destruct (callGolfer_keeps g
                   (Golfer.onTickWithPlayerInput input facing) w) as [_ ->].
  - destruct (_ && _); simpl; [|done].
    apply (foldl_seqRes_inv (fun w => courseOk (manager w))); [|done].
    intros [] w' Hw'; simpl.
    + eapply sameCourse_courseOk; [apply handleBallInHole_course|done].
    + by destruct (handleWaterHazard_keeps w') as [_ ->].
  - by destruct (_ && _).
  - destruct (timers w !! k) as [t|]; [|done]. by apply fire_course.
Qed.

(** In every store the server can reach, the course is the default one
    and the current hole is one of its three holes. *)
Lemma run_course evs :
  courseOk (manager (stateOf (run evs initial))).
Proof.
  unfold run. apply (foldl_seqRes_inv (fun w => courseOk (manager w))).
  - intros ev w. apply step_course.
  - split; [done|]. cbn. lia.
Qed.

End Runs.


(** * Further properties *)

(** ** The player entity's state machine *)

Section GolferStateFacts.
Import Golfer GolferState.

Ltac settle_flags :=
  repeat split; intros;
  repeat match goal with
         | H : ?x = ?x -> _ |- _ => specialize (H eq_refl)
         | H : ?P -> _, H' : ?P |- _ => specialize (H H')
         | H : _ /\ _ |- _ => destruct H
         | H : ex _ |- _ => destruct H
         end;
  try discriminate; try congruence; try (eexists; reflexivity); eauto.

Lemma coherent_perform (op : Op) (e : GolfPlayerEntity) :
  coherent e -> coherent (perform op e).1.
Proof.
  destruct e as [pl maxP power charging aiming ball shots turn inWorld pos].
  unfold coherent, is_Some. cbn [_isCharging _currentPower _isPlayerTurn
    _currentBall _isAiming]. intros (Hpower & Hcharging & Haiming).
  destruct op as [p| |b| | |[sp_ f_ r_] facing|]; cbn [perform].
  - cbn. settle_flags.
  - cbn. settle_flags.
  - cbn. settle_flags.
  - unfold startTurn, andThen, _startAiming; cbn.
    destruct ball as [b|]; cbn; settle_flags.
  - cbn. settle_flags.
  - unfold onTickWithPlayerInput; cbn [_isPlayerTurn negb].
    destruct turn; [|cbn; settle_flags].
    destruct sp_, charging, aiming, ball as [b|], inWorld, f_, r_; cbn;
      settle_flags.
  - cbn. settle_flags.
Qed.

Lemma coherent_performAll (ops : list Op) (e : GolfPlayerEntity) :
  coherent e -> coherent (performAll ops e).1.
Proof.
  revert e. induction ops as [|op ops IH]; intros e He; [done|].
  rewrite performAll_cons.
  pose proof (coherent_perform op e He) as H1.
  destruct (perform op e) as [e1 o1]. specialize (IH e1 H1).
  by destruct (performAll ops e1) as [e2 o2].
Qed.

(** X1. Whatever is done to a player entity after its construction: when
    it is not charging its power is [0]; and it is charging or aiming only
    while it has the turn and a ball assigned. *)
Theorem entity_flags_coherent (player : string) (maxP : Q) (ops : list Op) :
  let e := (performAll ops (new player maxP)).1 in
  (_isCharging e = false -> _currentPower e = 0%Q)
  /\ (_isCharging e = true ->
      _isPlayerTurn e = true /\ is_Some (_currentBall e))
  /\ (_isAiming e = true ->
      _isPlayerTurn e = true /\ is_Some (_currentBall e)).
Proof.
  apply coherent_performAll. unfold coherent, is_Some. cbn. settle_flags.
Qed.

End GolferStateFacts.

(** ** Charging *)

Section ChargingFacts.
Import Meter64.

Lemma charged_filling (k : nat) : k <= 120 -> filling 100 k = true.
Proof.
  intros Hk.
  assert (forallb (filling 100) (seq 0 121) = true) as Hall
    by (vm_compute; reflexivity).
  rewrite forallb_forall in Hall. apply Hall, in_seq. lia.
Qed.

Lemma charged_full (k : nat) : 121 <= k -> charged 100 k = 100%float.
Proof.
  induction 1 as [|k Hk IH].
  - vm_compute. reflexivity.
  - change (charged 100 (S k)) with (_updatePower 100 (charged 100 k)).
    rewrite IH. vm_compute. reflexivity.
Qed.

(** X2. The power meter in the doubles of the program, at the [maxPower]
    of [100] the server gives every player: with the charge key held the
    power grows on each of the first 121 ticks and is below [100] up to
    and including the 120th, the rounded additions of [100 / 120] falling
    short of [100] there; from the 121st tick on it is [100] and stays
    there.  It is never negative.  A shot released after at most 120
    ticks of charging is hit with a force below [50], a shot released
    later with force [50]. *)
Theorem meter_full_at_tick_121 (k : nat) :
  let power := charged 100 in
  (k <= 120 ->
   PrimFloat.ltb (power k) 100 = true
   /\ PrimFloat.ltb (power k) (power (S k)) = true
   /\ PrimFloat.ltb (shotForce 100 (power k)) 50 = true)
  /\ (121 <= k ->
      power k = 100%float /\ power (S k) = 100%float
      /\ shotForce 100 (power k) = 50%float)
  /\ PrimFloat.leb 0 (power k) = true
  /\ PrimFloat.leb (power k) 100 = true.
Proof.
  intros power. subst power.
  split; [|split].
  - intros Hk. pose proof (charged_filling k Hk) as Hf. unfold filling in Hf.
    apply andb_true_iff in Hf as [Hf Hforce].
    apply andb_true_iff in Hf as [Hf Hgrow].
    apply andb_true_iff in Hf as [Hf _].
    apply andb_true_iff in Hf as [Hbelow _]. done.
  - intros Hk. rewrite !charged_full by lia.
    split; [done|]. split; [done|]. vm_compute. reflexivity.
  - destruct (le_lt_dec k 120) as [Hk|Hk].
    + pose proof (charged_filling k Hk) as Hf. unfold filling in Hf.
      apply andb_true_iff in Hf as [Hf _].
      apply andb_true_iff in Hf as [Hf _].
      apply andb_true_iff in Hf as [Hf Hpos].
      apply andb_true_iff in Hf as [_ Hmost]. done.
    + rewrite charged_full by lia. split; vm_compute; reflexivity.
Qed.

End ChargingFacts.

(** ** The reset key *)

Section ResetKey.
Import Manager Server.

Lemma tick_reset_outs (e : Golfer.GolfPlayerEntity) (input : Golfer.Input)
  (facing : Vector3) (b : nat) :
  Golfer._isPlayerTurn e = true -> Golfer.r input = true ->
  Golfer._currentBall e = Some b ->
  exists pre,
    (Golfer.onTickWithPlayerInput input facing e).2
    = pre ++ [Golfer.BallResetToPosition b
                {| vx := vx (Golfer.position e);
                   vy := vy (Golfer.position e) + 1;
                   vz := vz (Golfer.position e) |};
              Golfer.Ui Golfer.GolfMessageBallReset].
Proof.
  destruct e as [pl maxP power charging aiming ball shots turn inWorld pos].
  destruct input as [sp_ f_ r_].
  cbn [Golfer._isPlayerTurn Golfer.r Golfer._currentBall Golfer.position].
  intros -> -> ->. unfold Golfer.onTickWithPlayerInput.
  cbn [Golfer._isPlayerTurn negb Golfer.sp Golfer.f Golfer.r].
  destruct sp_, charging, aiming, inWorld, f_; cbn; eexists;
    match goal with |- ?l = _ => 
      first [ exact (eq_refl : l = [] ++ l)
            | exact (eq_refl : l = [_] ++ _)
            | exact (eq_refl : l = [_; _] ++ _)
            | exact (eq_refl : l = [_; _; _] ++ _)
            | exact (eq_refl : l = [_; _; _; _] ++ _)
            | exact (eq_refl : l = [_; _; _; _; _] ++ _)
            | exact (eq_refl : l = [_; _; _; _; _; _] ++ _)
            | exact (eq_refl : l = [_; _; _; _; _; _; _] ++ _) ]
    end.
Qed.

Lemma deliver_isSpawned (g : nat) (o : Golfer.Out) (w : World) (b : nat) :
  Ball.isSpawned (balls (deliver g o w) b) = Ball.isSpawned (balls w b).
Proof.
  destruct o as [b' d f|b' p|u|n]; simpl.
  - unfold callBall, Ball.hit.
    destruct (negb (Ball.isSpawned (balls w b'))); cbn;
      (destruct (decide (b' = b)) as [->|Hne];
       [by rewrite fn_lookup_insert|by rewrite fn_lookup_insert_ne]).
  - unfold callBall, Ball.resetToPosition, Ball.stopBall.
    destruct (Ball.isSpawned (balls w b')) eqn:Hs; cbn;
      (destruct (decide (b' = b)) as [->|Hne];
       [by rewrite fn_lookup_insert|by rewrite fn_lookup_insert_ne]).
  - done.
  - induction (replicate (shotListeners w g) ()) as [|x l IH]; simpl; done.
Qed.

Lemma foldl_deliver_isSpawned (g : nat) (outs : list Golfer.Out) (w : World)
  (b : nat) :
  Ball.isSpawned (balls (foldl (fun w o => deliver g o w) w outs) b)
  = Ball.isSpawned (balls w b).
Proof.
  revert w. induction outs as [|o outs IH]; intros w; simpl; [done|].
  by rewrite IH, deliver_isSpawned.
Qed.

Lemma callBall_resetToPosition (w : World) (b : nat) (p : Vector3) :
  Ball.isSpawned (balls w b) = true ->
  balls (callBall b (Ball.resetToPosition p) w) b
  = Ball.setPosition p
      (Ball.set_isRolling false
         (Ball.setAngularVelocity zeroVec
            (Ball.setLinearVelocity zeroVec (balls w b)))).
Proof.
  intros Hs. unfold callBall, Ball.resetToPosition, Ball.stopBall.
  rewrite Hs. cbn. by rewrite fn_lookup_insert.
Qed.

(** X3. A tick with the R key down, for a spawned player on their turn
    whose ball is in the world, leaves that ball one unit above the
    player's position with zero linear and angular velocity, so at rest,
    whatever else the tick did; the manager is as it was, and unless the
    same tick released a shot the player's shot count is unchanged: the
    reset costs no stroke. *)
Theorem reset_key_returns_ball (w : World) (g : nat) (input : Golfer.Input)
  (facing : Vector3) (b : nat)
  (Hg : g < nextGolfer w)
  (Hworld : Golfer.world (golfers w g) = true)
  (Hturn : Golfer._isPlayerTurn (golfers w g) = true)
  (Hr : Golfer.r input = true)
  (Hball : Golfer._currentBall (golfers w g) = Some b)
  (Hspawned : Ball.isSpawned (balls w b) = true) :
  let e := golfers w g in
  let w' := stateOf (step (TickWithPlayerInput g input facing) w) in
  Ball.position (balls w' b)
    = {| vx := vx (Golfer.position e); vy := vy (Golfer.position e) + 1;
         vz := vz (Golfer.position e) |}
  /\ Ball.linearVelocity (balls w' b) = zeroVec
  /\ Ball.angularVelocity (balls w' b) = zeroVec
  /\ Ball.isMoving (balls w' b) = false
  /\ manager w' = manager w
  /\ (Golfer.shotTaken input e = None ->
      Golfer._shotCount (golfers w' g) = Golfer._shotCount e).
Proof.
  intros e w'. subst w'. cbn [step].
  destruct (Nat.ltb_spec g (nextGolfer w)) as [_|]; [|lia].
  rewrite Hworld. cbn [andb stateOf].
  destruct (callGolfer_keeps g (Golfer.onTickWithPlayerInput input facing) w)
    as [Hgolfers Hmanager].
  assert (Ball.position (balls (callGolfer g
            (Golfer.onTickWithPlayerInput input facing) w) b)
          = {| vx := vx (Golfer.position e); vy := vy (Golfer.position e) + 1;
               vz := vz (Golfer.position e) |}
          /\ Ball.linearVelocity (balls (callGolfer g
               (Golfer.onTickWithPlayerInput input facing) w) b) = zeroVec
          /\ Ball.angularVelocity (balls (callGolfer g
               (Golfer.onTickWithPlayerInput input facing) w) b) = zeroVec)
    as (Hpos & Hlin & Hang).
  { unfold callGolfer.
    destruct (tick_reset_outs e input facing b Hturn Hr Hball) as [pre Houts].
    fold e. destruct (Golfer.onTickWithPlayerInput input facing e) as [e' outs].
    cbn [snd] in Houts. subst outs. rewrite foldl_app.
    set (w1 := foldl _ _ pre).
    assert (Ball.isSpawned (balls w1 b) = true) as Hs1.
    { subst w1. by rewrite foldl_deliver_isSpawned. }
    cbn [foldl deliver emit balls].
    by rewrite (callBall_resetToPosition w1 b _ Hs1). }
  repeat split; try done.
  - unfold Ball.isMoving, Ball.getBallVelocity. by rewrite Hlin.
  - intros Hnone. rewrite Hgolfers, fn_lookup_insert.
    pose proof (tick_shot_spec e input facing) as Hspec. cbv zeta in Hspec.
    rewrite Hnone in Hspec. by destruct Hspec.
Qed.

(** The first player of a started game presses R. *)
Lemma reset_key_returns_ball_witness :
  let w := stateOf (run [JoinedWorld Scenarios.alice; StartGolf] initial) in
  let w' := stateOf (step (TickWithPlayerInput 0
                             (Golfer.mkInput false false true) Scenarios.ahead) w) in
  Ball.position (balls w' 0)
    = {| vx := vx (Golfer.position (golfers w 0));
         vy := vy (Golfer.position (golfers w 0)) + 1;
         vz := vz (Golfer.position (golfers w 0)) |}
  /\ Ball.isMoving (balls w' 0) = false.
Proof.
  intros w w'.
  assert (0 < nextGolfer w) as Hg by (vm_compute; lia).
  destruct (reset_key_returns_ball w 0 (Golfer.mkInput false false true)
              Scenarios.ahead 0 Hg eq_refl eq_refl eq_refl eq_refl eq_refl)
    as (Hpos & _ & _ & Hrest & _).
  exact (conj Hpos Hrest).
Defined.

End ResetKey.

(** ** The ball *)

Section BallFacts.

(** X4. A ball that has been despawned ignores [hit], [stopBall] and
    [resetToPosition]: no engine call, no change.  A ball that has been
    spawned at a position is there and passes a hit on as one impulse;
    after [resetToPosition] it is at the new position and at rest, and
    resetting or stopping it again changes nothing. *)
Theorem ball_lifecycle (b : Ball.GolfBallEntity) (p q direction : Vector3)
  (force : Q) :
  let off := (Ball.despawn b).1 in
  let on := (Ball.spawn p b).1 in
  let reset := (Ball.resetToPosition q on).1 in
  Ball.hit direction force off = (off, [])
  /\ Ball.stopBall off = (off, [])
  /\ Ball.resetToPosition q off = (off, [])
  /\ Ball.position on = p
  /\ (Ball.hit direction force on).2
     = [Ball.ApplyImpulse
          {| vx := vx direction * force * Ball.ballMass b;
             vy := vy direction * force * Ball.ballMass b;
             vz := vz direction * force * Ball.ballMass b |}]
  /\ Ball.position reset = q
  /\ Ball.isMoving reset = false
  /\ Ball._isRolling reset = false
  /\ (Ball.resetToPosition q reset).1 = reset
  /\ (Ball.stopBall reset).1 = reset.
Proof. destruct b. by repeat split. Qed.

Import BallFactory.

(** X5. [createStandardBall(options)] builds the ball that
    [new GolfBallEntity(options)] builds, whatever the options.
    [createRangeBall(options)] builds a ball, not spawned, whose radius,
    restitution, friction and mass are the given numbers where the
    options give them, the range presets [0.021], [0.5], [0.4] and
    [0.048] where the options lack the key, and the constructor's
    defaults [0.021], [0.6], [0.3] and [0.045] where the options carry
    the key with the value [undefined]; so its radius is the standard
    one unless the caller gives another. *)
Theorem ball_factories (options : option GolfBallEntityOptions) :
  let o := spread options in
  createStandardBall options = construct o
  /\ Ball.ballRadius (entity (createRangeBall options))
     = resolved (21 # 1000) (21 # 1000) (ballRadius o)
  /\ Ball.ballRestitution (entity (createRangeBall options))
     = resolved (5 # 10) (6 # 10) (ballRestitution o)
  /\ Ball.ballFriction (entity (createRangeBall options))
     = resolved (4 # 10) (3 # 10) (ballFriction o)
  /\ Ball.ballMass (entity (createRangeBall options))
     = resolved (48 # 1000) (45 # 1000) (ballMass o)
  /\ bodyGravityScale (createRangeBall options) = bodyGravityScale (construct o)
  /\ Ball.isSpawned (entity (createRangeBall options)) = false
  /\ construct empty = mkBuilt Ball.new 1.
Proof.
  intros o. subst o.
  destruct options as [[radius restitution friction mass gravity]|];
    cbn; [|by repeat split].
  destruct radius, restitution, friction, mass; by repeat split.
Qed.

End BallFacts.

(** ** The roster *)

Section RosterFacts.
Import Manager Roster.

Lemma get_mapSet_same (ps : list PlayerScore) (s : PlayerScore) :
  get (id (player s)) (mapSet ps s) = Some s.
Proof.
  unfold get. induction ps as [|p ps IH]; simpl.
  - by rewrite String.eqb_refl.
  - destruct (String.eqb (id (player p)) (id (player s))) eqn:E; simpl.
    + by rewrite String.eqb_refl.
    + by rewrite E.
Qed.

Lemma get_mapSet_other (ps : list PlayerScore) (s : PlayerScore) (key : string) :
  key <> id (player s) -> get key (mapSet ps s) = get key ps.
Proof.
  intros Hne. unfold get. induction ps as [|p ps IH]; simpl.
  - destruct (String.eqb_spec (id (player s)) key); [congruence|done].
  - destruct (String.eqb_spec (id (player p)) (id (player s))) as [E|E]; simpl.
    + destruct (String.eqb_spec (id (player s)) key); [congruence|].
      destruct (String.eqb_spec (id (player p)) key); [congruence|done].
    + by rewrite IH.
Qed.

Lemma get_None (ps : list PlayerScore) (key : string) :
  get key ps = None <-> ~ In key (ids ps).
Proof.
  unfold get, ids. induction ps as [|p ps IH]; simpl; [tauto|].
  destruct (String.eqb_spec (id (player p)) key); [|tauto].
  split; [done|]. intros H. destruct H. by left.
Qed.

Lemma mapSet_absent (ps : list PlayerScore) (s : PlayerScore) :
  get (id (player s)) ps = None -> mapSet ps s = ps ++ [s].
Proof.
  unfold get. induction ps as [|p ps IH]; simpl; [done|].
  destruct (String.eqb (id (player p)) (id (player s))); [done|].
  intros H. by rewrite IH.
Qed.

Lemma mapSet_present (ps : list PlayerScore) (s : PlayerScore) :
  get (id (player s)) ps <> None -> ids (mapSet ps s) = ids ps.
Proof.
  unfold get, ids. induction ps as [|p ps IH]; simpl; [done|].
  destruct (String.eqb_spec (id (player p)) (id (player s))) as [E|E]; simpl.
  - intros _. by rewrite E.
  - intros H. by rewrite IH.
Qed.

Lemma NoDup_mapSet (ps : list PlayerScore) (s : PlayerScore) :
  NoDup (ids ps) -> NoDup (ids (mapSet ps s)).
Proof.
  intros Hnd. destruct (get (id (player s)) ps) eqn:E.
  - rewrite mapSet_present; [done|by rewrite E].
  - rewrite mapSet_absent by done. unfold ids. rewrite map_app. simpl.
    apply list.NoDup_app. split; [done|]. split; [|apply NoDup_singleton].
    intros key Hkey Hs. apply list_elem_of_singleton in Hs as ->.
    apply get_None in E. apply E. by apply list_elem_of_In.
Qed.

Lemma ids_mapDelete (ps : list PlayerScore) (key : string) :
  ids (mapDelete ps key) = filter (fun k => k <> key) (ids ps).
Proof.
  unfold ids, mapDelete. induction ps as [|p ps IH]; [done|].
  rewrite list.filter_cons. cbn [map]. rewrite list.filter_cons.
  destruct (decide (id (player p) <> key)); cbn [map]; by rewrite IH.
Qed.

Lemma get_mapDelete_same (ps : list PlayerScore) (key : string) :
  get key (mapDelete ps key) = None.
Proof.
  apply get_None. rewrite ids_mapDelete, <- list_elem_of_In, list_elem_of_filter.
  tauto.
Qed.

Lemma get_mapDelete_other (ps : list PlayerScore) (key key' : string) :
  key' <> key -> get key' (mapDelete ps key) = get key' ps.
Proof.
  intros Hne. unfold get, mapDelete. induction ps as [|p ps IH]; [done|].
  rewrite list.filter_cons. simpl.
  destruct (decide (id (player p) <> key)) as [Hp|Hp]; simpl.
  - by rewrite IH.
  - apply dec_stable in Hp.
    destruct (String.eqb_spec (id (player p)) key'); [congruence|done].
Qed.

Lemma mapDelete_mapSet (ps : list PlayerScore) (s : PlayerScore) :
  mapDelete (mapSet ps s) (id (player s)) = mapDelete ps (id (player s)).
Proof.
  unfold mapDelete. induction ps as [|p ps IH]; simpl.
  - rewrite list.filter_cons. by rewrite decide_False by (by intros H).
  - destruct (String.eqb_spec (id (player p)) (id (player s))) as [E|E].
    + rewrite !list.filter_cons.
      rewrite decide_False by (by intros H).
      by rewrite decide_False by (by intros H).
    + rewrite !list.filter_cons. rewrite IH. done.
Qed.

Lemma mapDelete_absent (ps : list PlayerScore) (key : string) :
  get key ps = None -> mapDelete ps key = ps.
Proof.
  unfold get, mapDelete. induction ps as [|p ps IH]; [done|]. cbn [List.find].
  rewrite list.filter_cons.
  destruct (String.eqb_spec (id (player p)) key) as [E|E]; [done|].
  intros Hnone. rewrite decide_True by done. by rewrite IH.
Qed.

Lemma mapDelete_present (ps : list PlayerScore) (key : string) :
  get key ps <> None -> length (mapDelete ps key) < length ps.
Proof.
  unfold get, mapDelete. induction ps as [|p ps IH]; [done|]. cbn [List.find].
  rewrite list.filter_cons.
  destruct (String.eqb_spec (id (player p)) key) as [E|E].
  - intros _. rewrite decide_False by (by intros H). cbn [length].
    pose proof (length_filter (fun s => id (player s) <> key) ps). lia.
  - intros Hsome. rewrite decide_True by done. cbn [length].
    specialize (IH Hsome). lia.
Qed.

Lemma NoDup_mapDelete (ps : list PlayerScore) (key : string) :
  NoDup (ids ps) -> NoDup (ids (mapDelete ps key)).
Proof. intros H. rewrite ids_mapDelete. by apply list.NoDup_filter. Qed.

(** X6. [addPlayer] is [Map.set] on the roster: afterwards the player's
    id maps to a new entry with no strokes, every other id maps to what it
    mapped to, a new id has been appended at the end and a known id has
    kept its place (its score is reset); ids stay distinct.  The player
    entity has one more ['golf-shot'] listener; no entity, turn index or
    game flag changes. *)
Theorem addPlayer_is_map_set (w : World) (p : Player) (golfEntity : nat) :
  let ps := _players (manager w) in
  let w' := addPlayer p golfEntity w in
  let ps' := _players (manager w') in
  get (id p) ps' = Some (fresh p golfEntity)
  /\ (forall key, key <> id p -> get key ps' = get key ps)
  /\ (get (id p) ps = None -> ps' = ps ++ [fresh p golfEntity])
  /\ (get (id p) ps <> None -> ids ps' = ids ps)
  /\ (NoDup (ids ps) -> NoDup (ids ps'))
  /\ shotListeners w' golfEntity = S (shotListeners w golfEntity)
  /\ golfers w' = golfers w
  /\ _currentPlayerIndex (manager w') = _currentPlayerIndex (manager w)
  /\ _gameInProgress (manager w') = _gameInProgress (manager w).
Proof.
  intros ps w' ps'. subst w' ps'. unfold addPlayer. cbv zeta.
  match goal with |- context [_broadcastGameState ?w0] =>
    destruct (broadcastGameState_frame w0) as [(Hm & _ & Hl & _) Hg];
    rewrite !Hm, Hg, Hl end.
  cbn [manager golfers shotListeners set_shotListeners updManager set_manager
       _players set_players _currentPlayerIndex _gameInProgress].
  fold ps. change (mkScore p golfEntity [] 0 0) with (fresh p golfEntity).
  split; [apply (get_mapSet_same ps (fresh p golfEntity))|].
  split; [intros key Hne; by apply (get_mapSet_other ps (fresh p golfEntity))|].
  split; [apply (mapSet_absent ps (fresh p golfEntity))|].
  split; [apply (mapSet_present ps (fresh p golfEntity))|].
  split; [apply NoDup_mapSet|].
  split; [by rewrite fn_lookup_insert|].
  split; [reflexivity|]. split; reflexivity.
Qed.

Lemma jsGet_mapDelete (ps : list PlayerScore) (key : string) (i : JsIndex)
  (s : PlayerScore) :
  jsGet (mapDelete ps key) i = Some s -> id (player s) <> key.
Proof.
  destruct i as [k|]; [|done]. simpl. intros Hk.
  apply list_elem_of_lookup_2 in Hk. unfold mapDelete in Hk.
  by apply list_elem_of_filter in Hk as [? _].
Qed.

(** The leaving player's entry is gone before [removePlayer] asks whether
    it was that player's turn: the branch that passes the turn on never
    runs. *)
Lemma removePlayer_eq (p : Player) (w : World) :
  removePlayer p w
  = _broadcastGameState
      (updManager (fun m => set_players (mapDelete (_players m) (id p)) m) w).
Proof.
  unfold removePlayer. cbv zeta.
  set (w1 := updManager _ w).
  destruct (_getCurrentPlayer (manager w1)) as [s|] eqn:Hcur.
  - apply jsGet_mapDelete in Hcur. cbn [fmap option_fmap option_map].
    rewrite bool_decide_eq_false_2 by congruence.
    by rewrite andb_false_r.
  - cbn. by rewrite andb_false_r.
Qed.

Lemma players_removePlayer (p : Player) (w : World) :
  _players (manager (removePlayer p w)) = mapDelete (_players (manager w)) (id p).
Proof.
  rewrite removePlayer_eq.
  match goal with |- context [_broadcastGameState ?w0] =>
    destruct (broadcastGameState_frame w0) as [(Hm & _) _]; rewrite Hm end.
  done.
Qed.

(** X7. [removePlayer] is [Map.delete] on the roster: afterwards the
    player's id maps to nothing, every other id maps to what it mapped to,
    and the others keep their order.  That is all it does besides the
    broadcast: the entry of the leaving player is gone before the method
    asks whether it was that player's turn, so the turn is never passed
    on; the turn index, every player entity, the balls and the timers are
    as they were.  Removing a player right after adding them leaves the
    roster that removing them without the addition leaves: the roster as
    it was when the id was not on it, and otherwise the roster without
    the entry the id had before. *)
Theorem removePlayer_is_map_delete (w : World) (p : Player) (golfEntity : nat) :
  let ps := _players (manager w) in
  let w' := removePlayer p w in
  let ps' := _players (manager w') in
  ps' = filter (fun s => id (player s) <> id p) ps
  /\ get (id p) ps' = None
  /\ (forall key, key <> id p -> get key ps' = get key ps)
  /\ (NoDup (ids ps) -> NoDup (ids ps'))
  /\ _currentPlayerIndex (manager w') = _currentPlayerIndex (manager w)
  /\ golfers w' = golfers w
  /\ balls w' = balls w
  /\ timers w' = timers w
  /\ _players (manager (removePlayer p (addPlayer p golfEntity w))) = ps'
  /\ (get (id p) ps = None ->
      _players (manager (removePlayer p (addPlayer p golfEntity w))) = ps)
  /\ (get (id p) ps <> None ->
      length (_players (manager (removePlayer p (addPlayer p golfEntity w))))
      < length ps).
Proof.
  intros ps w' ps'. subst w' ps'. rewrite !removePlayer_eq.
  repeat match goal with |- context [_broadcastGameState ?w0] =>
    let Hm := fresh "Hm" in let Hg := fresh "Hg" in
    let Hb := fresh "Hb" in let Ht := fresh "Ht" in
    destruct (broadcastGameState_frame w0) as [(Hm & _ & _ & Hb & _ & Ht) Hg];
    rewrite ?Hm, ?Hg, ?Hb, ?Ht; clear Hm Hg Hb Ht end.
  cbn [manager golfers updManager set_manager _players set_players
       _currentPlayerIndex balls timers].
  fold ps.
  split; [reflexivity|].
  split; [apply get_mapDelete_same|].
  split; [intros key Hne; by apply get_mapDelete_other|].
  split; [apply NoDup_mapDelete|].
  split; [reflexivity|]. split; [reflexivity|].
  split; [reflexivity|]. split; [reflexivity|].
  assert (mapDelete (_players (manager (addPlayer p golfEntity w))) (id p)
          = mapDelete ps (id p)) as ->.
  { unfold addPlayer. cbv zeta.
    match goal with |- context [_broadcastGameState ?w0] =>
      destruct (broadcastGameState_frame w0) as [(Hm & _) _]; rewrite Hm end.
    cbn [manager set_shotListeners updManager set_manager _players set_players].
    apply (mapDelete_mapSet ps (mkScore p golfEntity [] 0 0)). }
  split; [reflexivity|]. split.
  - apply mapDelete_absent.
  - apply mapDelete_present.
Qed.

End RosterFacts.

(** ** Starting a game *)

Section GameStart.
Import Manager Roster.

Lemma startPlayerTurn_current (w : World) (k : nat) (cur : PlayerScore) (b : nat) :
  _currentPlayerIndex (manager w) = Idx k ->
  _players (manager w) !! k = Some cur ->
  _golfBall (manager w) = Some b ->
  let e := golfers (_startPlayerTurn w) (golfEntity cur) in
  Golfer._currentBall e = Some b
  /\ Golfer._shotCount e = 0
  /\ Golfer._isPlayerTurn e = true
  /\ Golfer._isAiming e = true.
Proof.
  intros Hidx Hcur Hball. unfold _startPlayerTurn, _getCurrentPlayer.
  rewrite Hidx. simpl. rewrite Hcur.
  unfold forEachPlayer.
  change (fun (w0 : World) '(i, s) =>
            if bool_decide (i ≠ k) then callGolfer (golfEntity s) Golfer.endTurn w0
            else w0) with (endOthers k).
  set (slots := imap pair (_players (manager w))).
  destruct (foldl_endOthers k slots w) as ((Hm1 & _) & _).
  set (w1 := foldl (endOthers k) w slots) in *.
  rewrite Hm1, Hball.
  destruct (callGolfer_uiOnly (golfEntity cur) _ w1 (uiOnly_setGolfBall b))
    as [_ Hg2].
  set (w2 := callGolfer (golfEntity cur) (Golfer.setGolfBall b) w1) in *.
  destruct (callGolfer_uiOnly (golfEntity cur) _ w2 uiOnly_startTurn) as [_ Hg3].
  set (w3 := callGolfer (golfEntity cur) Golfer.startTurn w2) in *.
  destruct (broadcastGameState_frame w3) as [_ Hg4].
  rewrite Hg4, Hg3, fn_lookup_insert, Hg2, fn_lookup_insert.
  by destruct (golfers w1 (golfEntity cur)).
Qed.

(** The steps of [startGame] on a non-empty roster with a first hole, up
    to the start of the first turn. *)
Lemma startGame_steps (w : World) (first : PlayerScore)
  (rest : list PlayerScore) (hole : GolfHole) :
  _players (manager w) = first :: rest ->
  _holes (manager w) !! 0 = Some hole ->
  let b := nextBall w in
  exists w5,
    startGame w = Done (_broadcastGameState (_startPlayerTurn w5))
    /\ manager w5
       = {| _players := map cleared (first :: rest);
            _currentPlayerIndex := Idx 0; _currentHole := 0;
            _gameInProgress := true; _holes := _holes (manager w);
            _golfBall := Some b |}
    /\ nextBall w5 = S b
    /\ balls w5 b
       = Ball.setPosition (teePosition hole) (Ball.set_isSpawned true Ball.new)
    /\ (forall old, _golfBall (manager w) = Some old -> old <> b ->
                    Ball.isSpawned (balls w5 old) = false)
    /\ golfers w5 = golfers w
    /\ timers w5 = timers w.
Proof.
  intros Hroster Hhole b. unfold startGame. rewrite Hroster.
  cbn [length Nat.eqb]. cbv zeta.
  set (w1 := updManager _ (updManager _ (updManager _ (updManager _ w)))).
  assert (manager w1
          = {| _players := map cleared (first :: rest);
               _currentPlayerIndex := Idx 0; _currentHole := 0;
               _gameInProgress := true; _holes := _holes (manager w);
               _golfBall := _golfBall (manager w) |}) as Hm1.
  { subst w1. cbn. by rewrite Hroster. }
  assert (balls w1 = balls w /\ nextBall w1 = nextBall w
          /\ golfers w1 = golfers w /\ timers w1 = timers w)
    as (Hb1 & Hn1 & Hg1 & Ht1) by done.
  set (w2 := _createGolfBall w1).
  assert (manager w2 = set_golfBall (Some b) (manager w1)
          /\ nextBall w2 = S b
          /\ balls w2 b = Ball.new
          /\ (forall old, _golfBall (manager w) = Some old -> old <> b ->
                          Ball.isSpawned (balls w2 old) = false)
          /\ golfers w2 = golfers w /\ timers w2 = timers w)
    as (Hm2 & Hn2 & Hb2 & Hold2 & Hg2 & Ht2).
  { subst w2. unfold _createGolfBall. cbv zeta. rewrite Hm1. cbn [_golfBall].
    destruct (_golfBall (manager w)) as [old|] eqn:Hold.
    - destruct (Ball.isSpawned (balls w1 old)) eqn:Hsp.
      + unfold callBall. cbn [Ball.despawn].
        cbn [manager updManager set_manager set_nextBall set_balls emit nextBall
             balls golfers timers].
        rewrite Hm1, Hn1. fold b. rewrite fn_lookup_insert.
        split; [done|]. split; [done|]. split; [done|]. split; [|done].
        intros old' [= <-] Hne. rewrite fn_lookup_insert_ne by done.
        by rewrite fn_lookup_insert.
      + cbn [manager updManager set_manager set_nextBall set_balls nextBall balls
             golfers timers].
        rewrite Hm1, Hn1. fold b. rewrite fn_lookup_insert.
        split; [done|]. split; [done|]. split; [done|]. split; [|done].
        intros old' [= <-] Hne. by rewrite fn_lookup_insert_ne.
    - cbn [manager updManager set_manager set_nextBall set_balls nextBall balls
           golfers timers].
      rewrite Hm1, Hn1. fold b. rewrite fn_lookup_insert.
      split; [done|]. split; [done|]. split; [done|]. split; done. }
  clearbody w2.
  unfold _startHole. rewrite Hm2, Hm1. cbn [_holes set_golfBall].
  rewrite Hhole.
  pose proof (lookup_lt_Some _ _ _ Hhole) as Hlen.
  destruct (Nat.leb_spec (length (_holes (manager w))) 0) as [Hle|_]; [lia|].
  cbv zeta.
  set (w3 := updManager (set_currentHole 0) w2).
  assert (_golfBall (manager w3) = Some b) as Hgb3.
  { subst w3. cbn. by rewrite Hm2. }
  rewrite Hgb3.
  set (w4 := updManager (set_currentPlayerIndex (Idx 0))
               (callBall b (Ball.spawn (teePosition hole)) w3)).
  assert (manager w4
          = {| _players := map cleared (first :: rest);
               _currentPlayerIndex := Idx 0; _currentHole := 0;
               _gameInProgress := true; _holes := _holes (manager w);
               _golfBall := Some b |}) as Hm4.
  { subst w4 w3. cbn [manager updManager set_manager].
    rewrite manager_callBall. cbn [manager updManager set_manager].
    by rewrite Hm2, Hm1. }
  assert (nextBall w4 = S b
          /\ balls w4 b
             = Ball.setPosition (teePosition hole)
                 (Ball.set_isSpawned true Ball.new)
          /\ (forall old, old <> b -> balls w4 old = balls w2 old)
          /\ golfers w4 = golfers w /\ timers w4 = timers w)
    as (Hn4 & Hb4 & Hold4 & Hg4 & Ht4).
  { subst w4 w3. unfold callBall. cbn. rewrite Hb2, fn_lookup_insert.
    split; [done|]. split; [done|]. split; [|done].
    intros old Hne. by rewrite fn_lookup_insert_ne. }
  clearbody w4.
  match goal with |- context [forEachPlayer ?f w4] =>
    destruct (forEachPlayer_frame f w4)
      as [(Hm5 & _ & _ & Hb5 & Hn5 & Ht5) Hg5];
      [intros; apply emit_frame|];
    set (w5 := forEachPlayer f w4) in * end.
  exists w5. cbn [seqRes]. split; [done|].
  rewrite Hm5, Hn5, Hb5, Hg5, Ht5.
  split; [done|]. split; [done|]. split; [done|]. split; [|done].
  intros old Ho Hne. rewrite Hold4 by done. by apply Hold2.
Qed.

(** X8. [startGame] with at least one player and a first hole: the call
    returns with the game in progress on hole [0], every score reset, and
    a ball that did not exist before, spawned at rest on the first tee;
    the ball of an earlier game is no longer spawned.  The first player
    of the roster has the turn, aims at the new ball and has no strokes;
    no other registered entity has the turn. *)
Theorem startGame_begins (w : World) (first : PlayerScore)
  (rest : list PlayerScore) (hole : GolfHole)
  (Hroster : _players (manager w) = first :: rest)
  (Hhole : _holes (manager w) !! 0 = Some hole) :
  let b := nextBall w in
  let r := startGame w in
  let w' := stateOf r in
  returns r = true
  /\ _gameInProgress (manager w') = true
  /\ _currentHole (manager w') = 0
  /\ _currentPlayerIndex (manager w') = Idx 0
  /\ _players (manager w') = map cleared (first :: rest)
  /\ _golfBall (manager w') = Some b
  /\ nextBall w' = S b
  /\ balls w' b
     = Ball.setPosition (teePosition hole) (Ball.set_isSpawned true Ball.new)
  /\ (forall old, _golfBall (manager w) = Some old -> old <> b ->
                  Ball.isSpawned (balls w' old) = false)
  /\ hasTurn w' (golfEntity first) = true
  /\ Golfer._currentBall (golfers w' (golfEntity first)) = Some b
  /\ Golfer.getScore (golfers w' (golfEntity first)) = 0
  /\ (forall s, In s rest -> golfEntity s <> golfEntity first ->
                hasTurn w' (golfEntity s) = false).
Proof.
  intros b r w'. subst r w'.
  destruct (startGame_steps w first rest hole Hroster Hhole)
    as (w5 & -> & Hm4 & Hn4 & Hb4 & Hold4 & _).
  fold b in Hm4, Hn4, Hb4, Hold4.
  cbn [stateOf returns].
  destruct (startPlayerTurn_spec w5 0 (cleared first))
    as ((Hm6 & _ & _ & Hb6 & Hn6 & _) & Hturn & Hothers & _);
    [by rewrite Hm4|by rewrite Hm4|].
  destruct (startPlayerTurn_current w5 0 (cleared first) b)
    as (Hball & Hcount & _); [by rewrite Hm4|by rewrite Hm4|by rewrite Hm4|].
  set (w6 := _startPlayerTurn w5) in *.
  destruct (broadcastGameState_frame w6) as [(Hm7 & _ & _ & Hb7 & Hn7 & _) Hg7].
  unfold hasTurn in *. rewrite Hm7, Hb7, Hn7, Hg7, Hm6, Hb6, Hn6, Hm4.
  cbn [_gameInProgress _currentHole _currentPlayerIndex _players _golfBall].
  cbn [cleared golfEntity] in Hturn, Hball, Hcount, Hothers.
  split; [done|]. split; [done|]. split; [done|]. split; [done|].
  split; [done|]. split; [done|]. split; [done|]. split; [done|].
  split; [done|]. split; [done|]. split; [done|]. split; [done|].
  intros s Hs Hne. apply Hothers; [|done].
  rewrite Hm4. unfold registered. cbn [_players].
  apply in_map_iff. exists (cleared s). split; [done|].
  apply in_map_iff. exists s. split; [done|]. by right.
Qed.

End GameStart.

Lemma startGame_begins_witness :
  let w := Server.onJoinedWorld Scenarios.bob
             (Server.onJoinedWorld Scenarios.alice Server.initial) in
  Manager.hasTurn (Manager.stateOf (Manager.startGame w)) 0 = true
  /\ Manager.hasTurn (Manager.stateOf (Manager.startGame w)) 1 = false
  /\ Manager._golfBall (Manager.manager (Manager.stateOf (Manager.startGame w)))
     = Some 0.
Proof.
  intros w.
  destruct (startGame_begins w
              (Roster.fresh Scenarios.alice 0) [Roster.fresh Scenarios.bob 1]
              (Manager.mkHole 1 "Starter Hole" 3 (mkVec (-10) 2 0) (mkVec 10 2 0)
                 (1 # 2)))
    as (_ & _ & _ & _ & _ & Hball & _ & _ & _ & Hturn & _ & _ & Hothers).
  - vm_compute. reflexivity.
  - vm_compute. reflexivity.
  - split; [exact Hturn|]. split; [|exact Hball].
    apply (Hothers (Roster.fresh Scenarios.bob 1)).
    + left. reflexivity.
    + simpl. lia.
Defined.

(** ** Ending a game *)

Section GameEnd.
Import Manager Roster.

Lemma endGame_manager (w : World) :
  manager (stateOf (endGame w))
  = if _gameInProgress (manager w) then set_gameInProgress false (manager w)
    else manager w.
Proof.
  unfold endGame. destruct (_gameInProgress (manager w)); cbn [negb]; [|done].
  cbv zeta.
  set (w1 := updManager (set_gameInProgress false) w).
  set (w2 := match _getCurrentPlayer (manager w1) with
             | Some cur => callGolfer (golfEntity cur) Golfer.endTurn w1
             | None => w1
             end).
  assert (manager w2 = manager w1) as Hm2.
  { subst w2. destruct (_getCurrentPlayer (manager w1)) as [cur|]; [|done].
    by destruct (callGolfer_keeps (golfEntity cur) Golfer.endTurn w1). }
  clearbody w2.
  destruct (_calculateFinalScores (manager w2)); cbn [stateOf].
  - by rewrite Hm2.
  - match goal with |- context [forEachPlayer ?f w2] =>
      destruct (forEachPlayer_frame f w2) as [(Hm & _) _];
        [intros; apply emit_frame|] end.
    by rewrite Hm, Hm2.
Qed.

Lemma endGame_thrown (w : World) :
  thrown (endGame w)
  = if _gameInProgress (manager w) && bool_decide (_players (manager w) = [])
    then Some (TypeError "winner is undefined") else None.
Proof.
  unfold endGame. destruct (_gameInProgress (manager w)); cbn [negb andb]; [|done].
  cbv zeta.
  set (w1 := updManager (set_gameInProgress false) w).
  set (w2 := match _getCurrentPlayer (manager w1) with
             | Some cur => callGolfer (golfEntity cur) Golfer.endTurn w1
             | None => w1
             end).
  assert (manager w2 = manager w1) as Hm2.
  { subst w2. destruct (_getCurrentPlayer (manager w1)) as [cur|]; [|done].
    by destruct (callGolfer_keeps (golfEntity cur) Golfer.endTurn w1). }
  clearbody w2. unfold _calculateFinalScores. rewrite Hm2.
  change (_players (manager w1)) with (_players (manager w)).
  pose proof (sortBy_perm totalStrokes (_players (manager w))) as Hperm.
  destruct (sortBy totalStrokes (_players (manager w))) as [|winner others].
  - apply Permutation_nil in Hperm. rewrite Hperm. done.
  - rewrite bool_decide_eq_false_2; [done|].
    intros Hnil. rewrite Hnil in Hperm. symmetry in Hperm.
    by apply Permutation_nil_cons in Hperm.
Qed.

(** X9. [endGame] ends a game once.  Whatever the state, afterwards no
    game is in progress and the roster is as it was; nobody has gained
    the turn.  A second [endGame] and a later ball-in-hole event do
    nothing at all.  Without a game in progress the call itself does
    nothing.  It throws exactly when a game is in progress and the roster
    is empty, after it has cleared the flag. *)
Theorem endGame_once (w : World) :
  let r := endGame w in
  let w' := stateOf r in
  _gameInProgress (manager w') = false
  /\ _players (manager w') = _players (manager w)
  /\ (forall g, hasTurn w' g = true -> hasTurn w g = true)
  /\ endGame w' = Done w'
  /\ _handleBallInHole w' = Done w'
  /\ (_gameInProgress (manager w) = false -> r = Done w)
  /\ (thrown r = Some (TypeError "winner is undefined")
      <-> _gameInProgress (manager w) = true /\ _players (manager w) = [])
  /\ (returns r = false -> thrown r = Some (TypeError "winner is undefined")).
Proof.
  intros r w'. subst r w'.
  pose proof (endGame_manager w) as Hm.
  pose proof (endGame_thrown w) as Ht.
  destruct (endGame_turns w) as (Hps & Hturns & _).
  assert (_gameInProgress (manager (stateOf (endGame w))) = false) as Hoff.
  { rewrite Hm. by destruct (_gameInProgress (manager w)) eqn:E. }
  split; [done|]. split; [done|]. split; [done|].
  split; [unfold endGame at 1; by rewrite Hoff|].
  split; [unfold _handleBallInHole; by rewrite Hoff|].
  split; [intros Hnot; unfold endGame; by rewrite Hnot|].
  split.
  - rewrite Ht. destruct (_gameInProgress (manager w)); cbn [andb].
    + case_bool_decide; split; try done. by intros [_ ?].
    + split; [done|]. by intros [? _].
  - destruct (endGame w) as [w1|e w1] eqn:E; cbn; [done|].
    intros _. cbn in Ht. rewrite Ht.
    destruct (_ && _); [done|]. done.
Qed.

End GameEnd.

(** ** The game state broadcast *)

Section Broadcast.
Import Manager Roster.

Lemma NoDup_ids_lookup (ps : list PlayerScore) (i k : nat) (c s : PlayerScore) :
  NoDup (ids ps) -> ps !! i = Some c -> ps !! k = Some s ->
  id (player c) = id (player s) -> i = k.
Proof.
  intros Hnd Hi Hk Heq.
  apply (NoDup_lookup (ids ps) i k (id (player s))); [done| |].
  - unfold ids. change (map ?f ?l) with (f <$> l).
    by rewrite list_lookup_fmap, Hi, <- Heq.
  - unfold ids. change (map ?f ?l) with (f <$> l).
    by rewrite list_lookup_fmap, Hk.
Qed.

(** X10. [_broadcastGameState] changes neither the manager nor any
    entity, ball or timer.  When the ids of the roster are distinct it
    sends one message to each player, in roster order, all with the same
    game state, and tells exactly the player at the current turn index
    that it is their turn; with the index off the roster ([NaN] or past
    its end) nobody is told so. *)
Theorem broadcast_tells_the_turn (w : World)
  (Hids : NoDup (ids (_players (manager w)))) :
  let m := manager w in
  let w' := _broadcastGameState w in
  sameButGolfers w w'
  /\ golfers w' = golfers w
  /\ trace w'
     = trace w
       ++ imap (fun k s =>
                  SendData (id (player s))
                    (GolfGameStateMsg (getGameState m)
                       (isAt (_currentPlayerIndex m) k)))
               (_players m).
Proof.
  intros m w'. subst w'.
  destruct (broadcastGameState_frame w) as [Hframe Hg].
  split; [done|]. split; [done|].
  unfold _broadcastGameState. cbv zeta. rewrite trace_forEach_emit. f_equal.
  fold m. change (map ?f ?l) with (f <$> l). rewrite <- imap_const.
  apply imap_ext. intros k s Hk. cbn. do 2 f_equal.
  unfold _getCurrentPlayer, jsGet, isAt.
  destruct (_currentPlayerIndex m) as [i|]; [|done].
  destruct (_players m !! i) as [c|] eqn:Hi; cbn.
  - destruct (Nat.eqb_spec i k) as [->|Hne].
    + rewrite Hi in Hk. injection Hk as ->. by rewrite bool_decide_eq_true_2.
    + rewrite bool_decide_eq_false_2; [done|]. intros [= Heq].
      apply Hne. by apply (NoDup_ids_lookup (_players m) i k c s).
  - destruct (Nat.eqb_spec i k) as [->|Hne]; [congruence|done].
Qed.

End Broadcast.

Lemma broadcast_tells_the_turn_witness :
  let w := Server.onJoinedWorld Scenarios.bob
             (Server.onJoinedWorld Scenarios.alice Server.initial) in
  Manager.golfers (Manager._broadcastGameState w) = Manager.golfers w.
Proof.
  intros w.
  refine (proj1 (proj2 (broadcast_tells_the_turn w _))).
  apply (bool_decide_unpack (NoDup (Roster.ids (Manager._players (Manager.manager w))))).
  vm_compute. exact I.
Defined.

(** ** The rotation of turns *)

Section TurnRotation.
Import Manager Roster.

Lemma iter_nextPlayerTurn_index (w : World) (i k : nat) :
  _currentPlayerIndex (manager w) = Idx i ->
  ballIsMoving w = false ->
  0 < length (_players (manager w)) ->
  let wk := Nat.iter k _nextPlayerTurn w in
  exists j,
    _currentPlayerIndex (manager wk) = Idx j
    /\ (j + 1) mod length (_players (manager w))
       = (i + S k) mod length (_players (manager w))
    /\ _players (manager wk) = _players (manager w)
    /\ ballIsMoving wk = false.
Proof.
  intros Hidx Hrest Hn. destruct k as [|k].
  - by exists i.
  - destruct (iter_nextPlayerTurn w i k Hidx Hrest Hn) as [Hm Hb].
    exists ((i + S k) mod length (_players (manager w))). cbv zeta.
    rewrite Hm. cbn [_currentPlayerIndex _players set_currentPlayerIndex].
    split; [done|]. split; [|done].
    rewrite Nat.Div0.add_mod_idemp_l. f_equal. lia.
Qed.

(** X11. Turns go round.  From a state whose turn index is a number,
    with the ball at rest and a non-empty roster, [k + 1] turn advances
    make the player [k + 1] places further on, counted round the roster,
    the current one: the roster is unchanged, that player's entity has
    the turn, and no other registered entity has. *)
Theorem turns_go_round (w : World) (i k : nat)
  (Hidx : _currentPlayerIndex (manager w) = Idx i)
  (Hrest : ballIsMoving w = false)
  (Hroster : 0 < length (_players (manager w))) :
  let ps := _players (manager w) in
  let w' := Nat.iter (S k) _nextPlayerTurn w in
  exists cur,
    ps !! ((i + S k) mod length ps) = Some cur
    /\ _currentPlayerIndex (manager w') = Idx ((i + S k) mod length ps)
    /\ _getCurrentPlayer (manager w') = Some cur
    /\ _players (manager w') = ps
    /\ hasTurn w' (golfEntity cur) = true
    /\ (forall g, In g (registered (manager w)) -> g <> golfEntity cur ->
                  hasTurn w' g = false).
Proof.
  intros ps w'. subst w'.
  destruct (lookup_lt_is_Some_2 ps ((i + S k) mod length ps)) as [cur Hcur].
  { apply Nat.mod_upper_bound. subst ps. lia. }
  exists cur. split; [done|].
  destruct (iter_nextPlayerTurn w i k Hidx Hrest Hroster) as [Hm _].
  destruct (iter_nextPlayerTurn_index w i k Hidx Hrest Hroster)
    as (j & Hj & Hmod & Hps & Hb).
  rewrite Hm. cbn [_currentPlayerIndex _players set_currentPlayerIndex].
  unfold _getCurrentPlayer.
  cbn [_currentPlayerIndex _players set_currentPlayerIndex jsGet].
  fold ps. split; [done|]. split; [done|]. split; [done|].
  change (Nat.iter (S k) _nextPlayerTurn w)
    with (_nextPlayerTurn (Nat.iter k _nextPlayerTurn w)).
  set (wk := Nat.iter k _nextPlayerTurn w) in *.
  unfold _nextPlayerTurn. rewrite Hb. cbv zeta.
  set (w1 := updManager _ wk).
  assert (_currentPlayerIndex (manager w1) = Idx ((i + S k) mod length ps)) as H1.
  { subst w1. cbn. rewrite Hj, Hps. cbn [nextIndex]. fold ps.
    destruct (Nat.eqb_spec (length ps) 0) as [E|E]; [subst ps; lia|].
    fold ps in Hmod. by rewrite Hmod. }
  assert (_players (manager w1) = ps) as H2 by (subst w1; cbn; by rewrite Hps).
  destruct (startPlayerTurn_spec w1 _ cur H1) as (_ & Hturn & Hothers & _);
    [by rewrite H2|].
  split; [done|]. intros g Hg Hne. apply Hothers; [|done].
  unfold registered in *. by rewrite H2.
Qed.

End TurnRotation.

Lemma turns_go_round_witness :
  let w := Manager.stateOf
             (Manager.startGame
                (Server.onJoinedWorld Scenarios.bob
                   (Server.onJoinedWorld Scenarios.alice Server.initial))) in
  exists cur,
    Manager._getCurrentPlayer
      (Manager.manager (Nat.iter 3 Manager._nextPlayerTurn w)) = Some cur
    /\ Manager.hasTurn (Nat.iter 3 Manager._nextPlayerTurn w)
         (Manager.golfEntity cur) = true.
Proof.
  intros w.
  destruct (turns_go_round w 0 2) as (cur & _ & _ & Hcur & _ & Hturn & _).
  - vm_compute. reflexivity.
  - vm_compute. reflexivity.
  - vm_compute. lia.
  - exists cur. split; [exact Hcur|exact Hturn].
Defined.

(** ** The leaderboard and the winner *)

Section Ranking.
Import Manager Roster.

Lemma filter_insertBy {A} (key : A -> nat) (n : nat) (x : A) (l : list A) :
  filter (fun y => key y = n) (insertBy key x l)
  = filter (fun y => key y = n) (x :: l).
Proof.
  induction l as [|y l IH]; [done|]. cbn [insertBy].
  destruct (Nat.leb_spec (key x) (key y)) as [Hle|Hlt]; [done|].
  rewrite list.filter_cons, IH, !list.filter_cons.
  destruct (decide (key y = n)) as [Hy|Hy];
    destruct (decide (key x = n)) as [Hx|Hx]; try done. lia.
Qed.

(** [Array.prototype.sort] is stable: elements with equal keys keep
    their order. *)
Lemma sortBy_stable {A} (key : A -> nat) (n : nat) (l : list A) :
  filter (fun y => key y = n) (sortBy key l) = filter (fun y => key y = n) l.
Proof.
  induction l as [|x l IH]; [done|]. cbn [sortBy].
  by rewrite filter_insertBy, !list.filter_cons, IH.
Qed.

Lemma filter_fmap_key {A B} (f : A -> B) (key : B -> nat) (n : nat) (l : list A) :
  filter (fun y => key y = n) (map f l)
  = map f (filter (fun x => key (f x) = n) l).
Proof.
  induction l as [|x l IH]; [done|]. cbn [map].
  rewrite !list.filter_cons, IH. by destruct (decide (key (f x) = n)).
Qed.

(** X12. The leaderboard of [getGameState] lists every player of the
    roster once, in ascending order of total strokes; players with equal
    totals stand in roster order; every entry shows the manager's current
    hole, counted from one. *)
Theorem leaderboard_order (m : GolfGameManager) :
  let board := leaderboard (getGameState m) in
  StronglySorted (ascending entryTotalStrokes) board
  /\ Permutation board (map (entry m) (_players m))
  /\ (forall n,
        filter (fun e => entryTotalStrokes e = n) board
        = map (entry m) (filter (fun s => totalStrokes s = n) (_players m)))
  /\ Forall (fun e => entryCurrentHole e = _currentHole m + 1) board.
Proof.
  intros board. subst board. cbn [leaderboard getGameState].
  change (_calculateCurrentLeaderboard m)
    with (sortBy entryTotalStrokes (map (entry m) (_players m))).
  split; [apply sortBy_sorted|]. split; [apply sortBy_perm|]. split.
  - intros n. rewrite sortBy_stable.
    apply (filter_fmap_key (entry m) entryTotalStrokes).
  - apply List.Forall_forall. intros e He.
    apply (Permutation_in _ (sortBy_perm entryTotalStrokes _)) in He.
    apply in_map_iff in He as (s & <- & _). done.
Qed.

Lemma filter_head_split {A} (P : A -> Prop) `{!forall x, Decision (P x)}
  (l : list A) (x : A) (rest : list A) :
  filter P l = x :: rest ->
  exists before after, l = before ++ x :: after /\ Forall (fun y => ~ P y) before.
Proof.
  induction l as [|y l IH]; [done|]. rewrite list.filter_cons.
  destruct (decide (P y)) as [Hy|Hy].
  - intros [= -> _]. by exists [], l.
  - intros Hl. destruct (IH Hl) as (before & after & -> & Hb).
    exists (y :: before), after. split; [done|]. by constructor.
Qed.

(** X13. [endGame] on a game in progress with a non-empty roster
    returns, and sends every player of the roster one end-of-game
    message, all of them with the same winner and the same list of
    scores in ascending order.  The winner is the first player of the
    roster whose total is the least: everybody before them in the roster
    has strictly more strokes, nobody has fewer. *)
Theorem endGame_names_winner (w : World)
  (Hgame : _gameInProgress (manager w) = true)
  (Hroster : _players (manager w) <> []) :
  let ps := _players (manager w) in
  exists winner others before after,
    _calculateFinalScores (manager w) = winner :: others
    /\ StronglySorted (ascending totalStrokes) (winner :: others)
    /\ ps = before ++ winner :: after
    /\ Forall (fun s => totalStrokes winner < totalStrokes s) before
    /\ Forall (fun s => totalStrokes winner <= totalStrokes s) after
    /\ returns (endGame w) = true
    /\ filter isGameEnd (trace (stateOf (endGame w)))
       = filter isGameEnd (trace w)
         ++ map (fun s => SendData (id (player s))
                   (GolfGameEnd (username (player winner))
                      (map (fun score => (username (player score),
                                          totalStrokes score, strokes score))
                           (winner :: others))))
                ps.
Proof.
  intros ps.
  destruct (endGame_reports w Hgame Hroster)
    as (winner & others & Hfinal & Hin & Hleast & Hret & Htrace).
  pose proof (sortBy_stable totalStrokes (totalStrokes winner) ps) as Hstable.
  change (sortBy totalStrokes ps) with (_calculateFinalScores (manager w))
    in Hstable.
  rewrite Hfinal, list.filter_cons, decide_True in Hstable by done.
  symmetry in Hstable.
  apply filter_head_split in Hstable as (before & after & Hps & Hbefore).
  exists winner, others, before, after.
  split; [done|]. split.
  { rewrite <- Hfinal. apply sortBy_sorted. }
  split; [done|]. split.
  { apply List.Forall_forall. intros s Hs.
    assert (totalStrokes winner <= totalStrokes s) as Hle.
    { apply Hleast. fold ps. rewrite Hps. apply in_or_app. by left. }
    rewrite List.Forall_forall in Hbefore. specialize (Hbefore s Hs). lia. }
  split.
  { apply List.Forall_forall. intros s Hs. apply Hleast. fold ps. rewrite Hps.
    apply in_or_app. right. by right. }
  split; [done|]. exact Htrace.
Qed.

End Ranking.

Lemma endGame_names_winner_witness :
  let w := Manager.stateOf
             (Manager.startGame
                (Server.onJoinedWorld Scenarios.bob
                   (Server.onJoinedWorld Scenarios.alice Server.initial))) in
  Manager.returns (Manager.endGame w) = true.
Proof.
  intros w.
  destruct (endGame_names_winner w) as (? & ? & ? & ? & _ & _ & _ & _ & _ & H & _).
  - vm_compute. reflexivity.
  - vm_compute. discriminate.
  - exact H.
Defined.

(** ** The roster along a run *)

Section RosterHistory.
Import Manager Server Roster.

Lemma players_nextPlayerTurn (w : World) :
  _players (manager (_nextPlayerTurn w)) = _players (manager w).
Proof.
  unfold _nextPlayerTurn. destruct (ballIsMoving w); [done|].
  match goal with |- context [_startPlayerTurn ?w0] =>
    destruct (startPlayerTurn_frame w0) as (Hm & _) end.
  by rewrite Hm.
Qed.

Lemma players_startHole (holeIndex : nat) (w : World) :
  _players (manager (stateOf (_startHole holeIndex w))) = _players (manager w).
Proof.
  unfold _startHole.
  destruct (length (_holes (manager w)) <=? holeIndex); [done|].
  destruct (_holes (manager w) !! holeIndex) as [hole|]; [|done].
  cbn [stateOf]. cbv zeta.
  match goal with |- context [_startPlayerTurn ?w0] =>
    destruct (startPlayerTurn_frame w0) as (Hm & _);
    rewrite Hm;
    match w0 with forEachPlayer ?f ?w1 =>
      destruct (forEachPlayer_frame f w1) as [(Hm1 & _) _];
        [intros; apply emit_frame|]; rewrite Hm1
    end
  end.
  cbn [manager updManager set_manager].
  destruct (_golfBall _); [rewrite manager_callBall|]; done.
Qed.

Lemma players_startGame (w : World) :
  _players (manager (stateOf (startGame w))) = map cleared (_players (manager w)).
Proof.
  unfold startGame.
  destruct (_players (manager w)) as [|first rest] eqn:Hps;
    cbn [length Nat.eqb]; [exact Hps|].
  cbv zeta.
  match goal with |- context [_startHole 0 ?w0] => set (w1 := w0) end.
  assert (_players (manager w1) = map cleared (first :: rest)) as H1.
  { subst w1. rewrite players_createGolfBall. cbn. by rewrite Hps. }
  pose proof (players_startHole 0 w1) as H2.
  destruct (_startHole 0 w1) as [w2|e w2]; cbn [seqRes stateOf] in *.
  - destruct (broadcastGameState_frame w2) as [(Hm & _) _].
    by rewrite Hm, H2.
  - by rewrite H2.
Qed.

Lemma players_handleBallInHole (w : World) :
  _currentHole (manager w) < length (_holes (manager w)) ->
  changes (length (_holes (manager w))) (_players (manager w))
    (_players (manager (stateOf (_handleBallInHole w)))).
Proof.
  intros Hlt. unfold _handleBallInHole.
  destruct (_gameInProgress (manager w)); cbn [negb]; [|constructor].
  destruct (_currentPlayerIndex (manager w)) as [k|] eqn:Hidx; [|constructor].
  destruct (_getCurrentPlayer (manager w)) as [cur|] eqn:Hcur; [|constructor].
  cbv zeta.
  assert (_players (manager w) !! k = Some cur) as Hk.
  { revert Hcur. unfold _getCurrentPlayer. by rewrite Hidx. }
  destruct (_holes (manager w) !! _currentHole (manager w)) as [hole|] eqn:Hhole;
    cbn [stateOf].
  - match goal with |- context [forEachPlayer ?f ?w0] =>
      destruct (forEachPlayer_frame f w0) as [(Hm & _) _];
        [intros; apply emit_frame|] end.
    unfold setTimeout. cbn [golfers manager emit set_timers].
    rewrite Hm. cbn [manager updManager set_manager _players set_players].
    apply (holed _ _ k cur (_currentHole (manager w))
             (Golfer.getScore (golfers w (golfEntity cur)))); [done|].
    by apply lookup_lt_Some in Hhole.
  - apply lookup_lt_is_Some_2 in Hlt as [? ?]. congruence.
Qed.

Lemma players_onJoinedWorld (p : Player) (w : World) :
  _players (manager (onJoinedWorld p w))
  = mapSet (_players (manager w)) (fresh p (nextGolfer w)).
Proof.
  unfold onJoinedWorld, addPlayer. cbv zeta.
  match goal with |- context [_broadcastGameState ?w0] =>
    destruct (broadcastGameState_frame w0) as [(Hm & _) _]; rewrite Hm end.
  cbn [manager set_shotListeners updManager set_manager _players set_players].
  match goal with |- context [callGolfer ?g ?m ?w0] =>
    destruct (callGolfer_keeps g m w0) as [_ Hman]; rewrite Hman end.
  done.
Qed.

Lemma players_onLeftWorld (p : Player) (w : World) :
  _players (manager (onLeftWorld p w)) = mapDelete (_players (manager w)) (id p).
Proof.
  unfold onLeftWorld. rewrite foldl_despawn_manager.
  apply players_removePlayer.
Qed.

Lemma players_fire (t : Timer) (w : World) :
  _players (manager (stateOf (fire t w))) = _players (manager w).
Proof.
  destruct t; simpl.
  - apply players_nextPlayerTurn.
  - apply players_startHole.
  - destruct (negb (ballIsMoving w)); simpl; [|done].
    apply players_nextPlayerTurn.
Qed.

(** What one event does to the roster, on a course whose current hole
    exists. *)
Lemma step_roster (ev : Event) (w : World) :
  courseOk (manager w) ->
  rtc (changes 3) (_players (manager w)) (_players (manager (stateOf (step ev w)))).
Proof.
  intros [Hholes Hcur].
  destruct ev as [p|p| | |g input facing|b other started|b pos vel|k]; simpl.
  - rewrite players_onJoinedWorld. apply rtc_once. constructor.
  - rewrite players_onLeftWorld. apply rtc_once. constructor.
  - rewrite players_startGame. apply rtc_once. constructor.
  - destruct (endGame_turns w) as (-> & _). done.
  - destruct (_ && _); simpl; [|done].
    by destruct (callGolfer_keeps g
                   (Golfer.onTickWithPlayerInput input facing) w) as [_ ->].
  - destruct (_ && _); simpl; [|done].
    assert (courseOk (manager w)) as Hok by done. revert Hok.
    generalize (Ball._handleCollision other started). intros evs.
    change w with (stateOf (Done w)) at 1 2. generalize (Done w) as r.
    induction evs as [|e evs IH] using rev_ind; intros r Hok; [done|].
    rewrite foldl_snoc.
    specialize (IH r Hok).
    assert (courseOk (manager (stateOf (foldl (fun r e => seqRes r (onBallEvent e))
                                          r evs)))) as Hok'.
    { apply (foldl_seqRes_inv (fun w => courseOk (manager w))); [|done].
      intros [] w' Hw'; simpl.
      - eapply sameCourse_courseOk; [apply handleBallInHole_course|done].
      - by destruct (handleWaterHazard_keeps w') as [_ ->]. }
    destruct (foldl _ r evs) as [w1|x w1]; cbn [seqRes stateOf] in *; [|done].
    etrans; [exact IH|].
    destruct e; simpl.
    + apply rtc_once. destruct Hok' as [Hh Hc].
      pose proof (players_handleBallInHole w1 Hc) as Hch.
      by rewrite Hh in Hch.
    + by destruct (handleWaterHazard_keeps w1) as [_ ->].
  - by destruct (_ && _).
  - destruct (timers w !! k) as [t|]; [|done]. by rewrite players_fire.
Qed.

(** A property of the roster that holds of the empty roster and is kept
    by every change holds in every state the server can reach. *)
Lemma run_roster (P : list PlayerScore -> Prop) :
  P [] ->
  (forall ps ps', changes 3 ps ps' -> P ps -> P ps') ->
  forall evs, P (_players (manager (stateOf (run evs initial)))).
Proof.
  intros Hnil Hstep evs.
  assert (forall ps ps', rtc (changes 3) ps ps' -> P ps -> P ps') as Hrtc.
  { induction 1; eauto. }
  enough (courseOk (manager (stateOf (run evs initial)))
          /\ P (_players (manager (stateOf (run evs initial))))) as [_ H] by done.
  unfold run.
  apply (foldl_seqRes_inv
           (fun w => courseOk (manager w) /\ P (_players (manager w)))).
  - intros ev w [Hok HP]. split; [by apply step_course|].
    eapply Hrtc; [by apply step_roster|done].
  - split; [|done]. split; [done|]. cbn. lia.
Qed.

Lemma ids_cleared (ps : list PlayerScore) : ids (map cleared ps) = ids ps.
Proof. unfold ids. rewrite map_map. done. Qed.

Lemma ids_recorded (ps : list PlayerScore) (k : nat) (cur : PlayerScore)
  (hole n : nat) :
  ps !! k = Some cur -> ids (<[k := recorded hole n cur]> ps) = ids ps.
Proof.
  intros Hk. unfold ids. change (map ?f ?l) with (f <$> l).
  rewrite list_fmap_insert. cbn [recorded player].
  apply list_insert_id. by rewrite list_lookup_fmap, Hk.
Qed.

(** X14. In every state the server can reach, no two entries of the
    roster are for the same player id. *)
Theorem roster_ids_distinct (evs : list Event) :
  NoDup (ids (_players (manager (stateOf (run evs initial))))).
Proof.
  apply (run_roster (fun ps => NoDup (ids ps))); [apply NoDup_nil_2|].
  intros ps ps' Hch Hnd. destruct Hch as [|p g|key| |k cur hole n Hk Hhole].
  - done.
  - by apply NoDup_mapSet.
  - by apply NoDup_mapDelete.
  - by rewrite ids_cleared.
  - by rewrite ids_recorded.
Qed.

Lemma length_jsSet {A} (i : nat) (v : A) (l : list (option A)) :
  length (jsSet i v l) = Nat.max (length l) (S i).
Proof.
  unfold jsSet. destruct (Nat.ltb_spec i (length l)).
  - rewrite length_insert. lia.
  - rewrite !length_app, length_replicate. cbn. lia.
Qed.

(** X15. In every state the server can reach, for every player of the
    roster: the total is at least the sum of the strokes recorded hole
    by hole, at most three holes have an entry, and the entry's own
    [currentHole] field is still [0], the code never advancing it. *)
Theorem totals_never_undercount (evs : list Event) :
  Forall scoreOk (_players (manager (stateOf (run evs initial)))).
Proof.
  apply (run_roster (Forall scoreOk)); [constructor|].
  intros ps ps' Hch Hall. destruct Hch as [|p g|key| |k cur hole n Hk Hhole].
  - done.
  - apply List.Forall_forall. intros s Hs.
    apply in_mapSet in Hs as [->|Hs].
    + unfold scoreOk. cbn. lia.
    + rewrite List.Forall_forall in Hall. by apply Hall.
  - apply List.Forall_forall. intros s Hs. apply in_mapDelete in Hs.
    rewrite List.Forall_forall in Hall. by apply Hall.
  - apply List.Forall_forall. intros s Hs.
    apply in_map_iff in Hs as (s0 & <- & _). unfold scoreOk. cbn. lia.
  - apply Forall_insert; [done|].
    rewrite List.Forall_forall in Hall.
    destruct (Hall cur) as (Hsum & Hlen & Hzero).
    { apply list_elem_of_In. by apply list_elem_of_lookup_2 in Hk. }
    unfold scoreOk. cbn [recorded strokes totalStrokes currentHole].
    pose proof (sumStrokes_jsSet hole n (strokes cur)) as Hset.
    rewrite length_jsSet. repeat split; [lia|lia|done].
Qed.

End RosterHistory.

(** ** The exceptions of a run *)

Section Exceptions.
Import Manager Server Roster Reach.

Lemma startHole_thrown (holeIndex : nat) (w : World) :
  thrown (_startHole holeIndex w)
  = if (length (_holes (manager w)) <=? holeIndex)%nat
    then Some (TypeError "this._endGame is not a function") else None.
Proof.
  unfold _startHole.
  destruct (Nat.leb_spec (length (_holes (manager w))) holeIndex) as [Hle|Hlt];
    [done|].
  apply lookup_lt_is_Some_2 in Hlt as [hole Hhole]. by rewrite Hhole.
Qed.

Lemma startGame_thrown (w : World) :
  courseOk (manager w) -> thrown (startGame w) = None.
Proof.
  intros [Hholes _]. unfold startGame. destruct (_ =? _)%nat; [done|].
  cbv zeta.
  match goal with |- context [_startHole 0 ?w0] => set (w1 := w0) end.
  pose proof (startHole_thrown 0 w1) as Ht.
  assert (_holes (manager w1) = defaultCourse) as H1.
  { destruct (manager_createGolfBall
                (updManager
                   (fun m => set_players (map cleared (_players m)) m)
                   (updManager (set_currentPlayerIndex (Idx 0))
                      (updManager (set_currentHole 0)
                         (updManager (set_gameInProgress true) w)))))
      as [Hh _].
    subst w1. etrans; [exact Hh|exact Hholes]. }
  rewrite H1 in Ht. cbn in Ht.
  by destruct (_startHole 0 w1).
Qed.

Lemma handleBallInHole_thrown (w : World) :
  courseOk (manager w) -> thrown (_handleBallInHole w) = None.
Proof.
  intros [_ Hcur]. unfold _handleBallInHole.
  destruct (negb _); [done|].
  destruct (_currentPlayerIndex (manager w)); [|done].
  destruct (_getCurrentPlayer (manager w)); [|done]. cbv zeta.
  apply lookup_lt_is_Some_2 in Hcur as [hole Hhole]. by rewrite Hhole.
Qed.

Lemma handleWaterHazard_thrown (w : World) :
  courseOk (manager w) -> thrown (_handleWaterHazard w) = None.
Proof.
  intros [_ Hcur]. unfold _handleWaterHazard.
  destruct (_getCurrentPlayer (manager w)) as [cur|]; [|done]. cbv zeta.
  destruct (callGolfer_keeps (golfEntity cur) Golfer.incrementShotCount w)
    as [_ Hm].
  rewrite Hm.
  apply lookup_lt_is_Some_2 in Hcur as [hole Hhole]. rewrite Hhole.
  by destruct (_golfBall (manager w)).
Qed.

Lemma step_thrown (ev : Event) (w : World) :
  courseOk (manager w) -> expected (thrown (step ev w)).
Proof.
  intros Hok. unfold expected.
  destruct ev as [p|p| | |g input facing|b other started|b pos vel|k]; simpl.
  - by left.
  - by left.
  - left. by apply startGame_thrown.
  - rewrite endGame_thrown. destruct (_ && _); [right; by right|by left].
  - destruct (_ && _); by left.
  - destruct (_ && _); [|by left]. left.
    unfold Ball._handleCollision.
    destruct started; cbn [negb]; [|done].
    pose proof (handleBallInHole_thrown w Hok) as H1.
    assert (courseOk (manager (stateOf (_handleBallInHole w)))) as Hok1.
    { eapply sameCourse_courseOk; [apply handleBallInHole_course|done]. }
    pose proof (handleWaterHazard_thrown _ Hok1) as H2.
    pose proof (handleWaterHazard_thrown w Hok) as H3.
    destruct (Ball.isGolfHole other), (Ball.isLiquid other);
      cbn [app foldl seqRes onBallEvent]; try done.
    destruct (_handleBallInHole w); [|done]. done.
  - destruct (_ && _); by left.
  - destruct (timers w !! k) as [[]|]; simpl.
    + by left.
    + rewrite startHole_thrown. destruct (_ <=? _)%nat; [right|]; by left.
    + destruct (negb _); by left.
    + by left.
Qed.

(** X16. Whatever the players do, a run of the server returns or stops
    with one of two exceptions: the call of the undefined [_endGame]
    when a hole past the last one is started, or the read of the winner
    of an empty roster in [endGame].  Both happen: the first at the end
    of a full round, the second when the only player leaves a game that
    is then ended.  No hole lookup ever fails. *)
Theorem only_two_exceptions :
  (forall evs,
     let e := thrown (run evs initial) in
     e = None
     \/ e = Some (TypeError "this._endGame is not a function")
     \/ e = Some (TypeError "winner is undefined"))
  /\ thrown (run Scenarios.fullRound initial)
     = Some (TypeError "this._endGame is not a function")
  /\ thrown (run [JoinedWorld Scenarios.alice; StartGolf;
                  LeftWorld Scenarios.alice; EndGolf] initial)
     = Some (TypeError "winner is undefined").
Proof.
  split; [|split; vm_compute; reflexivity].
  intros evs. cbv zeta. change (expected (thrown (run evs initial))).
  induction evs as [|ev evs IH] using rev_ind; [by left|].
  unfold run in *. rewrite foldl_snoc.
  pose proof (run_course evs) as Hok. unfold run in Hok.
  destruct (foldl _ (Done initial) evs) as [w|x w]; cbn [seqRes stateOf] in *.
  - by apply step_thrown.
  - exact IH.
Qed.

End Exceptions.

(** ** The balls in the world *)

Section BallsInTheWorld.
Import Manager Server Roster Reach.

Lemma sameBalls_refl (w : World) : sameBalls w w.
Proof. by split. Qed.

Lemma sameBalls_trans (w1 w2 w3 : World) :
  sameBalls w1 w2 -> sameBalls w2 w3 -> sameBalls w1 w3.
Proof.
  intros [H1 H2] [H3 H4]. split; [congruence|]. intros b. by rewrite H4, H2.
Qed.

Lemma sameBalls_ok (w w' : World) : sameBalls w w' -> ballsOk w -> ballsOk w'.
Proof.
  intros [Hg Hs] Hok b Hb. rewrite Hg. apply Hok. by rewrite <- Hs.
Qed.

Lemma sameButGolfers_sameBalls (w w' : World) :
  sameButGolfers w w' -> sameBalls w w'.
Proof. intros (Hm & _ & _ & Hb & _). split; by rewrite ?Hm, ?Hb. Qed.

Lemma callGolfer_sameBalls (g : nat) (m : Golfer.Method) (w : World) :
  sameBalls w (callGolfer g m w).
Proof.
  split; [by destruct (callGolfer_keeps g m w) as [_ ->]|].
  intros b. unfold callGolfer. destruct (m (golfers w g)) as [e' outs].
  by rewrite foldl_deliver_isSpawned.
Qed.

Lemma nextPlayerTurn_sameBalls (w : World) : sameBalls w (_nextPlayerTurn w).
Proof.
  unfold _nextPlayerTurn. destruct (ballIsMoving w); [by split|].
  eapply sameBalls_trans;
    [|apply sameButGolfers_sameBalls, startPlayerTurn_frame].
  by split.
Qed.

Lemma onJoinedWorld_sameBalls (p : Player) (w : World) :
  sameBalls w (onJoinedWorld p w).
Proof.
  unfold onJoinedWorld, addPlayer. cbv zeta.
  eapply sameBalls_trans;
    [|apply sameButGolfers_sameBalls, broadcastGameState_frame].
  match goal with |- context [callGolfer ?g ?m ?w0] =>
    destruct (callGolfer_sameBalls g m w0) as [Hg Hs] end.
  split.
  - cbn [manager set_shotListeners updManager set_manager _golfBall set_players].
    by rewrite Hg.
  - intros b. cbn [balls set_shotListeners updManager set_manager].
    by rewrite Hs.
Qed.

Lemma foldl_despawn_sameBalls (gs : list nat) (w : World) :
  sameBalls w (foldl (fun w g => callGolfer g Golfer.despawn w) w gs).
Proof.
  revert w. induction gs as [|g gs IH]; intros w; simpl; [apply sameBalls_refl|].
  eapply sameBalls_trans; [apply callGolfer_sameBalls|apply IH].
Qed.

Lemma onLeftWorld_sameBalls (p : Player) (w : World) :
  sameBalls w (onLeftWorld p w).
Proof.
  unfold onLeftWorld.
  eapply sameBalls_trans; [|apply foldl_despawn_sameBalls].
  rewrite removePlayer_eq.
  eapply sameBalls_trans;
    [|apply sameButGolfers_sameBalls, broadcastGameState_frame].
  by split.
Qed.

Lemma endGame_sameBalls (w : World) : sameBalls w (stateOf (endGame w)).
Proof.
  unfold endGame. destruct (negb _); [apply sameBalls_refl|]. cbv zeta.
  set (w1 := updManager (set_gameInProgress false) w).
  assert (sameBalls w w1) as H1 by by split.
  set (w2 := match _getCurrentPlayer (manager w1) with
             | Some cur => callGolfer (golfEntity cur) Golfer.endTurn w1
             | None => w1
             end).
  assert (sameBalls w1 w2) as H2.
  { subst w2. destruct (_getCurrentPlayer (manager w1)) as [cur|];
      [apply callGolfer_sameBalls|apply sameBalls_refl]. }
  clearbody w2.
  destruct (_calculateFinalScores (manager w2)); cbn [stateOf].
  - by eapply sameBalls_trans.
  - eapply sameBalls_trans; [by eapply sameBalls_trans|].
    apply sameButGolfers_sameBalls.
    match goal with |- context [forEachPlayer ?f w2] =>
      destruct (forEachPlayer_frame f w2) as [Hf _];
        [intros; apply emit_frame|] end.
    done.
Qed.

Lemma handleBallInHole_sameBalls (w : World) :
  sameBalls w (stateOf (_handleBallInHole w)).
Proof.
  unfold _handleBallInHole.
  destruct (negb _); [apply sameBalls_refl|].
  destruct (_currentPlayerIndex (manager w)) as [k|]; [|apply sameBalls_refl].
  destruct (_getCurrentPlayer (manager w)) as [cur|]; [|apply sameBalls_refl].
  cbv zeta.
  destruct (_holes (manager w) !! _currentHole (manager w)) as [hole|];
    cbn [stateOf]; [|by split].
  match goal with |- context [forEachPlayer ?f ?w0] =>
    destruct (forEachPlayer_frame f w0) as [(Hm & _ & _ & Hb & _) _];
      [intros; apply emit_frame|] end.
  unfold setTimeout. split.
  - cbn [manager emit set_timers]. by rewrite Hm.
  - intros b. cbn [balls emit set_timers]. by rewrite Hb.
Qed.

Lemma handleWaterHazard_sameBalls (w : World) :
  sameBalls w (stateOf (_handleWaterHazard w)).
Proof.
  unfold _handleWaterHazard.
  destruct (_getCurrentPlayer (manager w)) as [cur|]; [|apply sameBalls_refl].
  cbv zeta.
  eapply sameBalls_trans; [apply (callGolfer_sameBalls (golfEntity cur)
                                    Golfer.incrementShotCount)|].
  set (w1 := callGolfer _ _ w).
  destruct (_golfBall (manager w1)) as [b|]; [|by split].
  destruct (_holes (manager w1) !! _currentHole (manager w1)) as [hole|];
    cbn [seqRes stateOf]; [|by split].
  split.
  - cbn [manager emit]. by rewrite manager_callBall.
  - intros b'. cbn [balls emit].
    apply (deliver_isSpawned 0 (Golfer.BallResetToPosition b (teePosition hole))).
Qed.

Lemma startHole_ballsOk (holeIndex : nat) (w : World) :
  ballsOk w -> ballsOk (stateOf (_startHole holeIndex w)).
Proof.
  intros Hok. unfold _startHole.
  destruct (_ <=? _)%nat; [done|].
  destruct (_holes (manager w) !! holeIndex) as [hole|]; [|done].
  cbn [stateOf]. cbv zeta.
  match goal with |- context [_startPlayerTurn ?w0] =>
    apply (sameBalls_ok w0);
      [apply sameButGolfers_sameBalls, startPlayerTurn_frame|];
    match w0 with forEachPlayer ?f ?w1 =>
      apply (sameBalls_ok w1);
        [apply sameButGolfers_sameBalls;
         destruct (forEachPlayer_frame f w1) as [Hf _];
           [intros; apply emit_frame|exact Hf]|]
    end
  end.
  cbn [manager updManager set_manager _golfBall set_currentHole].
  intros b. cbn [manager balls updManager set_manager _golfBall
                 set_currentPlayerIndex].
  destruct (_golfBall (manager w)) as [b0|] eqn:Hb0.
  - rewrite manager_callBall.
    cbn [manager updManager set_manager _golfBall set_currentHole].
    rewrite Hb0. unfold callBall. cbn [Ball.spawn balls emit set_balls].
    destruct (decide (b0 = b)) as [->|Hne]; [done|].
    rewrite fn_lookup_insert_ne by done.
    cbn [balls updManager set_manager]. intros Hs.
    specialize (Hok b Hs). congruence.
  - cbn [manager balls updManager set_manager _golfBall set_currentHole].
    rewrite Hb0. intros Hs. specialize (Hok b Hs). congruence.
Qed.

Lemma createGolfBall_ballsOk (w : World) :
  ballsOk w -> ballsOk (_createGolfBall w).
Proof.
  intros Hok b. unfold _createGolfBall. cbv zeta.
  cbn [manager balls updManager set_manager set_nextBall set_balls _golfBall
       set_golfBall nextBall].
  destruct (_golfBall (manager w)) as [old|] eqn:Hold.
  - destruct (Ball.isSpawned (balls w old)) eqn:Hsp.
    + unfold callBall. cbn [Ball.despawn balls nextBall emit set_balls].
      destruct (decide (nextBall w = b)) as [<-|Hne].
      * intros _. done.
      * rewrite fn_lookup_insert_ne by done.
        destruct (decide (old = b)) as [<-|Hne'].
        -- by rewrite fn_lookup_insert.
        -- rewrite fn_lookup_insert_ne by done. intros Hs.
           specialize (Hok b Hs). congruence.
    + destruct (decide (nextBall w = b)) as [<-|Hne]; [done|].
      rewrite fn_lookup_insert_ne by done. intros Hs.
      specialize (Hok b Hs). congruence.
  - destruct (decide (nextBall w = b)) as [<-|Hne]; [done|].
    rewrite fn_lookup_insert_ne by done. intros Hs.
    specialize (Hok b Hs). congruence.
Qed.

Lemma startGame_ballsOk (w : World) :
  ballsOk w -> ballsOk (stateOf (startGame w)).
Proof.
  intros Hok. unfold startGame. destruct (_ =? _)%nat; [done|]. cbv zeta.
  match goal with |- context [_startHole 0 ?w0] => set (w1 := w0) end.
  assert (ballsOk w1) as H1 by (subst w1; by apply createGolfBall_ballsOk).
  pose proof (startHole_ballsOk 0 w1 H1) as H2.
  destruct (_startHole 0 w1) as [w2|e w2]; cbn [seqRes stateOf] in *; [|done].
  revert H2. apply sameBalls_ok, sameButGolfers_sameBalls,
    broadcastGameState_frame.
Qed.

Lemma fire_ballsOk (t : Timer) (w : World) :
  ballsOk w -> ballsOk (stateOf (fire t w)).
Proof.
  intros Hok. destruct t; simpl.
  - revert Hok. apply sameBalls_ok, nextPlayerTurn_sameBalls.
  - by apply startHole_ballsOk.
  - destruct (negb _); simpl; [|done].
    revert Hok. apply sameBalls_ok, nextPlayerTurn_sameBalls.
Qed.

Lemma step_ballsOk (ev : Event) (w : World) :
  ballsOk w -> ballsOk (stateOf (step ev w)).
Proof.
  intros Hok.
  destruct ev as [p|p| | |g input facing|b other started|b pos vel|k]; simpl.
  - revert Hok. apply sameBalls_ok, onJoinedWorld_sameBalls.
  - revert Hok. apply sameBalls_ok, onLeftWorld_sameBalls.
  - by apply startGame_ballsOk.
  - revert Hok. apply sameBalls_ok, endGame_sameBalls.
  - destruct (_ && _); simpl; [|done].
    revert Hok. apply sameBalls_ok, callGolfer_sameBalls.
  - destruct (_ && _); simpl; [|done].
    apply (foldl_seqRes_inv ballsOk); [|done].
    intros [] w' Hw'; simpl; revert Hw'; apply sameBalls_ok.
    + apply handleBallInHole_sameBalls.
    + apply handleWaterHazard_sameBalls.
  - destruct (_ && _); simpl; [|done].
    revert Hok. apply sameBalls_ok. split; [done|].
    intros b'. cbn [balls set_balls].
    destruct (decide (b = b')) as [->|Hne].
    + by rewrite fn_lookup_insert.
    + by rewrite fn_lookup_insert_ne.
  - destruct (timers w !! k) as [t|]; [|done]. apply fire_ballsOk.
    intros b. apply Hok.
Qed.

(** X17. In every state the server can reach, a ball that is in the
    world is the ball the manager holds: starting a game again never
    leaves the ball of the previous game behind, and there are never two
    balls in the world. *)
Theorem one_ball_in_the_world (evs : list Event) (b b' : nat) :
  let w := stateOf (run evs initial) in
  (Ball.isSpawned (balls w b) = true -> _golfBall (manager w) = Some b)
  /\ (Ball.isSpawned (balls w b) = true -> Ball.isSpawned (balls w b') = true ->
      b = b').
Proof.
  intros w.
  assert (ballsOk w) as Hok.
  { subst w. unfold run. apply (foldl_seqRes_inv ballsOk).
    - intros ev w. apply step_ballsOk.
    - intros b0. done. }
  split; [apply Hok|]. intros H1 H2.
  apply Hok in H1, H2. congruence.
Qed.

End BallsInTheWorld.

Lemma one_ball_in_the_world_witness :
  Manager._golfBall
    (Manager.manager
       (Manager.stateOf
          (Server.run [Server.JoinedWorld Scenarios.alice; Server.StartGolf;
                       Server.StartGolf] Server.initial))) = Some 1.
Proof.
  apply (one_ball_in_the_world
           [Server.JoinedWorld Scenarios.alice; Server.StartGolf;
            Server.StartGolf] 1 1).
  vm_compute. reflexivity.
Defined.

(** ** The ball in play *)

Section BallInPlay.
Import Manager Server Roster Reach.

Lemma follows_refl (w : World) : follows w w.
Proof.
  split; [done|]. split; [by left|]. split; [done|]. by right.
Qed.

Lemma follows_trans (w1 w2 w3 : World) :
  follows w1 w2 -> follows w2 w3 -> follows w1 w3.
Proof.
  intros (Hb1 & Hr1 & Ht1 & Hi1) (Hb2 & Hr2 & Ht2 & Hi2).
  split; [congruence|]. split; [|split].
  - intros g Hg. destruct (Hr2 g Hg) as [Hg2|Hoff]; [|by right].
    destruct (Hr1 g Hg2) as [Hg1|Hoff]; [by left|]. right.
    destruct (hasTurn w3 g) eqn:E; [|done].
    destruct (Ht2 g E) as [Hon _]. congruence.
  - intros g Hg. destruct (Ht2 g Hg) as [Hg2 Hball2].
    destruct (Ht1 g Hg2) as [Hg1 Hball1]. split; [done|congruence].
  - destruct Hi1 as [Hsome|Hi1]; [by left|].
    destruct Hi2 as [Hsome|Hi2]; [left; by rewrite <- Hb1|].
    right. intros Hoff. rewrite Hi2, Hi1; [done|done|].
    intros g. destruct (hasTurn w2 g) eqn:E; [|done].
    destruct (Ht1 g E) as [Hon _]. by rewrite Hoff in Hon.
Qed.

Lemma follows_aims (w w' : World) : follows w w' -> aims w -> aims w'.
Proof.
  intros (Hb & Hr & Ht & _) Haims g Hg Hturn.
  destruct (Ht g Hturn) as [Hturn0 Hball]. rewrite Hball, Hb.
  destruct (Hr g Hg) as [Hg0|Hoff]; [by apply Haims|congruence].
Qed.

Lemma follows_idle (w w' : World) : follows w w' -> idle w -> idle w'.
Proof.
  intros (Hb & _ & Ht & Hi) Hidle Hnone. rewrite Hb in Hnone.
  destruct (Hidle Hnone) as [Htimers Hoff].
  destruct Hi as [[b Hsome]|Hi]; [congruence|]. split.
  - by rewrite Hi.
  - intros g. destruct (hasTurn w' g) eqn:E; [|done].
    destruct (Ht g E) as [Hon _]. by rewrite Hoff in Hon.
Qed.

Lemma callGolfer_turns (g : nat) (m : Golfer.Method) (w : World) :
  quiet m ->
  forall g', hasTurn (callGolfer g m w) g' = true ->
             hasTurn w g' = true
             /\ Golfer._currentBall (golfers (callGolfer g m w) g')
                = Golfer._currentBall (golfers w g').
Proof.
  intros Hq g'. destruct (callGolfer_keeps g m w) as [Hg _].
  unfold hasTurn. rewrite Hg.
  destruct (decide (g = g')) as [<-|Hne].
  - rewrite fn_lookup_insert. destruct (Hq (golfers w g)) as [Hball Hturn].
    intros Hon. split; [by apply Hturn|done].
  - by rewrite fn_lookup_insert_ne.
Qed.

Lemma callGolfer_follows_ui (g : nat) (m : Golfer.Method) (w : World) :
  quiet m -> uiOnly m -> follows w (callGolfer g m w).
Proof.
  intros Hq Hui. destruct (callGolfer_uiOnly g m w Hui) as [(Hm & _ & _ & _ & _ & Ht) _].
  split; [by rewrite Hm|]. split; [left; by rewrite <- Hm|].
  split; [by apply callGolfer_turns|]. by right.
Qed.

Lemma quiet_spawn p : quiet (Golfer.spawn p).
Proof. by intros e. Qed.

Lemma quiet_despawn : quiet Golfer.despawn.
Proof. by intros e. Qed.

Lemma quiet_endTurn : quiet Golfer.endTurn.
Proof. by intros e. Qed.

Lemma quiet_incrementShotCount : quiet Golfer.incrementShotCount.
Proof. by intros e. Qed.

Lemma quiet_tick input facing : quiet (Golfer.onTickWithPlayerInput input facing).
Proof.
  intros e. split; [|by rewrite isPlayerTurn_tick].
  destruct e as [pl maxP power charging aiming ball shots turn inWorld pos].
  destruct input as [sp_ f_ r_].
  unfold Golfer.onTickWithPlayerInput; cbn [Golfer._isPlayerTurn negb].
  destruct turn; [|reflexivity].
  destruct sp_, charging, aiming, ball as [ball|], inWorld, f_, r_; reflexivity.
Qed.

Lemma uiOnly_spawn p : uiOnly (Golfer.spawn p).
Proof. by intros e. Qed.

Lemma uiOnly_despawn : uiOnly Golfer.despawn.
Proof. by intros e. Qed.

Lemma sameButGolfers_follows (w w' : World) :
  sameButGolfers w w' -> golfers w' = golfers w -> follows w w'.
Proof.
  intros (Hm & _ & _ & _ & _ & Ht) Hg.
  split; [by rewrite Hm|]. split; [left; by rewrite <- Hm|].
  split; [|by right]. intros g. unfold hasTurn. by rewrite Hg.
Qed.

Lemma broadcast_follows (w : World) : follows w (_broadcastGameState w).
Proof.
  destruct (broadcastGameState_frame w) as [Hf Hg].
  by apply sameButGolfers_follows.
Qed.

Lemma onJoinedWorld_follows (p : Player) (w : World) :
  follows w (onJoinedWorld p w).
Proof.
  unfold onJoinedWorld, addPlayer. cbv zeta.
  eapply follows_trans; [|apply broadcast_follows].
  set (g := nextGolfer w).
  set (w1 := set_nextGolfer (S g) _).
  destruct (callGolfer_uiOnly g _ w1 (uiOnly_spawn (mkVec 0 3 (-30))))
    as [(Hm & _ & _ & _ & _ & Ht) Hg].
  set (w2 := callGolfer g _ w1) in *.
  split; [|split; [|split]].
  - cbn [manager set_shotListeners updManager set_manager _golfBall set_players].
    by rewrite Hm.
  - intros g' Hreg.
    cbn [manager set_shotListeners updManager set_manager _players set_players
         registered] in Hreg.
    unfold registered in Hreg.
    cbn [manager set_shotListeners updManager set_manager _players set_players]
      in Hreg.
    rewrite Hm in Hreg. apply in_map_iff in Hreg as (s & <- & Hs).
    apply in_mapSet in Hs as [->|Hs].
    + right. unfold hasTurn.
      cbn [golfers set_shotListeners updManager set_manager golfEntity].
      rewrite Hg. fold g. rewrite fn_lookup_insert. subst w1.
      cbn [golfers set_nextGolfer set_golfers]. by rewrite fn_lookup_insert.
    + left. unfold registered. apply in_map_iff. by exists s.
  - intros g'. unfold hasTurn.
    cbn [golfers set_shotListeners updManager set_manager].
    rewrite Hg. subst w1. cbn [golfers set_nextGolfer set_golfers].
    destruct (decide (g = g')) as [<-|Hne].
    + by rewrite !fn_lookup_insert.
    + by rewrite !fn_lookup_insert_ne.
  - right. intros _.
    cbn [timers set_shotListeners updManager set_manager]. by rewrite Ht.
Qed.

Lemma foldl_despawn_follows (gs : list nat) (w : World) :
  follows w (foldl (fun w g => callGolfer g Golfer.despawn w) w gs).
Proof.
  revert w. induction gs as [|g gs IH]; intros w; simpl; [apply follows_refl|].
  eapply follows_trans; [|apply IH].
  apply callGolfer_follows_ui; [apply quiet_despawn|apply uiOnly_despawn].
Qed.

Lemma onLeftWorld_follows (p : Player) (w : World) :
  follows w (onLeftWorld p w).
Proof.
  unfold onLeftWorld.
  eapply follows_trans; [|apply foldl_despawn_follows].
  rewrite removePlayer_eq.
  eapply follows_trans; [|apply broadcast_follows].
  split; [done|]. split; [|split; [done|by right]].
  intros g Hg. left. unfold registered in *.
  cbn [manager updManager set_manager _players set_players] in Hg.
  apply in_map_iff in Hg as (s & <- & Hs). apply in_mapDelete in Hs.
  apply in_map_iff. by exists s.
Qed.

Lemma endGame_follows (w : World) : follows w (stateOf (endGame w)).
Proof.
  unfold endGame. destruct (negb _); [apply follows_refl|]. cbv zeta.
  set (w1 := updManager (set_gameInProgress false) w).
  assert (follows w w1) as H1.
  { split; [done|]. split; [by left|]. split; [done|by right]. }
  set (w2 := match _getCurrentPlayer (manager w1) with
             | Some cur => callGolfer (golfEntity cur) Golfer.endTurn w1
             | None => w1
             end).
  assert (follows w1 w2) as H2.
  { subst w2. destruct (_getCurrentPlayer (manager w1)) as [cur|];
      [|apply follows_refl].
    apply callGolfer_follows_ui; [apply quiet_endTurn|apply uiOnly_endTurn]. }
  clearbody w2.
  destruct (_calculateFinalScores (manager w2)); cbn [stateOf].
  - exact (follows_trans _ _ _ H1 H2).
  - eapply follows_trans; [exact (follows_trans _ _ _ H1 H2)|].
    match goal with |- context [forEachPlayer ?f w2] =>
      destruct (forEachPlayer_frame f w2) as [Hf Hg];
        [intros; apply emit_frame|] end.
    by apply sameButGolfers_follows.
Qed.

Lemma tick_follows (g : nat) (input : Golfer.Input) (facing : Vector3)
  (w : World) :
  follows w (callGolfer g (Golfer.onTickWithPlayerInput input facing) w).
Proof.
  destruct (callGolfer_keeps g (Golfer.onTickWithPlayerInput input facing) w)
    as [Hg Hm].
  split; [by rewrite Hm|]. split; [left; by rewrite <- Hm|].
  split; [apply callGolfer_turns, quiet_tick|].
  right. intros Hoff. specialize (Hoff g). unfold hasTurn in Hoff.
  unfold callGolfer, Golfer.onTickWithPlayerInput, Golfer.isPlayerTurn in *.
  by rewrite Hoff.
Qed.

Lemma handleBallInHole_follows (w : World) :
  is_Some (_golfBall (manager w)) -> follows w (stateOf (_handleBallInHole w)).
Proof.
  intros Hsome.
  destruct (handleBallInHole_keeps w) as [Hg Hr].
  destruct (handleBallInHole_sameBalls w) as [Hb _].
  split; [done|]. split; [left; by rewrite <- Hr|].
  split; [|by left]. intros g. unfold hasTurn. by rewrite Hg.
Qed.

Lemma handleWaterHazard_follows (w : World) :
  is_Some (_golfBall (manager w)) -> follows w (stateOf (_handleWaterHazard w)).
Proof.
  intros Hsome. destruct (handleWaterHazard_sameBalls w) as [Hb _].
  destruct (handleWaterHazard_keeps w) as [Ht Hm].
  split; [done|]. split; [left; by rewrite <- Hm|]. split; [|by left].
  intros g Hon. rewrite Ht in Hon. split; [done|].
  unfold _handleWaterHazard.
  destruct (_getCurrentPlayer (manager w)) as [cur|]; [|done]. cbv zeta.
  destruct (callGolfer_keeps (golfEntity cur) Golfer.incrementShotCount w)
    as [Hg1 Hm1].
  set (w1 := callGolfer _ _ w) in *.
  assert (Golfer._currentBall (golfers w1 g) = Golfer._currentBall (golfers w g))
    as H1.
  { rewrite Hg1. destruct (decide (golfEntity cur = g)) as [<-|Hne].
    - by rewrite fn_lookup_insert.
    - by rewrite fn_lookup_insert_ne. }
  destruct (_golfBall (manager w1)) as [b|]; [|done].
  destruct (_holes (manager w1) !! _currentHole (manager w1)) as [hole|];
    cbn [seqRes stateOf]; [|done].
  cbn [golfers emit]. by rewrite golfers_callBall.
Qed.

(** With a current player and a ball, [_startPlayerTurn] leaves every
    registered turn holder with the manager's ball. *)
Lemma startPlayerTurn_aims_current (w : World) (k : nat) (cur : PlayerScore)
  (b : nat) :
  _currentPlayerIndex (manager w) = Idx k ->
  _players (manager w) !! k = Some cur ->
  _golfBall (manager w) = Some b ->
  aims (_startPlayerTurn w).
Proof.
  intros Hidx Hcur Hball.
  destruct (startPlayerTurn_spec w k cur Hidx Hcur)
    as ((Hm & _) & _ & Hothers & _).
  destruct (startPlayerTurn_current w k cur b Hidx Hcur Hball) as (Hb & _).
  intros g Hg Hon. rewrite Hm in *.
  destruct (decide (g = golfEntity cur)) as [->|Hne]; [congruence|].
  rewrite (Hothers g Hg Hne) in Hon. done.
Qed.

Lemma startPlayerTurn_aims (w : World) :
  is_Some (_golfBall (manager w)) -> aims w -> aims (_startPlayerTurn w).
Proof.
  intros [b Hb] Haims.
  destruct (_getCurrentPlayer (manager w)) as [cur|] eqn:Hcur.
  - apply getCurrentPlayer_some in Hcur as (k & Hidx & Hk).
    by apply (startPlayerTurn_aims_current w k cur b).
  - by rewrite startPlayerTurn_none.
Qed.

Lemma nextPlayerTurn_aims (w : World) :
  is_Some (_golfBall (manager w)) -> aims w -> aims (_nextPlayerTurn w).
Proof.
  intros Hsome Haims. unfold _nextPlayerTurn.
  destruct (ballIsMoving w); [done|]. by apply startPlayerTurn_aims.
Qed.

Lemma golfBall_startHole (holeIndex : nat) (w : World) :
  _golfBall (manager (stateOf (_startHole holeIndex w))) = _golfBall (manager w).
Proof.
  unfold _startHole.
  destruct (_ <=? _)%nat; [done|].
  destruct (_holes (manager w) !! holeIndex) as [hole|]; [|done].
  cbn [stateOf]. cbv zeta.
  match goal with |- context [_startPlayerTurn ?w0] =>
    destruct (startPlayerTurn_frame w0) as (Hm & _);
    rewrite Hm;
    match w0 with forEachPlayer ?f ?w1 =>
      destruct (forEachPlayer_frame f w1) as [(Hm1 & _) _];
        [intros; apply emit_frame|]; rewrite Hm1
    end
  end.
  cbn [manager updManager set_manager].
  destruct (_golfBall _) eqn:E; [rewrite manager_callBall|]; done.
Qed.

Lemma startHole_aims (holeIndex : nat) (w : World) :
  is_Some (_golfBall (manager w)) -> aims w ->
  aims (stateOf (_startHole holeIndex w)).
Proof.
  intros [b Hb] Haims. unfold _startHole.
  destruct (_ <=? _)%nat; [done|].
  destruct (_holes (manager w) !! holeIndex) as [hole|]; [|done].
  cbn [stateOf]. cbv zeta.
  cbn [manager updManager set_manager _golfBall set_currentHole].
  rewrite Hb.
  match goal with |- context [forEachPlayer ?f ?w1] =>
    destruct (forEachPlayer_frame f w1) as [(Hm1 & _) Hg1];
      [intros; apply emit_frame|];
    set (w2 := forEachPlayer f w1) in *
  end.
  apply startPlayerTurn_aims.
  - rewrite Hm1. cbn [manager updManager set_manager].
    rewrite manager_callBall. cbn. rewrite Hb. by eexists.
  - intros g. unfold hasTurn, registered. rewrite Hm1, Hg1.
    cbn [manager golfers updManager set_manager].
    rewrite manager_callBall, golfers_callBall. cbn. apply Haims.
Qed.

Lemma startGame_inPlay (w : World) :
  courseOk (manager w) -> aims w -> idle w ->
  aims (stateOf (startGame w)) /\ idle (stateOf (startGame w)).
Proof.
  intros [Hholes Hcur] Haims Hidle.
  destruct (_players (manager w)) as [|first rest] eqn:Hps.
  - unfold startGame. by rewrite Hps.
  - destruct (startGame_steps w first rest
                (mkHole 1 "Starter Hole" 3 (mkVec (-10) 2 0) (mkVec 10 2 0)
                   (1 # 2)) Hps) as (w5 & -> & Hm5 & _).
    { by rewrite Hholes. }
    cbn [stateOf].
    assert (aims (_startPlayerTurn w5)) as H6.
    { apply (startPlayerTurn_aims_current w5 0 (cleared first) (nextBall w));
        by rewrite Hm5. }
    split.
    + revert H6. apply follows_aims, broadcast_follows.
    + intros Hnone.
      destruct (broadcastGameState_frame (_startPlayerTurn w5)) as [(Hm7 & _) _].
      destruct (startPlayerTurn_frame w5) as (Hm6 & _).
      rewrite Hm7, Hm6, Hm5 in Hnone. done.
Qed.

Lemma fire_inPlay (t : Timer) (w : World) :
  is_Some (_golfBall (manager w)) -> aims w ->
  aims (stateOf (fire t w)) /\ idle (stateOf (fire t w)).
Proof.
  intros Hsome Haims. split.
  - destruct t; simpl.
    + by apply nextPlayerTurn_aims.
    + by apply startHole_aims.
    + destruct (negb _); simpl; [|done]. by apply nextPlayerTurn_aims.
  - intros Hnone. destruct Hsome as [b Hb]. exfalso. revert Hnone.
    destruct t; simpl.
    + destruct (nextPlayerTurn_sameBalls w) as [-> _]. by rewrite Hb.
    + by rewrite golfBall_startHole, Hb.
    + destruct (negb _); simpl; [|by rewrite Hb].
      destruct (nextPlayerTurn_sameBalls w) as [-> _]. by rewrite Hb.
Qed.

Lemma step_inPlay (ev : Event) (w : World) :
  inPlay w -> inPlay (stateOf (step ev w)).
Proof.
  intros (Hcourse & Hballs & Haims & Hidle).
  split; [by apply step_course|]. split; [by apply step_ballsOk|].
  destruct ev as [p|p| | |g input facing|b other started|b pos vel|k]; simpl.
  - pose proof (onJoinedWorld_follows p w) as Hf.
    split; [by apply (follows_aims w)|by apply (follows_idle w)].
  - pose proof (onLeftWorld_follows p w) as Hf.
    split; [by apply (follows_aims w)|by apply (follows_idle w)].
  - by apply startGame_inPlay.
  - pose proof (endGame_follows w) as Hf.
    split; [by apply (follows_aims w)|by apply (follows_idle w)].
  - destruct (_ && _); simpl; [|done].
    pose proof (tick_follows g input facing w) as Hf.
    split; [by apply (follows_aims w)|by apply (follows_idle w)].
  - destruct (_ <? _)%nat; [|done]. cbn [andb].
    destruct (Ball.isSpawned (balls w b)) eqn:Hsp; [|done].
    assert (is_Some (_golfBall (manager w))) as Hsome.
    { rewrite (Hballs b Hsp). by eexists. }
    enough (follows w (stateOf (foldl (fun r e => seqRes r (onBallEvent e))
                                  (Done w) (Ball._handleCollision other started))))
      as Hf.
    { split; [by apply (follows_aims w)|by apply (follows_idle w)]. }
    apply (foldl_seqRes_inv
             (fun w' => follows w w')); [|apply follows_refl].
    intros e w' Hw'.
    assert (is_Some (_golfBall (manager w'))) as Hsome'.
    { destruct Hw' as [-> _]. done. }
    eapply follows_trans; [exact Hw'|].
    destruct e; simpl.
    + by apply handleBallInHole_follows.
    + by apply handleWaterHazard_follows.
  - destruct (_ && _); simpl; [|done].
    assert (follows w (set_balls
                         (<[b:=Ball.setLinearVelocity vel
                                 (Ball.setPosition pos (balls w b))]> (balls w)) w))
      as Hf.
    { split; [done|]. split; [by left|]. split; [done|by right]. }
    split; [by apply (follows_aims w)|by apply (follows_idle w)].
  - destruct (timers w !! k) as [t|] eqn:Ht; [|done].
    assert (is_Some (_golfBall (manager w))) as Hsome.
    { destruct (_golfBall (manager w)) eqn:E; [by eexists|].
      destruct (Hidle E) as [Hnil _]. rewrite Hnil in Ht. done. }
    apply fire_inPlay; [done|].
    intros g. apply Haims.
Qed.

(** X18. In every state the server can reach, a registered player entity
    that has the turn holds a reference to the ball the manager holds:
    whoever may shoot, shoots the ball in play. *)
Theorem turn_holder_plays_ball_in_play (evs : list Event) (g : nat) :
  let w := stateOf (run evs initial) in
  In g (registered (manager w)) ->
  hasTurn w g = true ->
  exists b, _golfBall (manager w) = Some b
            /\ Golfer._currentBall (golfers w g) = Some b.
Proof.
  intros w Hg Hon.
  assert (inPlay w) as (_ & _ & Haims & Hidle).
  { subst w. unfold run. apply (foldl_seqRes_inv inPlay).
    - intros ev w. apply step_inPlay.
    - split; [split; [done|cbn; lia]|]. split; [by intros b|].
      split; [by intros g0|]. by intros _. }
  destruct (_golfBall (manager w)) as [b|] eqn:Hb.
  - exists b. split; [done|]. rewrite <- Hb. by apply Haims.
  - destruct (Hidle Hb) as [_ Hoff]. by rewrite Hoff in Hon.
Qed.

End BallInPlay.

Lemma turn_holder_plays_ball_in_play_witness :
  exists b,
    Manager._golfBall
      (Manager.manager
         (Manager.stateOf
            (Server.run [Server.JoinedWorld Scenarios.alice; Server.StartGolf]
               Server.initial))) = Some b.
Proof.
  destruct (turn_holder_plays_ball_in_play
              [Server.JoinedWorld Scenarios.alice; Server.StartGolf] 0)
    as (b & Hb & _).
  - vm_compute. left. reflexivity.
  - vm_compute. reflexivity.
  - exists b. exact Hb.
Defined.

(** ** Trees *)

Section DecorationFacts.
Import Course Decoration.

Lemma trunkCalls_id (position : BlockPos) :
  Forall (fun c => c.2 = 1%Z) (trunkCalls position).
Proof. by repeat constructor. Qed.

Lemma leafCalls_id (position : BlockPos) :
  Forall (fun c => c.2 = 100%Z) (leafCalls position).
Proof.
  apply List.Forall_forall. intros c Hc. unfold leafCalls in Hc.
  apply in_forRange in Hc as (dx & _ & Hc).
  apply in_forRange in Hc as (dz & _ & Hc).
  destruct (_ && _); [done|]. by destruct Hc as [<-|[<-|[]]].
Qed.

Lemma in_trunkCalls (position p : BlockPos) :
  p ∈ map fst (trunkCalls position) <-> inTrunk position p.
Proof.
  unfold trunkCalls, inTrunk. cbn [map fst].
  rewrite !elem_of_cons, elem_of_nil. destruct p as [x y z]. cbn.
  split.
  - intros [[= -> -> ->]|[[= -> -> ->]|[[= -> -> ->]|[]]]]; lia.
  - intros (-> & -> & Hy).
    assert (y = by_ position + 1 \/ y = by_ position + 2 \/ y = by_ position + 3)%Z
      as [-> | [-> | ->]] by lia; tauto.
Qed.

Lemma in_leafCalls (position p : BlockPos) :
  p ∈ map fst (leafCalls position) <-> inLeaves position p.
Proof.
  rewrite list_elem_of_In, in_map_iff. unfold leafCalls, inLeaves. split.
  - intros (c & <- & Hc).
    apply in_forRange in Hc as (dx & Hdx & Hc).
    apply in_forRange in Hc as (dz & Hdz & Hc).
    destruct (Z.eqb_spec dx 0) as [->|Hx]; cbn [andb] in Hc.
    + destruct (Z.eqb_spec dz 0) as [->|Hz]; [done|].
      destruct Hc as [<-|[<-|[]]]; cbn; lia.
    + destruct Hc as [<-|[<-|[]]]; cbn; lia.
  - intros (Hx & Hz & Hne & Hy). exists (p, 100%Z). split; [done|].
    apply in_forRange. exists (bx p - bx position)%Z. split; [lia|].
    apply in_forRange. exists (bz p - bz position)%Z. split; [lia|].
    destruct p as [x y z]. cbn in *.
    replace (bx position + (x - bx position))%Z with x by lia.
    replace (bz position + (z - bz position))%Z with z by lia.
    destruct (Z.eqb_spec (x - bx position) 0) as [Hx0|Hx0]; cbn [andb].
    + destruct (Z.eqb_spec (z - bz position) 0) as [Hz0|Hz0]; [lia|].
      destruct Hy as [-> | ->]; [by left|by right; left].
    + destruct Hy as [-> | ->]; [by left|by right; left].
Qed.

Lemma treeCalls_translate (position : BlockPos) :
  map fst (treeCalls position)
  = map (translate position) (map fst (treeCalls (mkPos 0 0 0))).
Proof.
  unfold treeCalls, trunkCalls, leafCalls, translate. cbn.
  by rewrite !Z.add_0_r.
Qed.

Lemma translate_inj (position : BlockPos) : Inj (=) (=) (translate position).
Proof.
  intros [x1 y1 z1] [x2 y2 z2]. unfold translate. cbn.
  intros [= Hx Hy Hz]. f_equal; lia.
Qed.

(** X19. [buildSimpleTree] at any position: afterwards the three blocks
    above the position are trunk (id [1]); the eight columns around the
    trunk carry leaves (id [100]) on the two levels [y + 3] and [y + 4];
    every other block is as it was, among them the block on top of the
    trunk, which the loop skips on both levels.  The nineteen calls go
    to nineteen different blocks. *)
Theorem tree_shape (world : ChunkLattice) (position p : BlockPos) :
  buildSimpleTree world position !! key p
  = (if decide (inTrunk position p) then Some 1%Z
     else if decide (inLeaves position p) then Some 100%Z
     else world !! key p)
  /\ buildSimpleTree world position
       !! key (mkPos (bx position) (by_ position + 4) (bz position))
     = world !! key (mkPos (bx position) (by_ position + 4) (bz position))
  /\ length (treeCalls position) = 19%nat
  /\ NoDup (map fst (treeCalls position)).
Proof.
  assert (forall q,
            buildSimpleTree world position !! key q
            = (if decide (inTrunk position q) then Some 1%Z
               else if decide (inLeaves position q) then Some 100%Z
               else world !! key q)) as Hshape.
  { intros q. unfold buildSimpleTree, treeCalls. rewrite foldl_app.
    rewrite (foldl_setBlock_lookup _ 100%Z) by apply leafCalls_id.
    rewrite (foldl_setBlock_lookup _ 1%Z) by apply trunkCalls_id.
    pose proof (in_trunkCalls position q) as Ht.
    pose proof (in_leafCalls position q) as Hl.
    repeat case_decide; try tauto; try done.
    exfalso. unfold inTrunk, inLeaves in *. tauto. }
  split; [apply Hshape|]. split; [|split].
  - rewrite Hshape.
    rewrite decide_False by (unfold inTrunk; cbn; lia).
    rewrite decide_False by (unfold inLeaves; cbn; tauto).
    done.
  - reflexivity.
  - rewrite treeCalls_translate.
    change (map ?f ?l) with (f <$> l) at 1.
    apply (NoDup_fmap_2_strong (translate position)).
    { intros x y _ _. apply translate_inj. }
    apply (bool_decide_unpack _). vm_compute. exact I.
Qed.

End DecorationFacts.

(** ** The calls of the course helpers *)

Section CallCounts.
Import Course.

Lemma length_forRange {A} (lo hi : Z) (body : Z -> list A) (n : nat) :
  (forall i, length (body i) = n) ->
  length (forRange lo hi body) = (Z.to_nat (hi - lo + 1) * n)%nat.
Proof.
  intros Hn. unfold forRange.
  assert (forall l : list Z, length (flat_map body l) = (length l * n)%nat) as Hl.
  { induction l as [|i l IH]; [done|].
    cbn [flat_map length]. rewrite length_app, IH, Hn. lia. }
  by rewrite Hl, length_seqZ.
Qed.

Lemma NoDup_flat_map {A B} (body : A -> list B) (l : list A) :
  NoDup l ->
  (forall i, NoDup (body i)) ->
  (forall i j b, b ∈ body i -> b ∈ body j -> i = j) ->
  NoDup (flat_map body l).
Proof.
  intros Hl Hbody Hdisj. induction Hl as [|i l Hi Hl IH]; [constructor|].
  cbn [flat_map]. apply list.NoDup_app. split; [apply Hbody|]. split; [|done].
  intros b Hb Hb'. apply list_elem_of_In, in_flat_map in Hb' as (j & Hj & Hbj).
  apply list_elem_of_In in Hj, Hbj.
  by rewrite (Hdisj i j b Hb Hbj) in Hi.
Qed.

Lemma NoDup_forRange {A} (lo hi : Z) (body : Z -> list A) :
  (forall i, NoDup (body i)) ->
  (forall i j a, a ∈ body i -> a ∈ body j -> i = j) ->
  NoDup (forRange lo hi body).
Proof. intros. apply NoDup_flat_map; [apply NoDup_seqZ|done|done]. Qed.

Lemma elem_of_forRange {A} (lo hi : Z) (body : Z -> list A) (a : A) :
  a ∈ forRange lo hi body <-> exists i, (lo <= i <= hi)%Z /\ a ∈ body i.
Proof.
  rewrite list_elem_of_In, in_forRange.
  split; intros (i & Hi & Ha); exists i; by rewrite ?list_elem_of_In in *.
Qed.

Lemma forRange_single {A} (i : Z) (body : Z -> list A) :
  forRange i i body = body i.
Proof.
  unfold forRange. replace (i - i + 1)%Z with 1%Z by lia.
  cbn. apply app_nil_r.
Qed.

(** X20. [buildRectangle] makes one [setBlock] call for each lattice
    point of the box, [(|dx| + 1) * (|dy| + 1) * (|dz| + 1)] in all, and
    [buildCircle] at most one for each point: no block is set twice.  A
    circle of negative radius sets nothing, and a circle of radius [0]
    sets its centre only. *)
Theorem each_block_set_once (corner1 corner2 center : BlockPos)
  (radius blockId : Z) :
  length (rectangleCalls corner1 corner2 blockId)
  = Z.to_nat ((Z.abs (bx corner1 - bx corner2) + 1)
              * (Z.abs (by_ corner1 - by_ corner2) + 1)
              * (Z.abs (bz corner1 - bz corner2) + 1))
  /\ NoDup (rectangleCalls corner1 corner2 blockId)
  /\ NoDup (circleCalls center radius blockId)
  /\ ((radius < 0)%Z -> circleCalls center radius blockId = [])
  /\ circleCalls center 0 blockId = [(center, blockId)].
Proof.
  split; [|split; [|split; [|split]]].
  - unfold rectangleCalls. cbv zeta.
    rewrite (length_forRange _ _ _
               (Z.to_nat (Z.abs (by_ corner1 - by_ corner2) + 1)
                * Z.to_nat (Z.abs (bz corner1 - bz corner2) + 1))).
    + rewrite Z2Nat.inj_mul; [|apply Z.mul_nonneg_nonneg; lia|lia].
      rewrite Z2Nat.inj_mul by lia. rewrite <- Nat.mul_assoc.
      f_equal. lia.
    + intros x.
      rewrite (length_forRange _ _ _
                 (Z.to_nat (Z.abs (bz corner1 - bz corner2) + 1))).
      * f_equal; lia.
      * intros y. rewrite (length_forRange _ _ _ 1); [|done].
        rewrite Nat.mul_1_r. f_equal. lia.
  - unfold rectangleCalls. cbv zeta. apply NoDup_forRange.
    + intros x. apply NoDup_forRange.
      * intros y. apply NoDup_forRange; [intros; apply NoDup_singleton|].
        intros z z' a Ha Ha'. apply list_elem_of_singleton in Ha, Ha'.
        congruence.
      * intros y y' a Ha Ha'.
        apply elem_of_forRange in Ha as (z & _ & Ha).
        apply elem_of_forRange in Ha' as (z' & _ & Ha').
        apply list_elem_of_singleton in Ha, Ha'. congruence.
    + intros x x' a Ha Ha'.
      apply elem_of_forRange in Ha as (y & _ & Ha).
      apply elem_of_forRange in Ha as (z & _ & Ha).
      apply elem_of_forRange in Ha' as (y' & _ & Ha').
      apply elem_of_forRange in Ha' as (z' & _ & Ha').
      apply list_elem_of_singleton in Ha, Ha'. congruence.
  - unfold circleCalls. apply NoDup_forRange.
    + intros x. apply NoDup_forRange.
      * intros z. destruct (withinRadius _ _ _);
          [apply NoDup_singleton|constructor].
      * intros z z' a Ha Ha'.
        destruct (withinRadius _ _ _); [|by apply elem_of_nil in Ha].
        destruct (withinRadius _ _ _); [|by apply elem_of_nil in Ha'].
        apply list_elem_of_singleton in Ha, Ha'. congruence.
    + intros x x' a Ha Ha'.
      apply elem_of_forRange in Ha as (z & _ & Ha).
      apply elem_of_forRange in Ha' as (z' & _ & Ha').
      destruct (withinRadius _ _ _); [|by apply elem_of_nil in Ha].
      destruct (withinRadius _ _ _); [|by apply elem_of_nil in Ha'].
      apply list_elem_of_singleton in Ha, Ha'. congruence.
  - intros Hneg. destruct (circleCalls center radius blockId) as [|c l] eqn:E;
      [done|].
    assert (c ∈ circleCalls center radius blockId) as Hc
      by (rewrite E; apply elem_of_cons; by left).
    unfold circleCalls in Hc.
    apply elem_of_forRange in Hc as (x & Hx & _). lia.
  - unfold circleCalls. rewrite !Z.sub_0_r, !Z.add_0_r.
    rewrite !forRange_single, !Z.sub_diag. cbn. by destruct center.
Qed.

End CallCounts.

(** ** Shots and callbacks *)

Section Listeners.
Import Manager Server Roster Reach.

Lemma sameListeners_refl (w : World) : sameListeners w w.
Proof. by split. Qed.

Lemma sameListeners_trans (w1 w2 w3 : World) :
  sameListeners w1 w2 -> sameListeners w2 w3 -> sameListeners w1 w3.
Proof. intros [? ?] [? ?]. split; congruence. Qed.

Lemma sameListeners_ok (w w' : World) :
  sameListeners w w' -> listenersOk w -> listenersOk w'.
Proof. intros [Hn Hl] Hok g. rewrite Hn, Hl. apply Hok. Qed.

Lemma sameButGolfers_sameListeners (w w' : World) :
  sameButGolfers w w' -> sameListeners w w'.
Proof. by intros (_ & Hn & Hl & _). Qed.

Lemma timers_emitGolfShot (n : nat) (w : World) :
  let w' := foldr (fun _ => setTimeout AfterShot) w (replicate n tt) in
  timers w' = timers w ++ replicate n AfterShot /\ sameListeners w w'.
Proof.
  cbv zeta. induction n as [|n [IHt IHl]]; cbn [replicate foldr].
  - split; [by rewrite app_nil_r|apply sameListeners_refl].
  - split.
    + match goal with |- timers (setTimeout AfterShot ?w0) = _ =>
        change (timers (setTimeout AfterShot w0)) with (timers w0 ++ [AfterShot])
      end.
      rewrite IHt.
      rewrite <- app_assoc. f_equal. symmetry. apply replicate_cons_app.
    + eapply sameListeners_trans; [exact IHl|]. by split.
Qed.

Lemma deliver_listeners (g : nat) (o : Golfer.Out) (w : World) :
  sameListeners w (deliver g o w)
  /\ timers (deliver g o w)
     = timers w ++ (if isEmit o then replicate (shotListeners w g) AfterShot
                    else []).
Proof.
  destruct o as [b d f|b p|u|n]; cbn [deliver isEmit].
  - unfold callBall. destruct (Ball.hit d f (balls w b)).
    cbn. by rewrite app_nil_r.
  - unfold callBall. destruct (Ball.resetToPosition p (balls w b)).
    cbn. by rewrite app_nil_r.
  - cbn. by rewrite app_nil_r.
  - destruct (timers_emitGolfShot (shotListeners w g) w) as [Ht Hl]. by split.
Qed.

Lemma foldl_deliver_listeners (g : nat) (outs : list Golfer.Out) (w : World) :
  let w' := foldl (fun w o => deliver g o w) w outs in
  sameListeners w w'
  /\ timers w'
     = timers w
       ++ replicate (length (filter isEmit outs) * shotListeners w g) AfterShot.
Proof.
  revert w. induction outs as [|o outs IH]; intros w; cbn [foldl].
  - split; [apply sameListeners_refl|]. cbn. by rewrite app_nil_r.
  - destruct (deliver_listeners g o w) as [Hl Ht].
    destruct (IH (deliver g o w)) as [Hl' Ht']. cbv zeta in *.
    split; [by eapply sameListeners_trans|].
    rewrite Ht', Ht. destruct Hl as [_ ->]. rewrite <- app_assoc. f_equal.
    rewrite list.filter_cons. destruct o; cbn [isEmit]; try done.
    rewrite decide_True by done. cbn [length].
    rewrite <- replicate_add. f_equal.
Qed.

Lemma callGolfer_listeners (g : nat) (m : Golfer.Method) (w : World) :
  sameListeners w (callGolfer g m w)
  /\ timers (callGolfer g m w)
     = timers w
       ++ replicate (length (filter isEmit (m (golfers w g)).2)
                     * shotListeners w g) AfterShot.
Proof.
  unfold callGolfer. destruct (m (golfers w g)) as [e' outs]. cbn [snd].
  apply (foldl_deliver_listeners g outs
           (set_golfers (<[g:=e']> (golfers w)) w)).
Qed.

Lemma tick_emits (input : Golfer.Input) (facing : Vector3)
  (e : Golfer.GolfPlayerEntity) :
  length (filter isEmit (Golfer.onTickWithPlayerInput input facing e).2)
  = if Golfer.shotTaken input e is Some _ then 1 else 0.
Proof.
  destruct e as [pl maxP power charging aiming ball shots turn inWorld pos].
  destruct input as [sp_ f_ r_].
  unfold Golfer.onTickWithPlayerInput, Golfer.shotTaken;
    cbn [Golfer._isPlayerTurn negb andb].
  destruct turn; [|reflexivity].
  destruct sp_, charging, aiming, ball as [ball|], inWorld, f_, r_; reflexivity.
Qed.

Lemma nextPlayerTurn_sameListeners (w : World) :
  sameListeners w (_nextPlayerTurn w).
Proof.
  unfold _nextPlayerTurn. destruct (ballIsMoving w); [by split|].
  eapply sameListeners_trans;
    [|apply sameButGolfers_sameListeners, startPlayerTurn_frame].
  by split.
Qed.

Lemma startHole_sameListeners (holeIndex : nat) (w : World) :
  sameListeners w (stateOf (_startHole holeIndex w)).
Proof.
  unfold _startHole.
  destruct (_ <=? _)%nat; [apply sameListeners_refl|].
  destruct (_holes (manager w) !! holeIndex) as [hole|];
    [|apply sameListeners_refl].
  cbn [stateOf]. cbv zeta.
  match goal with |- context [_startPlayerTurn ?w0] =>
    eapply sameListeners_trans;
      [|apply sameButGolfers_sameListeners, (startPlayerTurn_frame w0)];
    match w0 with forEachPlayer ?f ?w1 =>
      eapply sameListeners_trans;
        [|apply sameButGolfers_sameListeners;
          destruct (forEachPlayer_frame f w1) as [Hf _];
            [intros; apply emit_frame|exact Hf]]
    end
  end.
  cbn [manager updManager set_manager _golfBall set_currentHole].
  destruct (_golfBall (manager w)) as [b|]; [|by split].
  unfold callBall. by destruct (Ball.spawn (teePosition hole) _).
Qed.

Lemma createGolfBall_sameListeners (w : World) :
  sameListeners w (_createGolfBall w).
Proof.
  unfold _createGolfBall. cbv zeta.
  destruct (_golfBall (manager w)) as [old|]; [|by split].
  destruct (Ball.isSpawned (balls w old)); [|by split].
  unfold callBall. by destruct (Ball.despawn _).
Qed.

Lemma startGame_sameListeners (w : World) :
  sameListeners w (stateOf (startGame w)).
Proof.
  unfold startGame. destruct (_ =? _)%nat; [apply sameListeners_refl|].
  cbv zeta.
  match goal with |- context [_startHole 0 ?w0] => set (w1 := w0) end.
  assert (sameListeners w w1) as H1.
  { subst w1. eapply sameListeners_trans; [|apply createGolfBall_sameListeners].
    by split. }
  pose proof (startHole_sameListeners 0 w1) as H2.
  destruct (_startHole 0 w1) as [w2|e w2]; cbn [seqRes stateOf] in *.
  - eapply sameListeners_trans; [exact (sameListeners_trans _ _ _ H1 H2)|].
    apply sameButGolfers_sameListeners, broadcastGameState_frame.
  - exact (sameListeners_trans _ _ _ H1 H2).
Qed.

Lemma endGame_sameListeners (w : World) :
  sameListeners w (stateOf (endGame w)).
Proof.
  unfold endGame. destruct (negb _); [apply sameListeners_refl|]. cbv zeta.
  set (w1 := updManager (set_gameInProgress false) w).
  assert (sameListeners w w1) as H1 by by split.
  set (w2 := match _getCurrentPlayer (manager w1) with
             | Some cur => callGolfer (golfEntity cur) Golfer.endTurn w1
             | None => w1
             end).
  assert (sameListeners w1 w2) as H2.
  { subst w2. destruct (_getCurrentPlayer (manager w1)) as [cur|];
      [apply callGolfer_listeners|apply sameListeners_refl]. }
  clearbody w2.
  destruct (_calculateFinalScores (manager w2)); cbn [stateOf].
  - exact (sameListeners_trans _ _ _ H1 H2).
  - eapply sameListeners_trans; [exact (sameListeners_trans _ _ _ H1 H2)|].
    apply sameButGolfers_sameListeners.
    match goal with |- context [forEachPlayer ?f w2] =>
      destruct (forEachPlayer_frame f w2) as [Hf _];
        [intros; apply emit_frame|] end.
    done.
Qed.

Lemma handleBallInHole_sameListeners (w : World) :
  sameListeners w (stateOf (_handleBallInHole w)).
Proof.
  unfold _handleBallInHole.
  destruct (negb _); [apply sameListeners_refl|].
  destruct (_currentPlayerIndex (manager w)) as [k|]; [|apply sameListeners_refl].
  destruct (_getCurrentPlayer (manager w)) as [cur|]; [|apply sameListeners_refl].
  cbv zeta.
  destruct (_holes (manager w) !! _currentHole (manager w)) as [hole|];
    cbn [stateOf]; [|by split].
  match goal with |- context [forEachPlayer ?f ?w0] =>
    destruct (forEachPlayer_frame f w0) as [(_ & Hn & Hl & _) _];
      [intros; apply emit_frame|] end.
  unfold setTimeout. split.
  - cbn [nextGolfer emit set_timers]. by rewrite Hn.
  - cbn [shotListeners emit set_timers]. by rewrite Hl.
Qed.

Lemma handleWaterHazard_sameListeners (w : World) :
  sameListeners w (stateOf (_handleWaterHazard w)).
Proof.
  unfold _handleWaterHazard.
  destruct (_getCurrentPlayer (manager w)) as [cur|]; [|apply sameListeners_refl].
  cbv zeta.
  eapply sameListeners_trans;
    [apply (callGolfer_listeners (golfEntity cur) Golfer.incrementShotCount)|].
  set (w1 := callGolfer _ _ w).
  destruct (_golfBall (manager w1)) as [b|]; [|by split].
  destruct (_holes (manager w1) !! _currentHole (manager w1)) as [hole|];
    cbn [seqRes stateOf]; [|by split].
  unfold callBall. by destruct (Ball.resetToPosition _ _).
Qed.

Lemma foldl_despawn_sameListeners (gs : list nat) (w : World) :
  sameListeners w (foldl (fun w g => callGolfer g Golfer.despawn w) w gs).
Proof.
  revert w. induction gs as [|g gs IH]; intros w; simpl;
    [apply sameListeners_refl|].
  eapply sameListeners_trans; [apply callGolfer_listeners|apply IH].
Qed.

Lemma onLeftWorld_sameListeners (p : Player) (w : World) :
  sameListeners w (onLeftWorld p w).
Proof.
  unfold onLeftWorld.
  eapply sameListeners_trans; [|apply foldl_despawn_sameListeners].
  rewrite removePlayer_eq.
  eapply sameListeners_trans;
    [|apply sameButGolfers_sameListeners, broadcastGameState_frame].
  by split.
Qed.

Lemma onJoinedWorld_listeners (p : Player) (w : World) :
  nextGolfer (onJoinedWorld p w) = S (nextGolfer w)
  /\ shotListeners (onJoinedWorld p w)
     = <[nextGolfer w := S (shotListeners w (nextGolfer w))]> (shotListeners w).
Proof.
  unfold onJoinedWorld, addPlayer. cbv zeta.
  match goal with |- context [_broadcastGameState ?w0] =>
    destruct (broadcastGameState_frame w0) as [(_ & Hn & Hl & _) _];
    rewrite Hn, Hl end.
  cbn [nextGolfer shotListeners set_shotListeners updManager set_manager].
  match goal with |- context [callGolfer ?g ?m ?w0] =>
    destruct (callGolfer_listeners g m w0) as [[Hn1 Hl1] _];
    rewrite Hn1, Hl1 end.
  done.
Qed.

Lemma fire_sameListeners (t : Timer) (w : World) :
  sameListeners w (stateOf (fire t w)).
Proof.
  destruct t; simpl.
  - apply nextPlayerTurn_sameListeners.
  - apply startHole_sameListeners.
  - destruct (negb _); simpl;
      [apply nextPlayerTurn_sameListeners|apply sameListeners_refl].
Qed.

Lemma step_listenersOk (ev : Event) (w : World) :
  listenersOk w -> listenersOk (stateOf (step ev w)).
Proof.
  intros Hok.
  destruct ev as [p|p| | |g input facing|b other started|b pos vel|k]; simpl.
  - destruct (onJoinedWorld_listeners p w) as [Hn Hl]. intros g.
    rewrite Hn, Hl. destruct (decide (nextGolfer w = g)) as [<-|Hne].
    + rewrite fn_lookup_insert, Hok, Nat.ltb_irrefl.
      by destruct (Nat.ltb_spec (nextGolfer w) (S (nextGolfer w))); [|lia].
    + rewrite fn_lookup_insert_ne, Hok by done.
      destruct (Nat.ltb_spec g (nextGolfer w)),
        (Nat.ltb_spec g (S (nextGolfer w))); try done; lia.
  - revert Hok. apply sameListeners_ok, onLeftWorld_sameListeners.
  - revert Hok. apply sameListeners_ok, startGame_sameListeners.
  - revert Hok. apply sameListeners_ok, endGame_sameListeners.
  - destruct (_ && _); simpl; [|done].
    revert Hok. apply sameListeners_ok, callGolfer_listeners.
  - destruct (_ && _); simpl; [|done].
    apply (foldl_seqRes_inv listenersOk); [|done].
    intros [] w' Hw'; simpl; revert Hw'; apply sameListeners_ok.
    + apply handleBallInHole_sameListeners.
    + apply handleWaterHazard_sameListeners.
  - by destruct (_ && _).
  - destruct (timers w !! k) as [t|]; [|done].
    apply (sameListeners_ok (set_timers (removeAt k (timers w)) w));
      [apply fire_sameListeners|done].
Qed.

Lemma run_listenersOk (evs : list Event) :
  listenersOk (stateOf (run evs initial)).
Proof.
  unfold run. apply (foldl_seqRes_inv listenersOk).
  - intros ev w. apply step_listenersOk.
  - by intros g.
Qed.

(** X21. One shot, one turn advance.  In every state the server can
    reach, each player entity that has been made has exactly one
    ['golf-shot'] listener, so a tick on which an entity shoots leaves
    exactly one new callback waiting, the manager's one-second check, and
    a tick on which it does not shoot leaves none. *)
Theorem shot_arms_one_timer (evs : list Event) (g : nat)
  (input : Golfer.Input) (facing : Vector3)
  (Hmade : g < nextGolfer (stateOf (run evs initial))) :
  let w := stateOf (run evs initial) in
  let w' := stateOf (step (TickWithPlayerInput g input facing) w) in
  shotListeners w g = 1
  /\ timers w'
     = timers w ++ (if Golfer.shotTaken input (golfers w g) is Some _
                    then [AfterShot] else []).
Proof.
  intros w w'. pose proof (run_listenersOk evs g) as Hok. fold w in Hok, Hmade.
  assert (shotListeners w g = 1) as Hone.
  { rewrite Hok. by destruct (Nat.ltb_spec g (nextGolfer w)); [|lia]. }
  split; [done|]. subst w'. cbn [step].
  destruct (Nat.ltb_spec g (nextGolfer w)) as [_|]; [|lia]. cbn [andb].
  destruct (Golfer.world (golfers w g)) eqn:Hworld; cbn [stateOf].
  - destruct (callGolfer_listeners g
                (Golfer.onTickWithPlayerInput input facing) w) as [_ ->].
    rewrite tick_emits, Hone.
    by destruct (Golfer.shotTaken input (golfers w g)).
  - assert (Golfer.shotTaken input (golfers w g) = None) as ->.
    { unfold Golfer.shotTaken. rewrite Hworld. by rewrite andb_false_r. }
    by rewrite app_nil_r.
Qed.

End Listeners.

Lemma shot_arms_one_timer_witness :
  let w := Manager.stateOf
             (Server.run [Server.JoinedWorld Scenarios.alice; Server.StartGolf;
                          Server.TickWithPlayerInput 0 Scenarios.press
                            Scenarios.ahead] Server.initial) in
  Manager.timers
    (Manager.stateOf
       (Server.step
          (Server.TickWithPlayerInput 0 Scenarios.release Scenarios.ahead) w))
  = Manager.timers w ++ [Manager.AfterShot].
Proof.
  intros w.
  refine (proj2 (shot_arms_one_timer
                   [Server.JoinedWorld Scenarios.alice; Server.StartGolf;
                    Server.TickWithPlayerInput 0 Scenarios.press Scenarios.ahead]
                   0 Scenarios.release Scenarios.ahead _)).
  vm_compute. lia.
Defined.

(** ** Leaving players *)

Section Leaving.
Import Manager Server Roster Reach.

Lemma foldl_despawn_golfers (gs : list nat) (w : World) (g : nat) :
  golfers (foldl (fun w g => callGolfer g Golfer.despawn w) w gs) g
  = if decide (g ∈ gs) then (Golfer.despawn (golfers w g)).1 else golfers w g.
Proof.
  revert w. induction gs as [|g0 gs IH]; intros w; cbn [foldl].
  - rewrite decide_False; [done|]. apply not_elem_of_nil.
  - rewrite IH. destruct (callGolfer_keeps g0 Golfer.despawn w) as [-> _].
    destruct (decide (g0 = g)) as [->|Hne].
    + rewrite fn_lookup_insert.
      rewrite (decide_True (P := g ∈ g :: gs)) by (apply elem_of_cons; by left).
      by destruct (decide (g ∈ gs)).
    + rewrite fn_lookup_insert_ne by done.
      destruct (decide (g ∈ gs)) as [Hin|Hnin].
      * by rewrite decide_True by (apply elem_of_cons; by right).
      * rewrite decide_False; [done|].
        intros [->|Hin]%elem_of_cons; done.
Qed.

Lemma golfers_removePlayer (p : Player) (w : World) :
  golfers (removePlayer p w) = golfers w
  /\ nextGolfer (removePlayer p w) = nextGolfer w
  /\ timers (removePlayer p w) = timers w
  /\ manager (removePlayer p w)
     = set_players (mapDelete (_players (manager w)) (id p)) (manager w).
Proof.
  rewrite removePlayer_eq.
  match goal with |- context [_broadcastGameState ?w0] =>
    destruct (broadcastGameState_frame w0) as [(Hm & Hn & _ & _ & _ & Ht) Hg]
  end.
  by rewrite Hg, Hn, Ht, Hm.
Qed.

Lemma foldl_despawn_timers (gs : list nat) (w : World) :
  timers (foldl (fun w g => callGolfer g Golfer.despawn w) w gs) = timers w.
Proof.
  revert w. induction gs as [|g0 gs IH]; intros w; cbn [foldl]; [done|].
  rewrite IH.
  by destruct (callGolfer_uiOnly g0 _ w uiOnly_despawn)
    as [(_ & _ & _ & _ & _ & Ht) _].
Qed.

(** X22. When a player leaves, the [LEFT_WORLD] handler takes the
    player's entry off the roster and despawns every entity of that
    player that is in the world: afterwards the player has no entity in
    the world.  Every other entity is exactly as it was, and a despawned
    entity keeps all its fields but [world], its turn flag included. *)
Theorem leaving_despawns_entities (w : World) (p : Player) (g : nat) :
  let w' := onLeftWorld p w in
  get (id p) (_players (manager w')) = None
  /\ getPlayerEntitiesByPlayer p w' = []
  /\ golfers w' g
     = (if decide (g ∈ getPlayerEntitiesByPlayer p w)
        then Golfer.set_world false (Golfer.position (golfers w g)) (golfers w g)
        else golfers w g)
  /\ hasTurn w' g = hasTurn w g
  /\ timers w' = timers w
  /\ _currentPlayerIndex (manager w') = _currentPlayerIndex (manager w).
Proof.
  intros w'. subst w'. unfold onLeftWorld.
  destruct (golfers_removePlayer p w) as (Hg1 & Hn1 & Ht1 & Hm1).
  set (w1 := removePlayer p w) in *.
  assert (getPlayerEntitiesByPlayer p w1 = getPlayerEntitiesByPlayer p w) as Hgs.
  { unfold getPlayerEntitiesByPlayer. by rewrite Hg1, Hn1. }
  set (gs := getPlayerEntitiesByPlayer p w1) in *.
  pose proof (foldl_despawn_golfers gs w1) as Hg2.
  pose proof (foldl_despawn_manager gs w1) as Hm2.
  destruct (foldl_despawn_sameListeners gs w1) as [Hn2 _].
  pose proof (foldl_despawn_timers gs w1) as Ht3.
  set (w2 := foldl _ w1 gs) in *.
  assert (forall g0, hasTurn w2 g0 = hasTurn w g0) as Hturn.
  { intros g0. unfold hasTurn. rewrite Hg2, Hg1.
    by destruct (decide (g0 ∈ gs)). }
  split; [rewrite Hm2, Hm1; apply get_mapDelete_same|].
  split.
  { unfold getPlayerEntitiesByPlayer. rewrite Hn2.
    match goal with |- ?l = [] => destruct l as [|g0 rest] eqn:E; [done|] end.
    assert (g0 ∈ g0 :: rest) as Hin0 by (apply elem_of_cons; by left).
    rewrite <- E in Hin0.
    apply list_elem_of_filter in Hin0 as [[Hworld Hplayer] Hg0].
    rewrite Hg2 in Hworld, Hplayer.
    destruct (decide (g0 ∈ gs)) as [Hin|Hnin]; [done|].
    exfalso. apply Hnin. unfold gs, getPlayerEntitiesByPlayer.
    by apply list_elem_of_filter. }
  split.
  { rewrite Hg2, Hg1, <- Hgs. by destruct (decide (g ∈ gs)). }
  split; [apply Hturn|].
  split; [|by rewrite Hm2, Hm1].
  by rewrite Ht3.
Qed.

End Leaving.

(** ** Leaving on one's turn *)

Section LeavingOnTurn.
Import Manager Server Roster Reach.

Lemma hasTurn_onLeftWorld (p : Player) (w : World) (g : nat) :
  hasTurn (onLeftWorld p w) g = hasTurn w g.
Proof.
  unfold onLeftWorld, hasTurn. rewrite foldl_despawn_golfers.
  destruct (golfers_removePlayer p w) as (-> & _).
  by destruct (decide _).
Qed.

Lemma tick_without_turn (g : nat) (input : Golfer.Input) (facing : Vector3)
  (w : World) :
  hasTurn w g = false ->
  let w' := stateOf (step (TickWithPlayerInput g input facing) w) in
  timers w' = timers w /\ trace w' = trace w /\ balls w' = balls w
  /\ manager w' = manager w /\ forall g', golfers w' g' = golfers w g'.
Proof.
  intros Hoff. cbn [step]. destruct (_ && _); cbn [stateOf]; [|done].
  unfold callGolfer, Golfer.onTickWithPlayerInput.
  unfold hasTurn, Golfer.isPlayerTurn in Hoff. rewrite Hoff. cbn.
  split; [done|]. split; [done|]. split; [done|]. split; [done|].
  intros g'. destruct (decide (g = g')) as [->|Hne].
  - by rewrite fn_lookup_insert.
  - by rewrite fn_lookup_insert_ne.
Qed.

(** X23. When the only player who has the turn leaves, the turn goes to
    nobody.  The handler neither advances the turn index nor starts a
    turn, so afterwards no entity of the roster has the turn, although
    the index may point at one of its players; no new callback is
    waiting; and a tick of any player of the roster, whatever the keys,
    changes nothing: no shot, no message, no callback. *)
Theorem leaving_on_turn_passes_no_turn (w : World) (p : Player)
  (Honly : forall s, In s (_players (manager w)) ->
                     hasTurn w (golfEntity s) = true -> id (player s) = id p) :
  let w' := onLeftWorld p w in
  (forall s, In s (_players (manager w')) -> hasTurn w' (golfEntity s) = false)
  /\ timers w' = timers w
  /\ _currentPlayerIndex (manager w') = _currentPlayerIndex (manager w)
  /\ (forall s input facing,
        In s (_players (manager w')) ->
        let w'' := stateOf (step (TickWithPlayerInput (golfEntity s) input facing)
                              w') in
        timers w'' = timers w' /\ trace w'' = trace w' /\ balls w'' = balls w'
        /\ manager w'' = manager w' /\ forall g, golfers w'' g = golfers w' g).
Proof.
  intros w'.
  assert (forall s, In s (_players (manager w')) ->
                    hasTurn w' (golfEntity s) = false) as Hoff.
  { intros s Hs. subst w'. rewrite hasTurn_onLeftWorld.
    rewrite players_onLeftWorld in Hs.
    apply list_elem_of_In, list_elem_of_filter in Hs as [Hne Hs].
    apply list_elem_of_In in Hs.
    destruct (hasTurn w (golfEntity s)) eqn:E; [|done].
    by specialize (Honly s Hs E). }
  split; [done|]. split; [|split].
  - subst w'. unfold onLeftWorld. rewrite foldl_despawn_timers.
    by destruct (golfers_removePlayer p w) as (_ & _ & -> & _).
  - subst w'. unfold onLeftWorld. rewrite foldl_despawn_manager.
    by destruct (golfers_removePlayer p w) as (_ & _ & _ & ->).
  - intros s input facing Hs. by apply tick_without_turn, Hoff.
Qed.

End LeavingOnTurn.

Lemma leaving_on_turn_passes_no_turn_witness :
  let w := Manager.stateOf
             (Server.run [Server.JoinedWorld Scenarios.alice;
                          Server.JoinedWorld Scenarios.bob; Server.StartGolf]
                Server.initial) in
  let w' := Server.onLeftWorld Scenarios.alice w in
  Manager._getCurrentPlayer (Manager.manager w')
  = Some (Roster.fresh Scenarios.bob 1)
  /\ Manager.hasTurn w' 1 = false.
Proof.
  intros w w'. split; [vm_compute; reflexivity|].
  refine (proj1 (leaving_on_turn_passes_no_turn w Scenarios.alice _)
            (Roster.fresh Scenarios.bob 1) _).
  - intros s Hs. vm_compute in Hs. destruct Hs as [<-|[<-|[]]].
    + intros _. reflexivity.
    + vm_compute. intros Hturn. discriminate Hturn.
  - vm_compute. left. reflexivity.
Defined.

(** ** The next hole *)

Section NextHole.
Import Manager Server Roster Reach.

(** X24. Three seconds after a hole is finished, when the course has a
    next hole: the callback returns with the manager on the next hole
    and the turn index back at [0]; the scores are kept; the ball is in
    the world; the first player of the roster has the turn, with no
    strokes yet and the manager's ball to aim at, and no other registered
    entity has the turn. *)
Theorem next_hole_starts (w : World) (first : PlayerScore)
  (rest : list PlayerScore) (hole : GolfHole) (b : nat)
  (Hroster : _players (manager w) = first :: rest)
  (Hhole : _holes (manager w) !! (_currentHole (manager w) + 1) = Some hole)
  (Hball : _golfBall (manager w) = Some b) :
  let r := fire StartNextHole w in
  let w' := stateOf r in
  returns r = true
  /\ _currentHole (manager w') = _currentHole (manager w) + 1
  /\ _currentPlayerIndex (manager w') = Idx 0
  /\ _players (manager w') = first :: rest
  /\ _gameInProgress (manager w') = _gameInProgress (manager w)
  /\ Ball.isSpawned (balls w' b) = true
  /\ hasTurn w' (golfEntity first) = true
  /\ Golfer._currentBall (golfers w' (golfEntity first)) = Some b
  /\ Golfer.getScore (golfers w' (golfEntity first)) = 0
  /\ (forall s, In s rest -> golfEntity s <> golfEntity first ->
                hasTurn w' (golfEntity s) = false).
Proof.
  intros r w'. subst r w'. cbn [fire].
  set (h := _currentHole (manager w) + 1) in *.
  unfold _startHole. rewrite Hhole.
  pose proof (lookup_lt_Some _ _ _ Hhole) as Hlen.
  destruct (Nat.leb_spec (length (_holes (manager w))) h) as [Hle|_]; [lia|].
  cbv zeta.
  cbn [manager updManager set_manager _golfBall set_currentHole].
  rewrite Hball.
  set (w4 := updManager (set_currentPlayerIndex (Idx 0))
               (callBall b (Ball.spawn (teePosition hole))
                  (updManager (set_currentHole h) w))).
  assert (manager w4
          = set_currentPlayerIndex (Idx 0) (set_currentHole h (manager w)))
    as Hm4.
  { subst w4. cbn [manager updManager set_manager]. by rewrite manager_callBall. }
  assert (Ball.isSpawned (balls w4 b) = true) as Hb4.
  { subst w4. unfold callBall. cbn. by rewrite fn_lookup_insert. }
  clearbody w4.
  match goal with |- context [forEachPlayer ?f w4] =>
    destruct (forEachPlayer_frame f w4) as [(Hm5 & _ & _ & Hb5 & _) _];
      [intros; apply emit_frame|];
    set (w5 := forEachPlayer f w4) in * end.
  clearbody w5. rewrite <- Hm5 in Hm4. rewrite <- Hb5 in Hb4. clear Hm5 Hb5.
  cbn [stateOf returns].
  destruct (startPlayerTurn_spec w5 0 first)
    as ((Hm6 & _ & _ & Hb6 & _) & Hturn & Hothers & _);
    [by rewrite Hm4|by rewrite Hm4; cbn; rewrite Hroster|].
  destruct (startPlayerTurn_current w5 0 first b) as (Hcb & Hcount & _);
    [by rewrite Hm4|by rewrite Hm4; cbn; rewrite Hroster
    |by rewrite Hm4; cbn; rewrite Hball|].
  rewrite Hm6, Hb6, Hm4.
  cbn [_currentHole _currentPlayerIndex _players _gameInProgress
       set_currentPlayerIndex set_currentHole].
  split; [done|]. split; [done|]. split; [done|]. split; [done|].
  split; [done|]. split; [done|]. split; [done|]. split; [done|].
  split; [done|].
  intros s Hs Hne. apply Hothers; [|done].
  rewrite Hm4. unfold registered. cbn [_players set_currentPlayerIndex
                                         set_currentHole].
  rewrite Hroster. apply in_map_iff. exists s. split; [done|]. by right.
Qed.

End NextHole.

Lemma next_hole_starts_witness :
  let w := Manager.stateOf
             (Server.run ([Server.JoinedWorld Scenarios.alice; Server.StartGolf]
                          ++ Scenarios.oneShot
                          ++ [Server.Collision 0 Scenarios.theHole true])
                Server.initial) in
  Manager._currentHole
    (Manager.manager (Manager.stateOf (Manager.fire Manager.StartNextHole w)))
  = 1.
Proof.
  intros w.
  destruct (next_hole_starts w
              (Roster.recorded 0 1 (Roster.fresh Scenarios.alice 0)) []
              (Manager.mkHole 2 "Dogleg Right" 4 (mkVec (-15) 2 10)
                 (mkVec 15 2 (-5)) (1 # 2)) 0)
    as (_ & Hhole & _).
  - vm_compute. reflexivity.
  - vm_compute. reflexivity.
  - vm_compute. reflexivity.
  - exact Hhole.
Defined.
